(** * Beam core ledger primitives (core/block_crypt.cpp): a shallow embedding

    The definitions below follow [core/block_crypt.cpp] function by function.
    Fixed-width unsigned integers ([Height], [Amount], [size_t] counters) are
    integers of [Z] with their wrap-around written out; C++ references that are
    written through become extra results; the process-wide [Rules] singleton is
    passed explicitly. *)

From Stdlib Require Import ZArith Lia Bool List Sorting.Sorted Sorting.Permutation.
From stdpp Require Import base tactics option list numbers sorting strings gmap.

Local Open Scope Z_scope.
#[local] Set Warnings "-register-all".

(** ** Machine integers *)

Definition wrap (bits : Z) (x : Z) : Z := x mod 2 ^ bits.
Definition wrap32 : Z -> Z := wrap 32.
Definition wrap64 : Z -> Z := wrap 64.
Definition wrap128 : Z -> Z := wrap 128.

Definition is_u64 (x : Z) : Prop := 0 <= x < 2 ^ 64.

(** [Height] and [Amount] are 64-bit unsigned; [MaxHeight] is [Height(-1)]. *)
Definition MaxHeight : Z := 2 ^ 64 - 1.

Lemma wrap64_range x : 0 <= wrap64 x < 2 ^ 64.
Proof. unfold wrap64, wrap. apply Z.mod_pos_bound. lia. Qed.

Lemma wrap64_small x : 0 <= x < 2 ^ 64 -> wrap64 x = x.
Proof. intros. unfold wrap64, wrap. apply Z.mod_small. lia. Qed.

Lemma wrap64_neg x : - 2 ^ 64 <= x < 0 -> wrap64 x = x + 2 ^ 64.
Proof.
  intros. unfold wrap64, wrap.
  symmetry. apply (Z.mod_unique_pos x (2 ^ 64) (-1) (x + 2 ^ 64)); lia.
Qed.

(** ** HeightRange *)

Module HeightRange.

Record t : Type := mk { m_Min : Z; m_Max : Z }.

Definition Reset (_ : t) : t := {| m_Min := 0; m_Max := MaxHeight |}.

Definition Intersect (self x : t) : t :=
  {| m_Min := Z.max (m_Min self) (m_Min x);
     m_Max := Z.min (m_Max self) (m_Max x) |}.

Definition IsEmpty (self : t) : bool := m_Min self >? m_Max self.

Definition IsInRangeRelative (self : t) (dh : Z) : bool :=
  dh <=? wrap64 (m_Max self - m_Min self).

Definition IsInRange (self : t) (h : Z) : bool :=
  IsInRangeRelative self (wrap64 (h - m_Min self)).

Definition wf (self : t) : Prop := is_u64 (m_Min self) /\ is_u64 (m_Max self).

Lemma IsEmpty_spec (self : t) : IsEmpty self = true <-> m_Min self > m_Max self.
Proof. unfold IsEmpty. rewrite Z.gtb_gt. lia. Qed.

Lemma IsInRange_nonempty (self : t) (h : Z) :
  wf self -> is_u64 h -> m_Min self <= m_Max self ->
  (IsInRange self h = true <-> m_Min self <= h <= m_Max self).
Proof.
  intros [Hmin Hmax] Hh Hle. unfold IsInRange, IsInRangeRelative, is_u64 in *.
  rewrite Z.leb_le, (wrap64_small (m_Max self - m_Min self)) by lia.
  destruct (Z_lt_le_dec h (m_Min self)).
  - rewrite wrap64_neg by lia. lia.
  - rewrite wrap64_small by lia. lia.
Qed.

Lemma IsInRange_empty (self : t) (h : Z) :
  wf self -> is_u64 h -> m_Min self > m_Max self ->
  (IsInRange self h = true <-> m_Min self <= h \/ h <= m_Max self).
Proof.
  intros [Hmin Hmax] Hh Hgt. unfold IsInRange, IsInRangeRelative, is_u64 in *.
  rewrite Z.leb_le, (wrap64_neg (m_Max self - m_Min self)) by lia.
  destruct (Z_lt_le_dec h (m_Min self)).
  - rewrite wrap64_neg by lia. lia.
  - rewrite wrap64_small by lia. lia.
Qed.

End HeightRange.

(** ** The comparison framework

    Every sortable entity has a three-valued [cmp] returning -1, 0 or 1; the
    macros [CMP_SIMPLE], [CMP_MEMBER_EX] and [CMP_PTRS] chain such results,
    returning the first one that is not 0. *)

Definition CMP_SIMPLE (a b : Z) : Z :=
  if a <? b then -1 else if a >? b then 1 else 0.

(** [{ int n = e; if (n) return n; } k] *)
Definition cmp_seq (n k : Z) : Z := if n =? 0 then k else n.

Notation "n ';;;' k" := (cmp_seq n k) (at level 60, right associativity).

(** [CMP_PTRS(a, b)] on nullable pointers: null sorts first. *)
Definition CMP_PTRS {A} (c : A -> A -> Z) (a b : option A) : Z :=
  match a, b with
  | Some x, Some y => c x y
  | Some _, None => 1
  | None, Some _ => -1
  | None, None => 0
  end.

(** A comparison is lawful on a class [Q] of values when it is three-valued,
    antisymmetric and transitive there: [fun a b => c a b <? 0] is then a
    strict weak ordering, which is what [std::sort] asks of [operator<]. *)
Record LawfulOn {A} (Q : A -> Prop) (c : A -> A -> Z) : Prop := {
  law_sgn : forall a b, Q a -> Q b -> c a b = -1 \/ c a b = 0 \/ c a b = 1;
  law_opp : forall a b, Q a -> Q b -> c b a = - c a b;
  law_trans : forall x y z, Q x -> Q y -> Q z -> c x y <= 0 -> c y z <= 0 -> c x z <= 0
}.

Definition Lawful {A} (c : A -> A -> Z) : Prop := LawfulOn (fun _ => True) c.

Lemma LawfulOn_weaken {A} (Q Q' : A -> Prop) c :
  (forall a, Q' a -> Q a) -> LawfulOn Q c -> LawfulOn Q' c.
Proof.
  intros HQ [H1 H2 H3]. split; intros.
  - apply H1; auto.
  - apply H2; auto.
  - eapply H3 with (y := y); auto.
Qed.

Lemma Lawful_on {A} (Q : A -> Prop) c : Lawful c -> LawfulOn Q c.
Proof. apply LawfulOn_weaken. auto. Qed.

Lemma law_refl {A} (Q : A -> Prop) c a : LawfulOn Q c -> Q a -> c a a = 0.
Proof. intros L Ha. pose proof (law_opp Q c L a a Ha Ha). lia. Qed.

Lemma law_lt_trans {A} (Q : A -> Prop) c x y z :
  LawfulOn Q c -> Q x -> Q y -> Q z -> c x y <= 0 -> c y z < 0 -> c x z < 0.
Proof.
  intros L Hx Hy Hz Hxy Hyz.
  pose proof (law_trans Q c L x y z Hx Hy Hz Hxy ltac:(lia)).
  pose proof (law_opp Q c L x z Hx Hz).
  pose proof (law_opp Q c L y z Hy Hz).
  destruct (Z.eq_dec (c x z) 0) as [E|]; [|lia].
  pose proof (law_trans Q c L z x y Hz Hx Hy ltac:(lia) Hxy). lia.
Qed.

Lemma law_lt_trans' {A} (Q : A -> Prop) c x y z :
  LawfulOn Q c -> Q x -> Q y -> Q z -> c x y < 0 -> c y z <= 0 -> c x z < 0.
Proof.
  intros L Hx Hy Hz Hxy Hyz.
  pose proof (law_trans Q c L x y z Hx Hy Hz ltac:(lia) Hyz).
  pose proof (law_opp Q c L x z Hx Hz).
  pose proof (law_opp Q c L x y Hx Hy).
  destruct (Z.eq_dec (c x z) 0) as [E|]; [|lia].
  pose proof (law_trans Q c L y z x Hy Hz Hx Hyz ltac:(lia)). lia.
Qed.

Lemma law_eq_trans {A} (Q : A -> Prop) c x y z :
  LawfulOn Q c -> Q x -> Q y -> Q z -> c x y = 0 -> c y z = 0 -> c x z = 0.
Proof.
  intros L Hx Hy Hz Hxy Hyz.
  pose proof (law_trans Q c L x y z Hx Hy Hz ltac:(lia) ltac:(lia)).
  pose proof (law_opp Q c L x z Hx Hz).
  pose proof (law_opp Q c L x y Hx Hy).
  pose proof (law_opp Q c L y z Hy Hz).
  pose proof (law_trans Q c L z y x Hz Hy Hx ltac:(lia) ltac:(lia)). lia.
Qed.

Lemma Lawful_CMP_SIMPLE : Lawful CMP_SIMPLE.
Proof.
  split; unfold CMP_SIMPLE; intros;
    repeat match goal with
           | |- context [?a <? ?b] => destruct (Z.ltb_spec a b)
           | |- context [?a >? ?b] => destruct (Z.gtb_spec a b)
           | H : context [?a <? ?b] |- _ => destruct (Z.ltb_spec a b)
           | H : context [?a >? ?b] |- _ => destruct (Z.gtb_spec a b)
           end; lia.
Qed.

Lemma CMP_SIMPLE_lt a b : CMP_SIMPLE a b < 0 <-> a < b.
Proof.
  unfold CMP_SIMPLE. destruct (Z.ltb_spec a b); [lia|].
  destruct (Z.gtb_spec a b); lia.
Qed.

Lemma CMP_SIMPLE_eq a b : CMP_SIMPLE a b = 0 <-> a = b.
Proof.
  unfold CMP_SIMPLE. destruct (Z.ltb_spec a b); [lia|].
  destruct (Z.gtb_spec a b); lia.
Qed.

Lemma CMP_SIMPLE_gt a b : CMP_SIMPLE a b > 0 <-> a > b.
Proof.
  unfold CMP_SIMPLE. destruct (Z.ltb_spec a b); [lia|].
  destruct (Z.gtb_spec a b); lia.
Qed.

(** Comparing through a projection. *)
Lemma LawfulOn_key {A B} (f : A -> B) (Q : B -> Prop) c :
  LawfulOn Q c -> LawfulOn (fun a => Q (f a)) (fun a b => c (f a) (f b)).
Proof.
  intros [H1 H2 H3]. split; intros.
  - apply H1; auto.
  - apply H2; auto.
  - apply H3 with (y := f y); auto.
Qed.

(** Chaining: the second comparison needs to be lawful only among values that
    the first one cannot tell apart. *)
Lemma LawfulOn_seq_dep {A} (Q : A -> Prop) (c1 c2 : A -> A -> Z) :
  LawfulOn Q c1 ->
  (forall a0, Q a0 -> LawfulOn (fun x => Q x /\ c1 a0 x = 0) c2) ->
  LawfulOn Q (fun a b => c1 a b ;;; c2 a b).
Proof.
  intros L1 L2. split.
  - intros a b Ha Hb. unfold cmp_seq.
    destruct (Z.eqb_spec (c1 a b) 0) as [E|E].
    + apply (law_sgn _ _ (L2 a Ha)); split; auto. eapply law_refl; eauto.
    + apply (law_sgn _ _ L1); auto.
  - intros a b Ha Hb. unfold cmp_seq.
    pose proof (law_opp _ _ L1 a b Ha Hb) as O.
    destruct (Z.eqb_spec (c1 a b) 0) as [E|E];
      destruct (Z.eqb_spec (c1 b a) 0) as [E'|E']; try lia.
    apply (law_opp _ _ (L2 a Ha)); split; auto. eapply law_refl; eauto.
  - intros x y z Hx Hy Hz. unfold cmp_seq.
    pose proof (law_opp _ _ L1 x y Hx Hy).
    pose proof (law_opp _ _ L1 y z Hy Hz).
    pose proof (law_opp _ _ L1 x z Hx Hz).
    destruct (Z.eqb_spec (c1 x y) 0) as [Exy|Exy];
      destruct (Z.eqb_spec (c1 y z) 0) as [Eyz|Eyz];
      destruct (Z.eqb_spec (c1 x z) 0) as [Exz|Exz]; intros Hxy Hyz.
    + apply (law_trans _ _ (L2 x Hx) x y z); repeat split; auto.
      eapply law_refl; eauto.
    + pose proof (law_eq_trans Q c1 x y z L1 Hx Hy Hz Exy Eyz). lia.
    + pose proof (law_lt_trans Q c1 x y z L1 Hx Hy Hz ltac:(lia) ltac:(lia)). lia.
    + pose proof (law_lt_trans Q c1 x y z L1 Hx Hy Hz ltac:(lia) ltac:(lia)). lia.
    + pose proof (law_lt_trans' Q c1 x y z L1 Hx Hy Hz ltac:(lia) ltac:(lia)). lia.
    + pose proof (law_lt_trans' Q c1 x y z L1 Hx Hy Hz ltac:(lia) ltac:(lia)). lia.
    + pose proof (law_lt_trans Q c1 x y z L1 Hx Hy Hz ltac:(lia) ltac:(lia)). lia.
    + pose proof (law_lt_trans Q c1 x y z L1 Hx Hy Hz ltac:(lia) ltac:(lia)). lia.
Qed.

Lemma LawfulOn_seq {A} (Q : A -> Prop) (c1 c2 : A -> A -> Z) :
  LawfulOn Q c1 -> LawfulOn Q c2 -> LawfulOn Q (fun a b => c1 a b ;;; c2 a b).
Proof.
  intros L1 L2. apply LawfulOn_seq_dep; auto.
  intros a0 _. eapply LawfulOn_weaken; [|exact L2]. tauto.
Qed.

Definition option_all {A} (Q : A -> Prop) (o : option A) : Prop :=
  match o with Some x => Q x | None => True end.

Lemma LawfulOn_PTRS {A} (Q : A -> Prop) (c : A -> A -> Z) :
  LawfulOn Q c -> LawfulOn (option_all Q) (CMP_PTRS c).
Proof.
  intros L. split.
  - intros [a|] [b|]; simpl; intros; auto. apply (law_sgn _ _ L); auto.
  - intros [a|] [b|]; simpl; intros; auto. apply (law_opp _ _ L); auto.
  - intros [x|] [y|] [z|]; simpl; intros; try lia.
    apply (law_trans _ _ L) with (y := y); auto.
Qed.

(** The loop of [TxKernelStd::cmp_Subtype] over two nested-kernel vectors:
    element-wise, and a proper prefix sorts first. *)
Definition cmp_list {A} (c : A -> A -> Z) : list A -> list A -> Z :=
  fix go (l0 l1 : list A) {struct l0} : Z :=
    match l0, l1 with
    | [], [] => 0
    | [], _ :: _ => -1
    | _ :: _, [] => 1
    | x :: l0', y :: l1' => c x y ;;; go l0' l1'
    end.

Lemma LawfulOn_list {A} (Q : A -> Prop) (c : A -> A -> Z) :
  LawfulOn Q c -> LawfulOn (Forall Q) (cmp_list c).
Proof.
  intros L. split.
  - intros a. induction a as [|x a IH]; intros [|y b] Ha Hb; simpl; auto.
    inversion Ha; inversion Hb; subst. unfold cmp_seq.
    destruct (Z.eqb_spec (c x y) 0); [apply IH; auto|apply (law_sgn _ _ L); auto].
  - intros a. induction a as [|x a IH]; intros [|y b] Ha Hb; simpl; auto.
    inversion Ha; inversion Hb; subst. unfold cmp_seq.
    pose proof (law_opp _ _ L x y ltac:(auto) ltac:(auto)).
    destruct (Z.eqb_spec (c x y) 0); destruct (Z.eqb_spec (c y x) 0); try lia.
    apply IH; auto.
  - intros a. induction a as [|x a IH]; intros [|y b] [|z d] Ha Hb Hd; simpl; try lia.
    inversion Ha; inversion Hb; inversion Hd; subst. unfold cmp_seq.
    assert (Qx : Q x) by auto. assert (Qy : Q y) by auto. assert (Qz : Q z) by auto.
    pose proof (law_opp _ _ L x y Qx Qy).
    pose proof (law_opp _ _ L y z Qy Qz).
    pose proof (law_opp _ _ L x z Qx Qz).
    destruct (Z.eqb_spec (c x y) 0) as [Exy|Exy];
      destruct (Z.eqb_spec (c y z) 0) as [Eyz|Eyz];
      destruct (Z.eqb_spec (c x z) 0) as [Exz|Exz]; intros Hxy Hyz.
    + apply IH with (y := b); auto.
    + pose proof (law_eq_trans Q c x y z L Qx Qy Qz Exy Eyz). lia.
    + pose proof (law_lt_trans Q c x y z L Qx Qy Qz ltac:(lia) ltac:(lia)). lia.
    + pose proof (law_lt_trans Q c x y z L Qx Qy Qz ltac:(lia) ltac:(lia)). lia.
    + pose proof (law_lt_trans' Q c x y z L Qx Qy Qz ltac:(lia) ltac:(lia)). lia.
    + pose proof (law_lt_trans' Q c x y z L Qx Qy Qz ltac:(lia) ltac:(lia)). lia.
    + pose proof (law_lt_trans Q c x y z L Qx Qy Qz ltac:(lia) ltac:(lia)). lia.
    + pose proof (law_lt_trans Q c x y z L Qx Qy Qz ltac:(lia) ltac:(lia)). lia.
Qed.

(** [COMPARISON_VIA_CMP]: the relational operators of a class with [cmp]. *)
Definition lt_via_cmp {A} (c : A -> A -> Z) (a b : A) : bool := c a b <? 0.
Definition gt_via_cmp {A} (c : A -> A -> Z) (a b : A) : bool := c a b >? 0.

(** ** [std::sort]

    Insertion sort on [operator<], the algorithm libstdc++ runs on short
    ranges: it moves an element to the left only past elements that are
    strictly greater. *)

Fixpoint linear_insert {A} (lt : A -> A -> bool) (x : A) (l : list A) : list A :=
  match l with
  | [] => [x]
  | y :: l' => if lt y x then y :: linear_insert lt x l' else x :: l
  end.

Fixpoint insertion_sort {A} (lt : A -> A -> bool) (l : list A) : list A :=
  match l with
  | [] => []
  | x :: l' => linear_insert lt x (insertion_sort lt l')
  end.

(** A range is sorted when no element is less than an earlier one. *)
Definition sorted_by {A} (c : A -> A -> Z) (l : list A) : Prop :=
  StronglySorted (fun a b => c a b <= 0) l.

Lemma linear_insert_perm {A} (lt : A -> A -> bool) x l :
  Permutation (linear_insert lt x l) (x :: l).
Proof.
  induction l as [|y l IH]; simpl; auto.
  destruct (lt y x); auto.
  rewrite IH. apply perm_swap.
Qed.

Lemma insertion_sort_perm {A} (lt : A -> A -> bool) l : Permutation (insertion_sort lt l) l.
Proof.
  induction l as [|x l IH]; simpl; auto.
  rewrite linear_insert_perm. auto.
Qed.

Lemma insertion_sort_length {A} (lt : A -> A -> bool) l : length (insertion_sort lt l) = length l.
Proof. apply Permutation_length, insertion_sort_perm. Qed.

Lemma linear_insert_sorted {A} (Q : A -> Prop) (c : A -> A -> Z) x l :
  LawfulOn Q c -> Q x -> Forall Q l ->
  sorted_by c l -> sorted_by c (linear_insert (lt_via_cmp c) x l).
Proof.
  intros L Qx Ql Hs. unfold sorted_by in *.
  induction Hs as [|y l Hs IH Hy]; simpl.
  - repeat constructor.
  - inversion Ql as [|? ? Qy Ql']; subst. unfold lt_via_cmp at 1.
    destruct (Z.ltb_spec (c y x) 0) as [Hlt|Hge].
    + constructor; auto.
      apply (Permutation_Forall (x := x :: l)).
      { symmetry. apply linear_insert_perm. }
      constructor; [lia|auto].
    + pose proof (law_opp _ _ L x y Qx Qy).
      constructor; [constructor; auto|].
      constructor; [lia|].
      rewrite Forall_forall in *. intros z Hz.
      apply (law_trans _ _ L) with (y := y); auto; lia.
Qed.

Lemma insertion_sort_sorted {A} (Q : A -> Prop) (c : A -> A -> Z) l :
  LawfulOn Q c -> Forall Q l -> sorted_by c (insertion_sort (lt_via_cmp c) l).
Proof.
  intros L Ql. induction Ql as [|x l Qx Ql IH]; simpl.
  - constructor.
  - apply (linear_insert_sorted Q); auto.
    apply (Permutation_Forall (x := l)); auto.
    symmetry. apply insertion_sort_perm.
Qed.

Lemma insertion_sort_fixed {A} (Q : A -> Prop) (c : A -> A -> Z) l :
  LawfulOn Q c -> Forall Q l -> sorted_by c l -> insertion_sort (lt_via_cmp c) l = l.
Proof.
  intros L Ql Hs. unfold sorted_by in Hs.
  induction Hs as [|x l Hs IH Hx]; simpl; auto.
  inversion Ql as [|? ? Qx Ql']; subst.
  rewrite IH by auto. destruct l as [|y l]; simpl; auto.
  inversion Hx; subst. inversion Ql'; subst.
  pose proof (law_opp _ _ L x y ltac:(auto) ltac:(auto)).
  unfold lt_via_cmp. destruct (Z.ltb_spec (c y x) 0); [lia|auto].
Qed.

(** The library routine [std::sort], by its contract: called with an
    [operator<] that is a strict weak ordering, here the one a lawful [cmp]
    gives, it leaves a sorted permutation of the range. *)
Class StdSort : Type := {
  std_sort : forall {A : Type}, (A -> A -> bool) -> list A -> list A;
  std_sort_perm : forall (A : Type) (lt : A -> A -> bool) (l : list A),
    Permutation (std_sort lt l) l;
  std_sort_sorted : forall (A : Type) (c : A -> A -> Z) (l : list A),
    Lawful c -> sorted_by c (std_sort (lt_via_cmp c) l)
}.

Lemma std_sort_length `{StdSort} {A} (lt : A -> A -> bool) (l : list A) :
  length (std_sort lt l) = length l.
Proof. apply Permutation_length, std_sort_perm. Qed.

Lemma Forall_True {A} (l : list A) : Forall (fun _ => True) l.
Proof. apply Forall_forall. auto. Qed.

Definition insertion_StdSort : StdSort :=
  {| std_sort := @insertion_sort;
     std_sort_perm := @insertion_sort_perm;
     std_sort_sorted := fun A c l L =>
       insertion_sort_sorted (fun _ => True) c l L (Forall_True l) |}.

(** The contract leaves the order of elements that compare equal open:
    [std::sort] is not stable. Insertion sort that puts an element behind
    the elements equal to it meets the contract as well, and it turns a run
    of equal elements around. *)
Fixpoint upper_insert {A} (lt : A -> A -> bool) (x : A) (l : list A) : list A :=
  match l with
  | [] => [x]
  | y :: l' => if lt x y then x :: l else y :: upper_insert lt x l'
  end.

Fixpoint upper_insertion_sort {A} (lt : A -> A -> bool) (l : list A) : list A :=
  match l with
  | [] => []
  | x :: l' => upper_insert lt x (upper_insertion_sort lt l')
  end.

Lemma upper_insert_perm {A} (lt : A -> A -> bool) x l :
  Permutation (upper_insert lt x l) (x :: l).
Proof.
  induction l as [|y l IH]; simpl; auto.
  destruct (lt x y); auto.
  rewrite IH. apply perm_swap.
Qed.

Lemma upper_insertion_sort_perm {A} (lt : A -> A -> bool) l :
  Permutation (upper_insertion_sort lt l) l.
Proof.
  induction l as [|x l IH]; simpl; auto.
  rewrite upper_insert_perm. auto.
Qed.

Lemma upper_insert_sorted {A} (c : A -> A -> Z) x l :
  Lawful c -> sorted_by c l -> sorted_by c (upper_insert (lt_via_cmp c) x l).
Proof.
  intros L Hs. unfold sorted_by in *.
  induction Hs as [|y l Hs IH Hy]; simpl.
  - repeat constructor.
  - unfold lt_via_cmp at 1.
    destruct (Z.ltb_spec (c x y) 0) as [Hlt|Hge].
    + constructor; [constructor; auto|].
      constructor; [lia|].
      rewrite Forall_forall in *. intros z Hz.
      apply (law_trans _ _ L) with (y := y); auto; lia.
    + pose proof (law_opp _ _ L x y I I).
      constructor; auto.
      apply (Permutation_Forall (x := x :: l)).
      { symmetry. apply upper_insert_perm. }
      constructor; [lia|auto].
Qed.

Lemma upper_insertion_sort_sorted {A} (c : A -> A -> Z) l :
  Lawful c -> sorted_by c (upper_insertion_sort (lt_via_cmp c) l).
Proof.
  intros L. induction l as [|x l IH]; simpl.
  - constructor.
  - apply upper_insert_sorted; auto.
Qed.

Definition upper_insertion_StdSort : StdSort :=
  {| std_sort := @upper_insertion_sort;
     std_sort_perm := @upper_insertion_sort_perm;
     std_sort_sorted := @upper_insertion_sort_sorted |}.

(** ** ECC: the curve and hash collaborators

    [ECC::uintBig] (a 256-bit value, also [ECC::Hash::Value], [Merkle::Hash]
    and [AssetID]) is the integer its big-endian bytes spell. *)

Definition uintBig : Type := Z.

(** Modelled from the spec: [uintBig::cmp] is declared in the ECC headers,
    which are not among the sources; the spec orders such values by their
    bytes, which for big-endian values of one width is the numeric order. *)
Definition uintBig_cmp (a v : uintBig) : Z := CMP_SIMPLE a v.

Lemma Lawful_uintBig_cmp : Lawful uintBig_cmp.
Proof. exact Lawful_CMP_SIMPLE. Qed.

Module Point.

(** [ECC::Point]: an x-coordinate and the parity bit of y. *)
Record t : Type := mk { m_X : uintBig; m_Y : bool }.

(** Modelled from the spec: [ECC::Point::cmp] is declared in the ECC headers,
    which are not among the sources; the spec says a commitment is totally
    ordered by its bytes, the x-coordinate followed by the y bit. *)
Definition cmp (self v : t) : Z :=
  uintBig_cmp (m_X self) (m_X v) ;;;
  CMP_SIMPLE (Z.b2z (m_Y self)) (Z.b2z (m_Y v)) ;;;
  0.

Lemma Point_cmp_lawful : Lawful cmp.
Proof.
  unfold cmp. apply LawfulOn_seq.
  - apply (LawfulOn_key m_X (fun _ => True)), Lawful_uintBig_cmp.
  - apply LawfulOn_seq.
    + apply (LawfulOn_key (fun p => Z.b2z (m_Y p)) (fun _ => True)), Lawful_CMP_SIMPLE.
    + split; intros; lia.
Qed.

Lemma cmp_eq (a b : t) : cmp a b = 0 <-> a = b.
Proof.
  unfold cmp, cmp_seq, uintBig_cmp. destruct a as [xa ya], b as [xb yb]; simpl.
  pose proof (CMP_SIMPLE_eq xa xb) as Hx.
  pose proof (CMP_SIMPLE_eq (Z.b2z ya) (Z.b2z yb)) as Hy.
  split.
  - intros Hc.
    destruct (Z.eqb_spec (CMP_SIMPLE xa xb) 0) as [E|E]; [|contradiction].
    destruct (Z.eqb_spec (CMP_SIMPLE (Z.b2z ya) (Z.b2z yb)) 0) as [E2|E2]; [|contradiction].
    apply Hx in E. apply Hy in E2. subst. f_equal.
    destruct ya, yb; simpl in E2; congruence.
  - intros [= -> ->].
    rewrite (proj2 (CMP_SIMPLE_eq xb xb) eq_refl). simpl.
    rewrite (proj2 (CMP_SIMPLE_eq (Z.b2z yb) (Z.b2z yb)) eq_refl). reflexivity.
Qed.

End Point.

(** A class with [cmp] and [COMPARISON_VIA_CMP], for the types whose
    comparison is implemented outside this file. *)
Class Comparable (A : Type) : Type := {
  ext_cmp : A -> A -> Z;
  ext_cmp_lawful : Lawful ext_cmp
}.

(** What is fed to an [ECC::Oracle] or [ECC::Hash::Processor] with [<<]. *)
Inductive Datum : Type :=
| DStr (s : string)
| DNum (n : Z)
| DBool (b : bool)
| DHash (h : uintBig)
| DPoint (p : Point.t).

(** The interface of the elliptic-curve library, used here by contract only:
    native points with their group operations and import, the Fiat-Shamir
    oracle, signatures, range proofs, shielded proofs and key derivation. *)
Class ECC : Type := {
  Native : Type;
  Native_Zero : Native;
  Native_add : Native -> Native -> Native;
  Native_neg : Native -> Native;
  (** [bool Point::Native::Import(const Point&)]: success and the value left in [*this]. *)
  Native_Import : Point.t -> bool * Native;
  Native_ImportNnz : Point.t -> bool * Native;
  (** [ECC::Tag::AddValue(res, pHGen, v)] *)
  Tag_AddValue : Native -> Native -> Z -> Native;
  (** [ECC::Context::get().m_Ipp.H_] *)
  Context_H_ : Native;
  (** [ECC::Context::get().m_hvChecksum] *)
  Context_hvChecksum : uintBig;
  Oracle : Type;
  Oracle_new : Oracle;
  Oracle_absorb : Oracle -> Datum -> Oracle;
  Oracle_squeeze : Oracle -> uintBig * Oracle;
  Signature : Type;
  Signature_Comparable :: Comparable Signature;
  Signature_IsValid : Signature -> uintBig -> Native -> bool;
  (** [SignatureGeneralized<2>] with its two public nonces *)
  SignatureG2 : Type;
  SignatureG2_IsValid : SignatureG2 -> uintBig -> Native -> Native -> bool;
  Confidential : Type;
  Confidential_Comparable :: Comparable Confidential;
  Confidential_IsValid : Confidential -> Native -> Oracle -> Native -> bool;
  Public : Type;
  Public_Comparable :: Comparable Public;
  Public_m_Value : Public -> Z;
  Public_IsValid : Public -> Native -> Oracle -> Native -> bool;
  Serial : Type;
  Serial_IsValid : Serial -> bool;
  ShieldedRangeProof : Type;
  ShieldedRangeProof_IsValid : ShieldedRangeProof -> Native -> Oracle -> bool;
  SpendProof : Type;
  SpendProof_m_Commitment : SpendProof -> Point.t;
  (** [Key::IKdf] objects and [ECC::HKdf::CreateChild] *)
  IKdf : Type;
  HKdf_CreateChild : IKdf -> Z -> IKdf
}.

(** ** SwitchCommitment *)

Module SwitchCommitment.
Section defs.
Context `{ECC}.

(** The [do ... while (!result.ImportNnz(pt))] loop of [HGenFromAID]: it draws
    x-coordinates from the oracle until one imports; [None] when [fuel] draws
    were not enough. *)
Fixpoint HGenFromAID_loop (fuel : nat) (oracle : Oracle) : option Native :=
  match fuel with
  | O => None
  | S fuel' =>
      let '(x, oracle) := Oracle_squeeze (Oracle_absorb oracle (DStr "a-gen")) in
      let pt := {| Point.m_X := x; Point.m_Y := false |} in
      let '(ok, result) := Native_ImportNnz pt in
      if ok then Some result else HGenFromAID_loop fuel' oracle
  end.

Definition HGenFromAID_fuel (fuel : nat) (assetId : uintBig) : option Native :=
  if assetId =? 0 then Some Native_Zero
  else
    let oracle := Oracle_absorb (Oracle_absorb Oracle_new (DStr "a-id")) (DHash assetId) in
    HGenFromAID_loop fuel oracle.

End defs.
End SwitchCommitment.

(** Rejection sampling ends: for every asset id some number of draws yields an
    importable point. Validation code calls [HGenFromAID] as a total function;
    this is the contract under which it is one. *)
Class RejectionSampling `{ECC} : Type := {
  HGen_draws : uintBig -> nat;
  HGen_terminates : forall assetId,
    is_Some (SwitchCommitment.HGenFromAID_fuel (HGen_draws assetId) assetId)
}.

Definition HGenFromAID `{RejectionSampling} (assetId : uintBig) : Native :=
  default Native_Zero (SwitchCommitment.HGenFromAID_fuel (HGen_draws assetId) assetId).

(** ** Rules *)

Module HeightHash.
Record t : Type := mk { m_Height : Z; m_Hash : uintBig }.

Definition cmp (self v : t) : Z :=
  CMP_SIMPLE (m_Height self) (m_Height v) ;;;
  uintBig_cmp (m_Hash self) (m_Hash v) ;;;
  0.
End HeightHash.

Module Rules.

Definition HeightGenesis : Z := 1.
Definition Coin : Z := 100000000.

(** The process-wide protocol parameters; nested structs are flattened
    ([Emission.Value0] is [Emission_Value0]). [pForks] is the array of fork
    heights and hashes. *)
Record t : Type := mk {
  TreasuryChecksum : uintBig;
  Prehistoric : uintBig;
  Emission_Value0 : Z;
  Emission_Drop0 : Z;
  Emission_Drop1 : Z;
  Maturity_Coinbase : Z;
  Maturity_Std : Z;
  MaxBodySize : Z;
  FakePoW : bool;
  AllowPublicUtxos : bool;
  DA_Target_s : Z;
  DA_MaxAhead_s : Z;
  DA_WindowWork : Z;
  DA_WindowMedian0 : Z;
  DA_WindowMedian1 : Z;
  DA_Difficulty0_Packed : Z;
  DA_Damp_M : Z;
  DA_Damp_N : Z;
  MaxRollback : Z;
  MaxKernelValidityDH : Z;
  Shielded_Enabled : bool;
  Shielded_NMax : Z;
  Shielded_NMin : Z;
  Shielded_MaxWindowBacklog : Z;
  CA_Enabled : bool;
  CA_Deposit : bool;
  pForks : list HeightHash.t
}.

(** [pForks[i]]; reading past the array is undefined in the source and yields
    a zero entry here. *)
Definition pForks_at (r : t) (i : nat) : HeightHash.t :=
  default (HeightHash.mk 0 0) (pForks r !! i).

Definition Fork_Height (r : t) (i : nat) : Z := HeightHash.m_Height (pForks_at r i).

(** *** Emission *)

(** [Rules::get_EmissionEx(h, hEnd, base)]: the per-block emission at [h] and,
    through the reference [hEnd], the height at which it changes next.
    [None] is the division by a zero [Emission.Drop1], which the source
    rules out with [assert(Emission.Drop1)]. *)
Definition get_EmissionEx (r : t) (h : Z) (base : Z) : option (Z * Z) :=
  let h := wrap64 (h - HeightGenesis) in
  if h <? Emission_Drop0 r then
    Some (base, wrap64 (HeightGenesis + Emission_Drop0 r))
  else if Emission_Drop1 r =? 0 then None
  else
    let n := wrap64 (1 + wrap64 (h - Emission_Drop0 r) / Emission_Drop1 r) in
    let nBitsMax := Z.shiftl 8 3 in
    if n >=? nBitsMax then Some (0, MaxHeight)
    else
      let hEnd := wrap64 (HeightGenesis + Emission_Drop0 r + n * Emission_Drop1 r) in
      let base := if n >=? 2 then wrap64 (base + Z.shiftr base 2) else base in
      Some (Z.shiftr base n, hEnd).

(** [Rules::get_Emission(Height h)] *)
Definition get_Emission (r : t) (h : Z) : option Z :=
  fst <$> get_EmissionEx r h (Emission_Value0 r).

(** The emission schedule in the words of the specification, in unsigned
    64-bit arithmetic: [d = h - genesis]; below [drop0] the reward is [value0];
    otherwise [n = 1 + (d - drop0) / drop1], the reward is 0 from [n = 64] on
    and [(value0 + (n >= 2 ? value0 / 4 : 0)) >> n] before. *)
Definition emission_spec (r : t) (h : Z) : Z :=
  let d := (h - HeightGenesis) mod 2 ^ 64 in
  if Z_lt_dec d (Emission_Drop0 r) then Emission_Value0 r
  else
    let n := (1 + (d - Emission_Drop0 r) / Emission_Drop1 r) mod 2 ^ 64 in
    if Z_ge_dec n 64 then 0
    else
      ((Emission_Value0 r + (if Z_ge_dec n 2 then Emission_Value0 r / 4 else 0)) mod 2 ^ 64)
      / 2 ^ n.

(** *** Fork heights and the checksum *)

(** [Rules::IsForkHeightsConsistent]; [_countof(pForks)] is the length of the
    array. *)
Definition IsForkHeightsConsistent (r : t) : bool :=
  if negb (Fork_Height r 0 =? wrap64 (HeightGenesis - 1)) then false
  else
    forallb (fun i => negb (Fork_Height r i <? Fork_Height r (i - 1)))
            (seq 1 (length (pForks r) - 1)).

(** [pForks[i].m_Hash = hv] *)
Definition set_Fork_Hash (r : t) (i : nat) (hv : uintBig) : t :=
  mk (TreasuryChecksum r) (Prehistoric r) (Emission_Value0 r) (Emission_Drop0 r)
     (Emission_Drop1 r) (Maturity_Coinbase r) (Maturity_Std r) (MaxBodySize r)
     (FakePoW r) (AllowPublicUtxos r) (DA_Target_s r) (DA_MaxAhead_s r)
     (DA_WindowWork r) (DA_WindowMedian0 r) (DA_WindowMedian1 r)
     (DA_Difficulty0_Packed r) (DA_Damp_M r) (DA_Damp_N r) (MaxRollback r)
     (MaxKernelValidityDH r) (Shielded_Enabled r) (Shielded_NMax r) (Shielded_NMin r)
     (Shielded_MaxWindowBacklog r) (CA_Enabled r) (CA_Deposit r)
     (alter (fun f => HeightHash.mk (HeightHash.m_Height f) hv) i (pForks r)).

(** Constants of headers that are not among the sources, and the build flag
    [BEAM_TESTNET]. *)
Record Build : Type := mkBuild {
  BEAM_TESTNET : bool;
  PoW_K : Z;
  PoW_N : Z;
  PoW_NonceType_nBits : Z
}.

Section checksum.
Context `{ECC} (b : Build).

(** What [UpdateChecksum] absorbs before it draws [pForks[0].m_Hash],
    [pForks[1].m_Hash] and [pForks[2].m_Hash], in the order of the source. *)
Definition absorbed0 (r : t) : list Datum :=
  [ DHash Context_hvChecksum; DHash (Prehistoric r); DHash (TreasuryChecksum r);
    DNum HeightGenesis; DNum Coin;
    DNum (Emission_Value0 r); DNum (Emission_Drop0 r); DNum (Emission_Drop1 r);
    DNum (Maturity_Coinbase r); DNum (Maturity_Std r);
    DNum (MaxBodySize r); DBool (FakePoW r); DBool (AllowPublicUtxos r);
    DBool false; DBool true;
    DNum (DA_Target_s r); DNum (DA_MaxAhead_s r); DNum (DA_WindowWork r);
    DNum (DA_WindowMedian0 r); DNum (DA_WindowMedian1 r);
    DNum (DA_Difficulty0_Packed r);
    DNum (MaxRollback r); DNum 720;
    DNum (PoW_K b); DNum (PoW_N b); DNum (PoW_NonceType_nBits b);
    DNum 14 ]
  ++ (if BEAM_TESTNET b then [] else [DStr "masternet"]).

Definition absorbed1 (r : t) : list Datum :=
  [ DStr "fork1"; DNum (Fork_Height r 1); DNum (DA_Damp_M r); DNum (DA_Damp_N r) ].

Definition absorbed2 (r : t) : list Datum :=
  [ DStr "fork2"; DNum (Fork_Height r 2); DNum (MaxKernelValidityDH r);
    DBool (Shielded_Enabled r); DNum 1;
    DNum (Shielded_NMax r); DNum (Shielded_NMin r); DNum (Shielded_MaxWindowBacklog r);
    DBool (CA_Enabled r); DBool (CA_Deposit r) ].

(** [oracle << d1 << d2 << ...] *)
Definition absorb_all (oracle : Oracle) (ds : list Datum) : Oracle :=
  fold_left Oracle_absorb ds oracle.

(** [Rules::UpdateChecksum]: [inl msg] is [throw std::runtime_error(msg)]. *)
Definition UpdateChecksum (r : t) : string + t :=
  if negb (IsForkHeightsConsistent r) then inl "Inconsistent Forks"
  else
    let oracle := Oracle_new in
    let '(hv, oracle) := Oracle_squeeze (absorb_all oracle (absorbed0 r)) in
    let r := set_Fork_Hash r 0 hv in
    let '(hv, oracle) := Oracle_squeeze (absorb_all oracle (absorbed1 r)) in
    let r := set_Fork_Hash r 1 hv in
    let '(hv, oracle) := Oracle_squeeze (absorb_all oracle (absorbed2 r)) in
    let r := set_Fork_Hash r 2 hv in
    inr r.

End checksum.

End Rules.

(** ** TxStats *)

(** The width in bits of the counters of [TxStats]; the struct is declared in
    block_crypt.h, which is not among the sources. *)
Class StatsLayout : Type := CounterBits : Z.

Module TxStats.

(** [m_Fee] and [m_Coinbase] are [AmountBig::Type] (128-bit). *)
Record t : Type := mk {
  m_Fee : Z;
  m_Coinbase : Z;
  m_Kernels : Z;
  m_Inputs : Z;
  m_Outputs : Z;
  m_InputsShielded : Z;
  m_OutputsShielded : Z
}.

Definition Reset (_ : t) : t := mk 0 0 0 0 0 0 0.

Section defs.
Context `{StatsLayout}.

(** [c++] on a counter *)
Definition incr (c : Z) : Z := wrap CounterBits (c + 1).

Definition add (self s : t) : t :=
  {| m_Fee := wrap128 (m_Fee self + m_Fee s);
     m_Coinbase := wrap128 (m_Coinbase self + m_Coinbase s);
     m_Kernels := wrap CounterBits (m_Kernels self + m_Kernels s);
     m_Inputs := wrap CounterBits (m_Inputs self + m_Inputs s);
     m_Outputs := wrap CounterBits (m_Outputs self + m_Outputs s);
     m_InputsShielded := wrap CounterBits (m_InputsShielded self + m_InputsShielded s);
     m_OutputsShielded := wrap CounterBits (m_OutputsShielded self + m_OutputsShielded s) |}.

End defs.
End TxStats.

(** ** TxElement and Input *)

Module TxElement.

Record t : Type := mk { m_Commitment : Point.t }.

Definition cmp (self v : t) : Z :=
  Point.cmp (m_Commitment self) (m_Commitment v) ;;; 0.

Lemma cmp_Point (a b : t) : cmp a b = Point.cmp (m_Commitment a) (m_Commitment b).
Proof. unfold cmp, cmp_seq. destruct (Z.eqb_spec (Point.cmp (m_Commitment a) (m_Commitment b)) 0); auto. Qed.

Lemma TxElement_cmp_lawful : Lawful cmp.
Proof.
  unfold cmp. apply LawfulOn_seq.
  - apply (LawfulOn_key m_Commitment (fun _ => True)), Point.Point_cmp_lawful.
  - split; intros; lia.
Qed.

End TxElement.

Module Input.

(** Bookkeeping that is neither hashed nor compared. *)
Record Internal : Type := mkInternal { m_Maturity : Z; m_ID : Z }.

(** [struct Input : TxElement] *)
Record t : Type := mk { base : TxElement.t; m_Internal : Internal }.

(** Modelled from the spec: [Input::cmp] is declared in block_crypt.h, which is
    not among the sources; the spec sorts inputs by commitment, the order of
    [TxElement::cmp]. *)
Definition cmp (self v : t) : Z := TxElement.cmp (base self) (base v).

Definition commitment (self : t) : Point.t := TxElement.m_Commitment (base self).

Lemma Input_cmp_lawful : Lawful cmp.
Proof. apply (LawfulOn_key base (fun _ => True)), TxElement.TxElement_cmp_lawful. Qed.

Definition AddStats `{StatsLayout} (self : t) (s : TxStats.t) : TxStats.t :=
  {| TxStats.m_Fee := TxStats.m_Fee s;
     TxStats.m_Coinbase := TxStats.m_Coinbase s;
     TxStats.m_Kernels := TxStats.m_Kernels s;
     TxStats.m_Inputs := TxStats.incr (TxStats.m_Inputs s);
     TxStats.m_Outputs := TxStats.m_Outputs s;
     TxStats.m_InputsShielded := TxStats.m_InputsShielded s;
     TxStats.m_OutputsShielded := TxStats.m_OutputsShielded s |}.

End Input.

(** ** Output *)

Module Output.
Section defs.
Context `{RejectionSampling} `{StatsLayout} (r : Rules.t).

(** [struct Output : TxElement]; the two proofs are nullable pointers. *)
Record t : Type := mk {
  base : TxElement.t;
  m_Coinbase : bool;
  m_RecoveryOnly : bool;
  m_Incubation : Z;
  m_AssetID : uintBig;
  m_pConfidential : option Confidential;
  m_pPublic : option Public
}.

Definition commitment (self : t) : Point.t := TxElement.m_Commitment (base self).

Definition Prepare (self : t) (oracle : Oracle) (hScheme : Z) : Oracle :=
  let oracle := Oracle_absorb oracle (DNum (m_Incubation self)) in
  if hScheme >=? Rules.Fork_Height r 1 then Oracle_absorb oracle (DPoint (commitment self))
  else oracle.

(** [Output::IsValid(hScheme, comm)]: the result and the point left in [comm]. *)
Definition IsValid (hScheme : Z) (self : t) : bool * Native :=
  let '(ok, comm) := Native_Import (commitment self) in
  if negb ok then (false, comm)
  else
    let sc_m_hGen := HGenFromAID (m_AssetID self) in
    let oracle := Prepare self Oracle_new hScheme in
    match m_pConfidential self with
    | Some pConfidential =>
        if m_Coinbase self then (false, comm)
        else if bool_decide (is_Some (m_pPublic self)) then (false, comm)
        else (Confidential_IsValid pConfidential comm oracle sc_m_hGen, comm)
    | None =>
        match m_pPublic self with
        | None => (false, comm)
        | Some pPublic =>
            if negb (Rules.AllowPublicUtxos r || m_Coinbase self) then (false, comm)
            else (Public_IsValid pPublic comm oracle sc_m_hGen, comm)
        end
    end.

Definition cmp (self v : t) : Z :=
  TxElement.cmp (base self) (base v) ;;;
  CMP_SIMPLE (Z.b2z (m_Coinbase self)) (Z.b2z (m_Coinbase v)) ;;;
  CMP_SIMPLE (Z.b2z (m_RecoveryOnly self)) (Z.b2z (m_RecoveryOnly v)) ;;;
  CMP_SIMPLE (m_Incubation self) (m_Incubation v) ;;;
  uintBig_cmp (m_AssetID self) (m_AssetID v) ;;;
  CMP_PTRS ext_cmp (m_pConfidential self) (m_pConfidential v) ;;;
  CMP_PTRS ext_cmp (m_pPublic self) (m_pPublic v) ;;;
  0.

Definition AddStats (self : t) (s : TxStats.t) : TxStats.t :=
  {| TxStats.m_Fee := TxStats.m_Fee s;
     TxStats.m_Coinbase :=
       match m_pPublic self with
       | Some pPublic =>
           if m_Coinbase self then wrap128 (TxStats.m_Coinbase s + Public_m_Value pPublic)
           else TxStats.m_Coinbase s
       | None => TxStats.m_Coinbase s
       end;
     TxStats.m_Kernels := TxStats.m_Kernels s;
     TxStats.m_Inputs := TxStats.m_Inputs s;
     TxStats.m_Outputs := TxStats.incr (TxStats.m_Outputs s);
     TxStats.m_InputsShielded := TxStats.m_InputsShielded s;
     TxStats.m_OutputsShielded := TxStats.m_OutputsShielded s |}.

Lemma Output_cmp_lawful : Lawful cmp.
Proof.
  unfold cmp.
  repeat first
    [ apply (LawfulOn_key base (fun _ => True)), TxElement.TxElement_cmp_lawful
    | apply (LawfulOn_key (fun o => Z.b2z (m_Coinbase o)) (fun _ => True)), Lawful_CMP_SIMPLE
    | apply (LawfulOn_key (fun o => Z.b2z (m_RecoveryOnly o)) (fun _ => True)), Lawful_CMP_SIMPLE
    | apply (LawfulOn_key m_Incubation (fun _ => True)), Lawful_CMP_SIMPLE
    | apply (LawfulOn_key m_AssetID (fun _ => True)), Lawful_uintBig_cmp
    | apply LawfulOn_seq ].
  - eapply LawfulOn_weaken;
      [|apply (LawfulOn_key m_pConfidential (option_all (fun _ => True))),
               LawfulOn_PTRS, ext_cmp_lawful].
    intros a _. simpl. destruct (m_pConfidential a); simpl; auto.
  - eapply LawfulOn_weaken;
      [|apply (LawfulOn_key m_pPublic (option_all (fun _ => True))),
               LawfulOn_PTRS, ext_cmp_lawful].
    intros a _. simpl. destruct (m_pPublic a); simpl; auto.
  - split; intros; lia.
Qed.

(** Outputs in [Output::cmp] order are in commitment order. *)
Lemma cmp_le_commitment (a b : t) :
  cmp a b <= 0 -> Point.cmp (commitment a) (commitment b) <= 0.
Proof.
  unfold cmp. rewrite TxElement.cmp_Point. fold (commitment a) (commitment b).
  unfold cmp_seq at 1.
  destruct (Z.eqb_spec (Point.cmp (commitment a) (commitment b)) 0); lia.
Qed.

End defs.
End Output.

(** ** TxKernel *)

Module HashLock.
Record t : Type := mk { m_Value : uintBig; m_IsImage : bool }.

Definition cmp (self v : t) : Z := uintBig_cmp (m_Value self) (m_Value v) ;;; 0.

Lemma HashLock_cmp_lawful : Lawful cmp.
Proof.
  unfold cmp. apply LawfulOn_seq.
  - apply (LawfulOn_key m_Value (fun _ => True)), Lawful_uintBig_cmp.
  - split; intros; lia.
Qed.
End HashLock.

Module RelativeLock.
Record t : Type := mk { m_ID : uintBig; m_LockHeight : Z }.

Definition cmp (self v : t) : Z :=
  uintBig_cmp (m_ID self) (m_ID v) ;;;
  CMP_SIMPLE (m_LockHeight self) (m_LockHeight v) ;;;
  0.

Lemma RelativeLock_cmp_lawful : Lawful cmp.
Proof.
  unfold cmp. apply LawfulOn_seq.
  - apply (LawfulOn_key m_ID (fun _ => True)), Lawful_uintBig_cmp.
  - apply LawfulOn_seq.
    + apply (LawfulOn_key m_LockHeight (fun _ => True)), Lawful_CMP_SIMPLE.
    + split; intros; lia.
Qed.
End RelativeLock.

Module Subtype.

Inductive Enum : Type := Std | AssetEmit | ShieldedOutput | ShieldedInput.

(** Modelled from the spec: the enumerators are generated by the
    [BeamKernelsAll] list of block_crypt.h, which is not among the sources;
    they are numbered in the order in which the spec lists the variants. *)
Definition code (s : Enum) : Z :=
  match s with
  | Std => 1
  | AssetEmit => 2
  | ShieldedOutput => 3
  | ShieldedInput => 4
  end.

Lemma code_inj (a b : Enum) : code a = code b -> a = b.
Proof. destruct a, b; simpl; intros; congruence || lia. Qed.

End Subtype.

Module TxKernel.
Section defs.
Context `{RejectionSampling} `{StatsLayout} (r : Rules.t).

(** The members of the base class [TxKernel] other than [m_vNested];
    [m_Internal_ID] is [m_Internal.m_ID]. *)
Record Base : Type := mkBase {
  m_Internal_ID : uintBig;
  m_Fee : Z;
  m_Height : HeightRange.t;
  m_CanEmbed : bool
}.

Record ShieldedTxo : Type := mkTxo {
  Txo_m_Commitment : Point.t;
  Txo_m_Serial : Serial;
  Txo_m_RangeProof : ShieldedRangeProof
}.

(** The members that the subclasses add; [m_Msg] is that of [TxKernelNonStd]
    and [m_Value] of an asset emission is a signed 64-bit amount. *)
Inductive Body : Type :=
| BodyStd (m_Commitment : Point.t) (m_Signature : Signature)
          (m_pHashLock : option HashLock.t) (m_pRelativeLock : option RelativeLock.t)
| BodyAssetEmit (m_Msg : uintBig) (m_Commitment : Point.t) (m_Signature : SignatureG2)
                (m_AssetID : uintBig) (m_Value : Z)
| BodyShieldedOutput (m_Msg : uintBig) (m_Txo : ShieldedTxo)
| BodyShieldedInput (m_Msg : uintBig) (m_WindowEnd : Z) (m_SpendProof : SpendProof).

(** A kernel owns its nested kernels: a tree. *)
Inductive t : Type :=
| Krn (base : Base) (m_vNested : list t) (body : Body).

Definition base (self : t) : Base := match self with Krn b _ _ => b end.
Definition m_vNested (self : t) : list t := match self with Krn _ n _ => n end.
Definition body (self : t) : Body := match self with Krn _ _ b => b end.

Definition get_Subtype (self : t) : Subtype.Enum :=
  match body self with
  | BodyStd _ _ _ _ => Subtype.Std
  | BodyAssetEmit _ _ _ _ _ => Subtype.AssetEmit
  | BodyShieldedOutput _ _ => Subtype.ShieldedOutput
  | BodyShieldedInput _ _ _ => Subtype.ShieldedInput
  end.

Definition Min (self : t) : Z := HeightRange.m_Min (m_Height (base self)).
Definition Max (self : t) : Z := HeightRange.m_Max (m_Height (base self)).

(** *** Ordering *)

(** [TxKernel::cmp_Subtype], the default of the virtual method. *)
Definition cmp_Subtype_default (self v : t) : Z := 0.

(** [TxKernelStd::cmp_Subtype]; [cmp] is [TxKernel::cmp] on the nested
    kernels. [Cast::Up<TxKernelStd>] is applied to a kernel of the same
    subtype; on any other the source is undefined and the model yields 0. *)
Definition TxKernelStd_cmp_Subtype (cmp : t -> t -> Z) (self v : t) : Z :=
  match body self, body v with
  | BodyStd c0 s0 hl0 rl0, BodyStd c1 s1 hl1 rl1 =>
      Point.cmp c0 c1 ;;;
      ext_cmp s0 s1 ;;;
      CMP_SIMPLE (m_Fee (base self)) (m_Fee (base v)) ;;;
      CMP_SIMPLE (Min self) (Min v) ;;;
      CMP_SIMPLE (Max self) (Max v) ;;;
      cmp_list cmp (m_vNested self) (m_vNested v) ;;;
      CMP_PTRS HashLock.cmp hl0 hl1 ;;;
      CMP_PTRS RelativeLock.cmp rl0 rl1 ;;;
      0
  | _, _ => 0
  end.

(** The first part of [TxKernel::cmp]: which side of Fork2 the kernels are
    on, and the IDs when both are past it. *)
Definition cmp_Fork2 (self v : t) : Z :=
  let b2Me := Min self >=? Rules.Fork_Height r 2 in
  let b2Other := Min v >=? Rules.Fork_Height r 2 in
  if b2Me then
    if negb b2Other then 1
    else uintBig_cmp (m_Internal_ID (base self)) (m_Internal_ID (base v))
  else
    if b2Other then -1 else 0.

(** [TxKernel::cmp] *)
Fixpoint cmp (self v : t) {struct self} : Z :=
  cmp_Fork2 self v ;;;
  CMP_SIMPLE (Subtype.code (get_Subtype self)) (Subtype.code (get_Subtype v)) ;;;
  match body self with
  | BodyStd _ _ _ _ => TxKernelStd_cmp_Subtype cmp self v
  | _ => cmp_Subtype_default self v
  end.

(** *** Validation

    [exc] (the running excess) and [*pComm] are written through references:
    every function returns them next to its boolean. *)

(** The loop of [TxKernel::IsValidBase] over [m_vNested]; [IsValid] is the
    virtual [IsValid] of a nested kernel, called with [this] as its parent. *)
Definition IsValidBase_loop (IsValid : t -> Native -> bool * Native) (hScheme : Z) :
    list t -> option t -> Native -> bool * Native :=
  fix loop (l : list t) (p0Krn : option t) (excNested : Native) {struct l} :=
    match l with
    | [] => (true, excNested)
    | v :: l' =>
        if (hScheme <? Rules.Fork_Height r 2) &&
           match p0Krn with
           | Some p0 => gt_via_cmp cmp p0 v
           | None => false
           end
        then (false, excNested)
        else
          let '(ok, excNested) := IsValid v excNested in
          if negb ok then (false, excNested)
          else loop l' (Some v) excNested
    end.

(** [TxKernel::IsValidBase(hScheme, exc, pParent, pComm)] *)
Definition IsValidBase (IsValid : t -> Native -> option t -> bool * Native)
    (hScheme : Z) (self : t) (exc : Native) (pParent : option t) (pComm : option Native)
    : bool * Native * option Native :=
  if (hScheme <? Rules.Fork_Height r 1) && m_CanEmbed (base self) then (false, exc, pComm)
  else
    if match pParent with
       | Some parent =>
           if negb (m_CanEmbed (base self)) then true
           else (Min self >? Min parent) || (Max self <? Max parent)
       | None =>
           (hScheme >=? Rules.Fork_Height r 2) && (Min self <? Rules.Fork_Height r 2)
       end
    then (false, exc, pComm)
    else
      match m_vNested self with
      | [] => (true, exc, pComm)
      | _ :: _ =>
          let '(ok, excNested) :=
            IsValidBase_loop (fun v e => IsValid v e (Some self)) hScheme
                             (m_vNested self) None Native_Zero in
          if negb ok then (false, exc, pComm)
          else if hScheme <? Rules.Fork_Height r 2 then
            match pComm with
            | None => (false, exc, pComm)
            | Some comm => (true, exc, Some (Native_add comm (Native_neg excNested)))
            end
          else (true, Native_add exc excNested, pComm)
      end.

(** [TxKernelStd::IsValid] *)
Definition TxKernelStd_IsValid (IsValid : t -> Native -> option t -> bool * Native)
    (hScheme : Z) (self : t) (m_Commitment : Point.t) (m_Signature : Signature)
    (m_pRelativeLock : option RelativeLock.t)
    (exc : Native) (pParent : option t) : bool * Native :=
  if (hScheme <? Rules.Fork_Height r 1) && bool_decide (is_Some m_pRelativeLock)
  then (false, exc)
  else
    let '(ok, pt) := Native_ImportNnz m_Commitment in
    if negb ok then (false, exc)
    else
      let exc := Native_add exc pt in
      let '(ok, exc, pComm) := IsValidBase IsValid hScheme self exc pParent (Some pt) in
      let pt := default pt pComm in
      if negb ok then (false, exc)
      else if negb (Signature_IsValid m_Signature (m_Internal_ID (base self)) pt)
      then (false, exc)
      else (true, exc).

(** [TxKernelAssetEmit::IsValid] *)
Definition TxKernelAssetEmit_IsValid (IsValid : t -> Native -> option t -> bool * Native)
    (hScheme : Z) (self : t) (m_Msg : uintBig) (m_Commitment : Point.t)
    (m_Signature : SignatureG2) (m_AssetID : uintBig) (m_Value : Z)
    (exc : Native) (pParent : option t) : bool * Native :=
  let '(ok, exc, _) := IsValidBase IsValid hScheme self exc pParent None in
  if negb ok then (false, exc)
  else if (hScheme <? Rules.Fork_Height r 2) || negb (Rules.CA_Enabled r) then (false, exc)
  else if (m_Value =? 0) || (m_AssetID =? 0) then (false, exc)
  else
    let '(ok, pPt0) := Native_ImportNnz m_Commitment in
    if negb ok then (false, exc)
    else
      let exc := Native_add exc pPt0 in
      let pkAsset := {| Point.m_X := m_AssetID; Point.m_Y := false |} in
      let '(ok, pPt1) := Native_Import pkAsset in
      if negb ok then (false, exc)
      else if negb (SignatureG2_IsValid m_Signature m_Msg pPt0 pPt1) then (false, exc)
      else
        let sc_m_hGen := Native_neg (HGenFromAID m_AssetID) in
        let sc_m_hGen :=
          if Rules.CA_Deposit r then Native_add sc_m_hGen Context_H_ else sc_m_hGen in
        let '(val, sc_m_hGen) :=
          if m_Value >? 0 then (m_Value, sc_m_hGen)
          else (wrap64 (- m_Value), Native_neg sc_m_hGen) in
        (true, Tag_AddValue exc sc_m_hGen val).

(** [TxKernelShieldedOutput::IsValid] *)
Definition TxKernelShieldedOutput_IsValid (IsValid : t -> Native -> option t -> bool * Native)
    (hScheme : Z) (self : t) (m_Msg : uintBig) (m_Txo : ShieldedTxo)
    (exc : Native) (pParent : option t) : bool * Native :=
  let '(ok, exc, _) := IsValidBase IsValid hScheme self exc pParent None in
  if negb ok then (false, exc)
  else if (hScheme <? Rules.Fork_Height r 2) || negb (Rules.Shielded_Enabled r)
  then (false, exc)
  else
    let '(ok, comm) := Native_ImportNnz (Txo_m_Commitment m_Txo) in
    if negb ok then (false, exc)
    else
      let exc := Native_add exc comm in
      if negb (Serial_IsValid (Txo_m_Serial m_Txo)) then (false, exc)
      else
        let oracle := Oracle_absorb Oracle_new (DHash m_Msg) in
        (ShieldedRangeProof_IsValid (Txo_m_RangeProof m_Txo) comm oracle, exc).

(** [TxKernelShieldedInput::IsValid] *)
Definition TxKernelShieldedInput_IsValid (IsValid : t -> Native -> option t -> bool * Native)
    (hScheme : Z) (self : t) (m_SpendProof : SpendProof)
    (exc : Native) (pParent : option t) : bool * Native :=
  let '(ok, exc, _) := IsValidBase IsValid hScheme self exc pParent None in
  if negb ok then (false, exc)
  else if (hScheme <? Rules.Fork_Height r 2) || negb (Rules.Shielded_Enabled r)
  then (false, exc)
  else
    let ptNeg := SpendProof_m_Commitment m_SpendProof in
    let ptNeg := {| Point.m_X := Point.m_X ptNeg; Point.m_Y := negb (Point.m_Y ptNeg) |} in
    let '(ok, comm) := Native_ImportNnz ptNeg in
    if negb ok then (false, exc)
    else (true, Native_add exc comm).

(** The virtual [TxKernel::IsValid(hScheme, exc, pParent)] *)
Fixpoint IsValid (hScheme : Z) (self : t) (exc : Native) (pParent : option t)
    {struct self} : bool * Native :=
  match body self with
  | BodyStd m_Commitment m_Signature _ m_pRelativeLock =>
      TxKernelStd_IsValid (IsValid hScheme) hScheme self
                          m_Commitment m_Signature m_pRelativeLock exc pParent
  | BodyAssetEmit m_Msg m_Commitment m_Signature m_AssetID m_Value =>
      TxKernelAssetEmit_IsValid (IsValid hScheme) hScheme self
                                m_Msg m_Commitment m_Signature m_AssetID m_Value exc pParent
  | BodyShieldedOutput m_Msg m_Txo =>
      TxKernelShieldedOutput_IsValid (IsValid hScheme) hScheme self m_Msg m_Txo exc pParent
  | BodyShieldedInput _ _ m_SpendProof =>
      TxKernelShieldedInput_IsValid (IsValid hScheme) hScheme self m_SpendProof exc pParent
  end.

(** *** Statistics *)

(** [TxKernel::AddStats]; [AddStats] is the virtual method on the nested
    kernels. *)
Definition TxKernel_AddStats (AddStats : t -> TxStats.t -> TxStats.t)
    (self : t) (s : TxStats.t) : TxStats.t :=
  let s :=
    {| TxStats.m_Fee := wrap128 (TxStats.m_Fee s + m_Fee (base self));
       TxStats.m_Coinbase := TxStats.m_Coinbase s;
       TxStats.m_Kernels := TxStats.incr (TxStats.m_Kernels s);
       TxStats.m_Inputs := TxStats.m_Inputs s;
       TxStats.m_Outputs := TxStats.m_Outputs s;
       TxStats.m_InputsShielded := TxStats.m_InputsShielded s;
       TxStats.m_OutputsShielded := TxStats.m_OutputsShielded s |} in
  fold_left (fun s v => AddStats v s) (m_vNested self) s.

(** [TxKernelShieldedOutput::AddStats] *)
Definition TxKernelShieldedOutput_AddStats (AddStats : t -> TxStats.t -> TxStats.t)
    (self : t) (s : TxStats.t) : TxStats.t :=
  let s := TxKernel_AddStats AddStats self s in
  {| TxStats.m_Fee := TxStats.m_Fee s;
     TxStats.m_Coinbase := TxStats.m_Coinbase s;
     TxStats.m_Kernels := TxStats.m_Kernels s;
     TxStats.m_Inputs := TxStats.m_Inputs s;
     TxStats.m_Outputs := TxStats.incr (TxStats.m_Outputs s);
     TxStats.m_InputsShielded := TxStats.m_InputsShielded s;
     TxStats.m_OutputsShielded := TxStats.incr (TxStats.m_OutputsShielded s) |}.

(** [TxKernelShieldedInput::AddStats] *)
Definition TxKernelShieldedInput_AddStats (AddStats : t -> TxStats.t -> TxStats.t)
    (self : t) (s : TxStats.t) : TxStats.t :=
  let s := TxKernel_AddStats AddStats self s in
  {| TxStats.m_Fee := TxStats.m_Fee s;
     TxStats.m_Coinbase := TxStats.m_Coinbase s;
     TxStats.m_Kernels := TxStats.m_Kernels s;
     TxStats.m_Inputs := TxStats.incr (TxStats.m_Inputs s);
     TxStats.m_Outputs := TxStats.m_Outputs s;
     TxStats.m_InputsShielded := TxStats.incr (TxStats.m_InputsShielded s);
     TxStats.m_OutputsShielded := TxStats.m_OutputsShielded s |}.

(** The virtual [AddStats]. *)
Fixpoint AddStats (self : t) (s : TxStats.t) {struct self} : TxStats.t :=
  match body self with
  | BodyShieldedOutput _ _ => TxKernelShieldedOutput_AddStats AddStats self s
  | BodyShieldedInput _ _ _ => TxKernelShieldedInput_AddStats AddStats self s
  | _ => TxKernel_AddStats AddStats self s
  end.

End defs.
End TxKernel.

(** ** Transactions: vectors, normalization, fees *)

Module TxVectors.
Section defs.
Context `{RejectionSampling} `{StatsLayout} `{StdSort} (r : Rules.t).

(** [TxBase::CmpInOut] *)
Definition CmpInOut (inp : Input.t) (out : Output.t) : Z :=
  TxElement.cmp (Input.base inp) (Output.base out).

(** The vectors hold owning pointers, none of them null between calls. *)
Record Perishable : Type := mkP {
  m_vInputs : list Input.t;
  m_vOutputs : list Output.t
}.

Record Eternal : Type := mkE { m_vKernels : list TxKernel.t }.

(** [struct Full : Perishable, Eternal] *)
Record Full : Type := mkFull { P : Perishable; E : Eternal }.

(** Modelled from the spec: [operator <] on [Input::Ptr], [Output::Ptr] and
    [TxKernel::Ptr] is declared in block_crypt.h, which is not among the
    sources; the spec has the vectors sorted by the order of the elements
    pointed to, that of their [cmp]. *)
Definition Input_lt : Input.t -> Input.t -> bool := lt_via_cmp Input.cmp.
Definition Output_lt : Output.t -> Output.t -> bool := lt_via_cmp Output.cmp.
Definition Kernel_lt : TxKernel.t -> TxKernel.t -> bool := lt_via_cmp (TxKernel.cmp r).

(** [RebuildVectorWithoutNulls(v, nDel)] *)
Definition RebuildVectorWithoutNulls {T} (v : list (option T)) (nDel : nat) : list T :=
  omap id v.

(** The state of the sweep of [NormalizeP]: the two vectors, in which a
    [reset()] pointer is [None], the counter [nDel] and the index [i1]. *)
Record Sweep : Type := mkSweep {
  sw_Inputs : list (option Input.t);
  sw_Outputs : list (option Output.t);
  sw_nDel : nat;
  sw_i1 : nat
}.

(** The inner [for (; i1 < m_vOutputs.size(); i1++)] for the input at [i0].
    [None] stands for what the source leaves undefined (a null pointer
    dereferenced) and for a loop that [fuel] iterations did not finish. *)
Fixpoint sweep_inner (fuel : nat) (i0 : nat) (st : Sweep) : option Sweep :=
  if bool_decide (sw_i1 st < length (sw_Outputs st))%nat then
    match fuel with
    | O => None
    | S fuel' =>
        pInp ← mjoin (sw_Inputs st !! i0);
        pOut ← mjoin (sw_Outputs st !! sw_i1 st);
        let n := CmpInOut pInp pOut in
        if n <=? 0 then
          if n =? 0 then
            Some {| sw_Inputs := <[i0 := None]> (sw_Inputs st);
                    sw_Outputs := <[sw_i1 st := None]> (sw_Outputs st);
                    sw_nDel := S (sw_nDel st);
                    sw_i1 := S (sw_i1 st) |}
          else Some st
        else
          sweep_inner fuel' i0
            {| sw_Inputs := sw_Inputs st; sw_Outputs := sw_Outputs st;
               sw_nDel := sw_nDel st; sw_i1 := S (sw_i1 st) |}
    end
  else Some st.

(** The outer [for (size_t i0 = 0; i0 < m_vInputs.size(); i0++)]. *)
Fixpoint sweep_outer (fuel : nat) (i0 : nat) (st : Sweep) : option Sweep :=
  if bool_decide (i0 < length (sw_Inputs st))%nat then
    match fuel with
    | O => None
    | S fuel' =>
        st ← sweep_inner (length (sw_Outputs st)) i0 st;
        sweep_outer fuel' (S i0) st
    end
  else Some st.

(** [TxVectors::Perishable::NormalizeP]: the vectors left and the count
    returned. *)
Definition NormalizeP (self : Perishable) : option (Perishable * nat) :=
  let vInputs := std_sort Input_lt (m_vInputs self) in
  let vOutputs := std_sort Output_lt (m_vOutputs self) in
  st ← sweep_outer (length vInputs) 0
         {| sw_Inputs := Some <$> vInputs; sw_Outputs := Some <$> vOutputs;
            sw_nDel := 0; sw_i1 := 0 |};
  let nDel := sw_nDel st in
  if bool_decide (nDel ≠ 0%nat) then
    Some ({| m_vInputs := RebuildVectorWithoutNulls (sw_Inputs st) nDel;
             m_vOutputs := RebuildVectorWithoutNulls (sw_Outputs st) nDel |}, nDel)
  else
    vInputs ← mapM id (sw_Inputs st);
    vOutputs ← mapM id (sw_Outputs st);
    Some ({| m_vInputs := vInputs; m_vOutputs := vOutputs |}, nDel).

(** [TxVectors::Eternal::NormalizeE] *)
Definition NormalizeE (self : Eternal) : Eternal :=
  {| m_vKernels := std_sort Kernel_lt (m_vKernels self) |}.

(** [TxVectors::Full::Normalize] *)
Definition Normalize (self : Full) : option (Full * nat) :=
  let e := NormalizeE (E self) in
  '(p, nDel) ← NormalizeP (P self);
  Some ({| P := p; E := e |}, nDel).

(** [TxBase::IReader::AddStats] over the three streams of the vectors. *)
Definition Reader_AddStats (self : Full) (s : TxStats.t) : TxStats.t :=
  let s := fold_left (fun s i => Input.AddStats i s) (m_vInputs (P self)) s in
  let s := fold_left (fun s o => Output.AddStats o s) (m_vOutputs (P self)) s in
  fold_left (fun s k => TxKernel.AddStats k s) (m_vKernels (E self)) s.

End defs.
End TxVectors.

Module FeeSettings.

Record t : Type := mk {
  m_Output : Z;
  m_Kernel : Z;
  m_ShieldedInput : Z;
  m_ShieldedOutput : Z
}.

(** [Transaction::FeeSettings::FeeSettings()] *)
Definition Default : t :=
  {| m_Output := 10; m_Kernel := 10; m_ShieldedInput := 1000; m_ShieldedOutput := 1000 |}.

(** [Calculate(const TxStats&)], in [Amount] arithmetic. *)
Definition Calculate (self : t) (s : TxStats.t) : Z :=
  wrap64 (wrap64 (wrap64 (
    wrap64 (m_Output self * TxStats.m_Outputs s) +
    wrap64 (m_Kernel self * TxStats.m_Kernels s)) +
    wrap64 (m_ShieldedInput self * TxStats.m_InputsShielded s)) +
    wrap64 (m_ShieldedOutput self * TxStats.m_OutputsShielded s)).

(** [Calculate(const Transaction&)] *)
Definition Calculate_tx `{RejectionSampling} `{StatsLayout} (self : t) (tx : TxVectors.Full) : Z :=
  Calculate self (TxVectors.Reader_AddStats tx (TxStats.Reset (TxStats.mk 0 0 0 0 0 0 0))).

End FeeSettings.

(** ** Key identifiers and the master key *)

Module Key.

(** [Key::IDV]: index, type, packed sub-index and value. *)
Record IDV : Type := mkIDV { m_Idx : Z; m_Type : Z; m_SubIdx : Z; m_Value : Z }.

(** How [m_SubIdx] packs the subkey and the scheme, and the scheme codes, are
    declared in headers that are not among the sources. *)
Class Packing : Type := {
  get_Subkey : IDV -> Z;
  get_Scheme : IDV -> Z;
  Scheme_V0 : Z;
  Scheme_BB21 : Z
}.

End Key.

Module MasterKey.
Section defs.
Context `{ECC} `{Key.Packing}.

(** [Key::IKdf::Ptr] is a shared pointer: an address in a store of key
    derivation objects, or null. *)
Definition Ptr : Type := option nat.
Definition Store : Type := gmap nat IKdf.

(** [MasterKey::get_Child(Key::IKdf& kdf, Key::Index iSubkey)]: a new object,
    at an address that was not in use. *)
Definition get_Child_kdf (store : Store) (kdf : IKdf) (iSubkey : Z) : Ptr * Store :=
  let pRes := fresh (dom store) in
  (Some pRes, <[pRes := HKdf_CreateChild kdf iSubkey]> store).

(** [MasterKey::get_Child(const Key::IKdf::Ptr& pKdf, const Key::IDV& kidv)];
    [None] is the dereference of a null or dangling [pKdf]. *)
Definition get_Child (store : Store) (pKdf : Ptr) (kidv : Key.IDV) : option (Ptr * Store) :=
  let iSubkey := Key.get_Subkey kidv in
  if iSubkey =? 0 then Some (pKdf, store)
  else if Key.Scheme_BB21 =? Key.get_Scheme kidv then Some (pKdf, store)
  else
    kdf ← (pKdf ≫= fun p => store !! p);
    Some (get_Child_kdf store kdf iSubkey).

End defs.
End MasterKey.

(** ** A small instance of the collaborators

    Integers stand for native points, the oracle is its transcript and draws
    the transcript's length, and every verifier accepts. It instantiates the
    general results at concrete inputs. *)

Module Toy.

#[export] Instance Z_Comparable : Comparable Z :=
  {| ext_cmp := CMP_SIMPLE; ext_cmp_lawful := Lawful_CMP_SIMPLE |}.

#[export] Instance ecc : ECC := {|
  Native := Z;
  Native_Zero := 0;
  Native_add := Z.add;
  Native_neg := Z.opp;
  Native_Import := fun p => (true, Point.m_X p);
  Native_ImportNnz := fun p => (negb (Point.m_X p =? 0), Point.m_X p);
  Tag_AddValue := fun res hGen v => res + hGen * v;
  Context_H_ := 1;
  Context_hvChecksum := 0;
  Oracle := list Datum;
  Oracle_new := [];
  Oracle_absorb := fun o d => d :: o;
  Oracle_squeeze := fun o => (Z.of_nat (length o), DNum (Z.of_nat (length o)) :: o);
  Signature := Z;
  Signature_Comparable := Z_Comparable;
  Signature_IsValid := fun _ _ _ => true;
  SignatureG2 := Z;
  SignatureG2_IsValid := fun _ _ _ _ => true;
  Confidential := Z;
  Confidential_Comparable := Z_Comparable;
  Confidential_IsValid := fun _ _ _ _ => true;
  Public := Z;
  Public_Comparable := Z_Comparable;
  Public_m_Value := fun v => v;
  Public_IsValid := fun _ _ _ _ => true;
  Serial := Z;
  Serial_IsValid := fun _ => true;
  ShieldedRangeProof := Z;
  ShieldedRangeProof_IsValid := fun _ _ _ => true;
  SpendProof := Point.t;
  SpendProof_m_Commitment := fun p => p;
  IKdf := list Z;
  HKdf_CreateChild := fun kdf i => i :: kdf
|}.

Lemma one_draw (assetId : uintBig) :
  is_Some (SwitchCommitment.HGenFromAID_fuel 1 assetId).
Proof.
  unfold SwitchCommitment.HGenFromAID_fuel.
  destruct (assetId =? 0); [eexists; reflexivity|].
  simpl. eexists; reflexivity.
Qed.

#[export] Instance sampling : RejectionSampling :=
  {| HGen_draws := fun _ => 1%nat; HGen_terminates := one_draw |}.

#[export] Instance layout : StatsLayout := 32.

#[export] Instance sorting : StdSort := insertion_StdSort.

(** Subkey in the low 24 bits of [m_SubIdx], scheme above them. *)
#[export] Instance packing : Key.Packing := {|
  Key.get_Subkey := fun kidv => Z.land (Key.m_SubIdx kidv) (2 ^ 24 - 1);
  Key.get_Scheme := fun kidv => Z.shiftr (Key.m_SubIdx kidv) 24;
  Key.Scheme_V0 := 0;
  Key.Scheme_BB21 := 2
|}.

Definition build : Rules.Build :=
  {| Rules.BEAM_TESTNET := false; Rules.PoW_K := 5; Rules.PoW_N := 150;
     Rules.PoW_NonceType_nBits := 64 |}.

(** Rules with the emission of the main network and the given forks. *)
Definition rules_with (forks : list HeightHash.t) : Rules.t :=
  {| Rules.TreasuryChecksum := 0; Rules.Prehistoric := 0;
     Rules.Emission_Value0 := Rules.Coin * 80;
     Rules.Emission_Drop0 := 1440 * 365;
     Rules.Emission_Drop1 := 1440 * 365 * 4;
     Rules.Maturity_Coinbase := 240; Rules.Maturity_Std := 0;
     Rules.MaxBodySize := 1048576; Rules.FakePoW := false;
     Rules.AllowPublicUtxos := false;
     Rules.DA_Target_s := 60; Rules.DA_MaxAhead_s := 900; Rules.DA_WindowWork := 120;
     Rules.DA_WindowMedian0 := 25; Rules.DA_WindowMedian1 := 7;
     Rules.DA_Difficulty0_Packed := 0; Rules.DA_Damp_M := 1; Rules.DA_Damp_N := 3;
     Rules.MaxRollback := 1440; Rules.MaxKernelValidityDH := 43200;
     Rules.Shielded_Enabled := true; Rules.Shielded_NMax := 65536;
     Rules.Shielded_NMin := 1024; Rules.Shielded_MaxWindowBacklog := 65536;
     Rules.CA_Enabled := true; Rules.CA_Deposit := true;
     Rules.pForks := forks |}.

(** Fork 1 at height 100 and fork 2 at height 200. *)
Definition rules : Rules.t :=
  rules_with [ HeightHash.mk 0 0; HeightHash.mk 100 0; HeightHash.mk 200 0 ].

End Toy.

(** * Further functions of block_crypt.cpp *)

Definition size_t : Type := nat.

(** ** Heights: saturating addition and maturity *)

(** [void HeightAdd(Height& trg, Height val)]: the value left in [trg]. *)
Definition HeightAdd (trg val : Z) : Z :=
  let trg := wrap64 (trg + val) in
  if trg <? val then wrap64 (-1) else trg.

(** [Output::get_MinMaturity(Height h)] *)
Definition get_MinMaturity `{ECC} (r : Rules.t) (self : Output.t) (h : Z) : Z :=
  let h := HeightAdd h (if Output.m_Coinbase self then Rules.Maturity_Coinbase r
                        else Rules.Maturity_Std r) in
  HeightAdd h (Output.m_Incubation self).

(** ** Forks *)

Module Forks.

(** The loop of [size_t Rules::FindFork(Height h)],
    [for (size_t i = _countof(pForks); i--; )], from the fork below [i] down;
    0 when it falls through. *)
Fixpoint FindFork_from (r : Rules.t) (h : Z) (i : nat) : nat :=
  match i with
  | O => 0%nat
  | S i' => if h >=? Rules.Fork_Height r i' then i' else FindFork_from r h i'
  end.

Definition FindFork (r : Rules.t) (h : Z) : nat :=
  FindFork_from r h (length (Rules.pForks r)).

(** [const HeightHash* Rules::FindFork(const Merkle::Hash& hv)]: the index of
    the fork found, [None] for [nullptr]. *)
Fixpoint FindFork_hash_from (r : Rules.t) (hv : uintBig) (i : nat) : option nat :=
  match i with
  | O => None
  | S i' =>
      let x := Rules.pForks_at r i' in
      if negb (MaxHeight =? HeightHash.m_Height x) && (HeightHash.m_Hash x =? hv)
      then Some i' else FindFork_hash_from r hv i'
  end.

Definition FindFork_hash (r : Rules.t) (hv : uintBig) : option nat :=
  FindFork_hash_from r hv (length (Rules.pForks r)).

(** The loop of [Rules::get_LastFork], [while (--i) if (MaxHeight !=
    pForks[i].m_Height) break;], and the index at which it ends. *)
Fixpoint get_LastFork_from (r : Rules.t) (i : nat) : nat :=
  match i with
  | O => 0%nat
  | S i' =>
      match i' with
      | O => 0%nat
      | S _ => if negb (MaxHeight =? Rules.Fork_Height r i') then i'
               else get_LastFork_from r i'
      end
  end.

Definition get_LastFork_index (r : Rules.t) : nat :=
  get_LastFork_from r (length (Rules.pForks r)).

Definition get_LastFork (r : Rules.t) : HeightHash.t :=
  Rules.pForks_at r (get_LastFork_index r).

End Forks.

(** ** Emission over a range of heights *)

Module Emission.

(** The loop of [Rules::get_Emission(AmountBig::Type& res, const HeightRange& hr,
    Amount base)] from [hPos] on. The product of two 64-bit numbers is taken in
    128 bits and [res +=] wraps at 128 bits; [None] is a loop that [fuel]
    iterations did not finish, the failure of [assert(hEnd > hPos)], or the
    division by a zero [Emission.Drop1]. *)
Fixpoint get_Emission_loop (fuel : nat) (r : Rules.t) (hr : HeightRange.t) (base : Z)
    (hPos : Z) (res : Z) : option Z :=
  match fuel with
  | O => None
  | S fuel' =>
      '(nCurrent, hEnd) ← Rules.get_EmissionEx r hPos base;
      if nCurrent =? 0 then Some res
      else if negb (hEnd >? hPos) then None
      else if HeightRange.m_Max hr <? hEnd then
        Some (wrap128 (res + wrap128 (nCurrent * wrap64 (HeightRange.m_Max hr - hPos + 1))))
      else
        get_Emission_loop fuel' r hr base hEnd
          (wrap128 (res + wrap128 (nCurrent * wrap64 (hEnd - hPos))))
  end.

(** [Rules::get_Emission(res, hr, base)]: the value left in [res]. *)
Definition get_Emission_range (fuel : nat) (r : Rules.t) (hr : HeightRange.t) (base : Z)
    : option Z :=
  let res := 0 in
  if HeightRange.IsEmpty hr then Some res
  else get_Emission_loop fuel r hr base (HeightRange.m_Min hr) res.

(** [Rules::get_Emission(res, hr)] *)
Definition get_Emission_hr (fuel : nat) (r : Rules.t) (hr : HeightRange.t) : option Z :=
  get_Emission_range fuel r hr (Rules.Emission_Value0 r).

(** The per-block emission at [h], for the schedule that starts from [base]. *)
Definition emission_at (r : Rules.t) (base : Z) (h : Z) : Z :=
  match Rules.get_EmissionEx r h base with
  | Some (v, _) => v
  | None => 0
  end.

(** [f lo + f (lo + 1) + ... + f (lo + n - 1)] *)
Fixpoint sumZ (f : Z -> Z) (lo : Z) (n : nat) : Z :=
  match n with
  | O => 0
  | S n' => f lo + sumZ f (lo + 1) n'
  end.

End Emission.


(** ** Merging transactions and walking kernels *)

Module Merge.
Section defs.
Context `{ECC}.

(** [MoveIntoVec(trg, src)]: the vectors left in [trg] and in [src]; a vector
    that was moved from is left empty. *)
Definition MoveIntoVec {T} (trg src : list T) : list T * list T :=
  match trg with
  | [] => (src, [])
  | _ :: _ => (fold_left (fun trg x => trg ++ [x]) src trg, [])
  end.

(** [TxVectors::Full::MoveInto(Full& trg)]: what is left in [*this] and in
    [trg]. *)
Definition MoveInto (self trg : TxVectors.Full) : TxVectors.Full * TxVectors.Full :=
  let '(tI, sI) := MoveIntoVec (TxVectors.m_vInputs (TxVectors.P trg))
                               (TxVectors.m_vInputs (TxVectors.P self)) in
  let '(tO, sO) := MoveIntoVec (TxVectors.m_vOutputs (TxVectors.P trg))
                               (TxVectors.m_vOutputs (TxVectors.P self)) in
  let '(tK, sK) := MoveIntoVec (TxVectors.m_vKernels (TxVectors.E trg))
                               (TxVectors.m_vKernels (TxVectors.E self)) in
  ({| TxVectors.P := {| TxVectors.m_vInputs := sI; TxVectors.m_vOutputs := sO |};
      TxVectors.E := {| TxVectors.m_vKernels := sK |} |},
   {| TxVectors.P := {| TxVectors.m_vInputs := tI; TxVectors.m_vOutputs := tO |};
      TxVectors.E := {| TxVectors.m_vKernels := tK |} |}).

End defs.
End Merge.

Module IWalker.
Section defs.
Context `{ECC} {S : Type}.

(** The pure virtual [OnKrn], with the state of the walker object threaded
    through the calls. *)
Variable OnKrn : TxKernel.t -> S -> bool * S.

(** [TxKernel::IWalker::Process(const std::vector<TxKernel::Ptr>&)], over the
    [Process] of one kernel. *)
Definition Process_vec (Process : TxKernel.t -> S -> bool * S) :
    list TxKernel.t -> S -> bool * S :=
  fix loop (v : list TxKernel.t) (st : S) {struct v} : bool * S :=
    match v with
    | [] => (true, st)
    | krn :: v' =>
        let '(ok, st) := Process krn st in
        if negb ok then (false, st) else loop v' st
    end.

(** [TxKernel::IWalker::Process(const TxKernel&)]:
    [Process(krn.m_vNested) && OnKrn(krn)]. *)
Fixpoint Process (krn : TxKernel.t) (st : S) {struct krn} : bool * S :=
  let '(ok, st) := Process_vec Process (TxKernel.m_vNested krn) st in
  if ok then OnKrn krn st else (false, st).

End defs.
End IWalker.

(** ** Readers: comparing two transactions *)

Module IReader.
Section defs.
Context `{ECC} (r : Rules.t).

(** [get_FromVector(v, idx)]: [NULL] past the end. *)
Definition get_FromVector {T} (v : list T) (idx : size_t) : option T := v !! idx.

(** The macro [COMPARE_TYPE(var, fnNext)] of [TxBase::IReader::Compare], for
    a [TxVectors::Reader]: [var] is [get_FromVector] of a vector at the index
    of the reader ([m_pIdx]) and [fnNext] moves the index on. [a], [i] are the
    vector and the index of [*this] and [b], [j] those of [rOther]; the flags
    are returned. [None] is a loop that [fuel] iterations did not finish. *)
Fixpoint COMPARE_TYPE {T} (cmp : T -> T -> Z) (fuel : nat)
    (a : list T) (i : size_t) (b : list T) (j : size_t)
    (bICover bOtherCovers : bool) : option (bool * bool) :=
  match get_FromVector a i with
  | None =>
      Some (if bool_decide (is_Some (get_FromVector b j)) then false else bICover,
            bOtherCovers)
  | Some var =>
      match get_FromVector b j with
      | None => Some (bICover, false)
      | Some rOther_var =>
          match fuel with
          | O => None
          | S fuel' =>
              let n := cmp var rOther_var in
              let bOtherCovers := if n <? 0 then false else bOtherCovers in
              let bICover := if n >? 0 then false else bICover in
              let i := if n <=? 0 then S i else i in
              let j := if n >=? 0 then S j else j in
              COMPARE_TYPE cmp fuel' a i b j bICover bOtherCovers
          end
      end
  end.

(** [TxBase::IReader::Compare(IReader&& rOther, bool& bICover, bool&
    bOtherCovers)] on the readers of two transactions, both reset: the two
    flags. Each loop moves an index on in every iteration, so the lengths of
    the two vectors are fuel enough. *)
Definition Compare (self rOther : TxVectors.Full) : option (bool * bool) :=
  let bICover := true in
  let bOtherCovers := true in
  let vI := TxVectors.m_vInputs (TxVectors.P self) in
  let vI' := TxVectors.m_vInputs (TxVectors.P rOther) in
  let vO := TxVectors.m_vOutputs (TxVectors.P self) in
  let vO' := TxVectors.m_vOutputs (TxVectors.P rOther) in
  let vK := TxVectors.m_vKernels (TxVectors.E self) in
  let vK' := TxVectors.m_vKernels (TxVectors.E rOther) in
  '(bICover, bOtherCovers) ←
    COMPARE_TYPE Input.cmp (length vI + length vI') vI 0%nat vI' 0%nat bICover bOtherCovers;
  '(bICover, bOtherCovers) ←
    COMPARE_TYPE Output.cmp (length vO + length vO') vO 0%nat vO' 0%nat bICover bOtherCovers;
  COMPARE_TYPE (TxKernel.cmp r) (length vK + length vK') vK 0%nat vK' 0%nat
               bICover bOtherCovers.

End defs.
End IReader.

(** ** System states *)

(** [ECC::Hash::Processor], used by contract: values are written with [<<],
    a [Blob] of bytes likewise, and the hash is read with [>>]. *)
Class HashProcessor : Type := {
  Processor : Type;
  Processor_new : Processor;
  Processor_write : Processor -> Datum -> Processor;
  Processor_write_Blob : Processor -> list Z -> Processor;
  Processor_out : Processor -> uintBig
}.

(** [hp << d1 << d2 << ...] *)
Definition write_all `{HashProcessor} (hp : Processor) (ds : list Datum) : Processor :=
  fold_left Processor_write ds hp.

Module SystemState.

(** [Block::SystemState::Full], with the members that [cmp] and
    [get_HashInternal] read; [m_PoW] is flattened and [m_PoW.m_Indices] is
    its array of bytes. *)
Record Full : Type := mkFull {
  m_Height : Z;
  m_Prev : uintBig;
  m_ChainWork : uintBig;
  m_Kernels : uintBig;
  m_Definition : uintBig;
  m_TimeStamp : Z;
  m_PoW_Difficulty_Packed : Z;
  m_PoW_Nonce : uintBig;
  m_PoW_Indices : list Z
}.

(** [Block::SystemState::ID] *)
Record ID : Type := mkID { ID_m_Height : Z; ID_m_Hash : uintBig }.

(** [Block::SystemState::Full::cmp]; [CMP_MEMBER(m_PoW.m_Indices)] compares
    two arrays with [<], which is their lexicographic order. *)
Definition cmp (self v : Full) : Z :=
  CMP_SIMPLE (m_Height self) (m_Height v) ;;;
  uintBig_cmp (m_Kernels self) (m_Kernels v) ;;;
  uintBig_cmp (m_Definition self) (m_Definition v) ;;;
  uintBig_cmp (m_Prev self) (m_Prev v) ;;;
  uintBig_cmp (m_ChainWork self) (m_ChainWork v) ;;;
  CMP_SIMPLE (m_TimeStamp self) (m_TimeStamp v) ;;;
  CMP_SIMPLE (m_PoW_Difficulty_Packed self) (m_PoW_Difficulty_Packed v) ;;;
  uintBig_cmp (m_PoW_Nonce self) (m_PoW_Nonce v) ;;;
  cmp_list CMP_SIMPLE (m_PoW_Indices self) (m_PoW_Indices v) ;;;
  0.

Section defs.
Context `{HashProcessor} (r : Rules.t).

(** [get_HashInternal(out, bTotal)]: the hash written to [out]. *)
Definition get_HashInternal (self : Full) (bTotal : bool) : uintBig :=
  let hp := Processor_new in
  let hp := write_all hp
    [ DNum (m_Height self); DHash (m_Prev self); DHash (m_ChainWork self);
      DHash (m_Kernels self); DHash (m_Definition self); DNum (m_TimeStamp self);
      DNum (m_PoW_Difficulty_Packed self) ] in
  let iFork := Forks.FindFork r (m_Height self) in
  let hp :=
    if (2 <=? iFork)%nat
    then Processor_write hp (DHash (HeightHash.m_Hash (Rules.pForks_at r iFork)))
    else hp in
  let hp :=
    if bTotal
    then Processor_write (Processor_write_Blob hp (m_PoW_Indices self))
                         (DHash (m_PoW_Nonce self))
    else hp in
  Processor_out hp.

Definition get_HashForPoW (self : Full) : uintBig := get_HashInternal self false.

Definition get_Hash (self : Full) : uintBig :=
  if m_Height self >=? Rules.HeightGenesis then get_HashInternal self true
  else Rules.Prehistoric r.

Definition IsNext (self sNext : Full) : bool :=
  if negb (wrap64 (m_Height self + 1) =? m_Height sNext) then false
  else m_Prev sNext =? get_Hash self.

(** [NextPrefix()]: [get_Hash(m_Prev); m_Height++;]. The hash is written to
    [m_Prev] when all the members have been read. *)
Definition NextPrefix (self : Full) : Full :=
  let hv := get_Hash self in
  {| m_Height := wrap64 (m_Height self + 1);
     m_Prev := hv;
     m_ChainWork := m_ChainWork self;
     m_Kernels := m_Kernels self;
     m_Definition := m_Definition self;
     m_TimeStamp := m_TimeStamp self;
     m_PoW_Difficulty_Packed := m_PoW_Difficulty_Packed self;
     m_PoW_Nonce := m_PoW_Nonce self;
     m_PoW_Indices := m_PoW_Indices self |}.

Definition IsSane (self : Full) : bool :=
  if m_Height self <? Rules.HeightGenesis then false
  else if (m_Height self =? Rules.HeightGenesis) &&
          negb (m_Prev self =? Rules.Prehistoric r) then false
  else true.

Definition get_ID (self : Full) : ID :=
  {| ID_m_Height := m_Height self; ID_m_Hash := get_Hash self |}.

End defs.
End SystemState.

(** ** The history of states *)

Module HistoryMap.

(** [std::map<Height, Block::SystemState::Full> m_Map]: its entries in the
    order of iteration, by increasing height, each height once. *)
Definition t : Type := list (Z * SystemState.Full).

(** [m_Map.find(h)] *)
Fixpoint find (m : t) (h : Z) : option SystemState.Full :=
  match m with
  | [] => None
  | (k, s) :: m' => if k =? h then Some s else find m' h
  end.

(** [m_Map[h] = s] *)
Fixpoint assign (m : t) (h : Z) (s : SystemState.Full) : t :=
  match m with
  | [] => [(h, s)]
  | (k, s') :: m' =>
      if h <? k then (h, s) :: m
      else if h =? k then (h, s) :: m'
      else (k, s') :: assign m' h s
  end.

(** [bool get_At(Full& s, Height h)]: [Some] is [true] with the state
    written to [s]. *)
Definition get_At (m : t) (h : Z) : option SystemState.Full := find m h.

(** [AddStates(const Full* pS, size_t nCount)] *)
Definition AddStates (m : t) (pS : list SystemState.Full) : t :=
  fold_left (fun m s => assign m (SystemState.m_Height s) s) pS m.

(** The loop of [DeleteFrom(Height h)]: while the map is not empty, the last
    entry is erased unless its height is below [h]. Every iteration erases
    an entry, so the size of the map is fuel enough. *)
Fixpoint DeleteFrom_loop (fuel : nat) (m : t) (h : Z) : t :=
  match fuel with
  | O => m
  | S fuel' =>
      match last m with
      | None => m
      | Some (k, _) => if k <? h then m else DeleteFrom_loop fuel' (removelast m) h
      end
  end.

Definition DeleteFrom (m : t) (h : Z) : t := DeleteFrom_loop (length m) m h.

(** The loop of [ShrinkToWindow]: the first entry is erased until its height
    is above [h0]. [None] is the failure of [assert(m_Map.end() != it)], the
    first entry of an empty map. *)
Fixpoint ShrinkToWindow_loop (m : t) (h0 : Z) : option t :=
  match m with
  | [] => None
  | (k, _) :: m' => if k >? h0 then Some m else ShrinkToWindow_loop m' h0
  end.

(** [ShrinkToWindow(Height dh)] *)
Definition ShrinkToWindow (m : t) (dh : Z) : option t :=
  match last m with
  | None => Some m
  | Some (h, _) =>
      if h <=? dh then Some m
      else
        let h0 := wrap64 (h - dh) in
        ShrinkToWindow_loop m h0
  end.

Section walk.
Context {S : Type}.

(** [IWalker::OnState], with the state of the walker threaded through. *)
Variable OnState : SystemState.Full -> S -> bool * S.

(** The loop of [Enum]: from the entry before [it] down to the first one,
    until [OnState] returns false; [l] holds the entries before [it], the
    nearest first. *)
Fixpoint Enum_loop (l : t) (w : S) : bool * S :=
  match l with
  | [] => (true, w)
  | (_, s) :: l' =>
      let '(ok, w) := OnState s w in
      if negb ok then (false, w) else Enum_loop l' w
  end.

(** [m_Map.lower_bound(h)], the first entry whose height is not below [h],
    given as the entries before it. *)
Fixpoint before_lower_bound (m : t) (h : Z) : t :=
  match m with
  | [] => []
  | (k, s) :: m' => if k <? h then (k, s) :: before_lower_bound m' h else []
  end.

(** [HistoryMap::Enum(IWalker& w, const Height* pBelow)] *)
Definition Enum (m : t) (w : S) (pBelow : option Z) : bool * S :=
  let before :=
    match pBelow with
    | Some h => before_lower_bound m h
    | None => m
    end in
  Enum_loop (rev before) w.

End walk.

(** [ZeroObject(s)] on a state: every byte of the object is set to zero, so
    the members are zero and [m_PoW.m_Indices], an array of a fixed size,
    keeps its size with every element zero. *)
Definition ZeroObject (s : SystemState.Full) : SystemState.Full :=
  SystemState.mkFull 0 0 0 0 0 0 0 0
    (repeat 0 (length (SystemState.m_PoW_Indices s))).

(** [IHistory::get_Tip(Full& s)] over a [HistoryMap]: the walker keeps the
    first state it is given and stops. *)
Definition get_Tip (m : t) (s : SystemState.Full) : bool * SystemState.Full :=
  let '(ok, m_Res) := Enum (fun st _ => (false, st)) m s None in
  if negb ok then (true, m_Res)
  else (false, ZeroObject s).

End HistoryMap.

(** ** Kernel IDs *)

(** What the hashing of the kernels takes from the types of the elliptic-curve
    library besides [Hash::Processor]: [hp.Serialize(x)] of a signature or a
    proof, and the public serial number and the signature inside
    [ShieldedTxo::Serial]. *)
Class KernelHashing `{ECC} `{HashProcessor} : Type := {
  Processor_Serialize_SignatureG2 : Processor -> SignatureG2 -> Processor;
  Serial_m_SerialPub : Serial -> Point.t;
  Processor_Serialize_Serial_m_Signature : Processor -> Serial -> Processor;
  Processor_Serialize_RangeProof : Processor -> ShieldedRangeProof -> Processor;
  Processor_Serialize_SpendProof : Processor -> SpendProof -> Processor
}.

Module KernelID.
Section defs.
Context `{KernelHashing}.

(** [TxKernelStd::HashLock::get_Image] *)
Definition get_Image (self : HashLock.t) : uintBig :=
  if HashLock.m_IsImage self then HashLock.m_Value self
  else Processor_out (Processor_write Processor_new (DHash (HashLock.m_Value self))).

(** [TxKernel::HashBase] *)
Definition HashBase (self : TxKernel.t) (hp : Processor) : Processor :=
  write_all hp [ DNum (TxKernel.m_Fee (TxKernel.base self));
                 DNum (TxKernel.Min self); DNum (TxKernel.Max self) ].

(** [TxKernel::HashNested]: the processor, and the nested kernels with the
    IDs that [v.UpdateID()] has left in them. *)
Definition HashNested (UpdateID : TxKernel.t -> TxKernel.t) :
    list TxKernel.t -> Processor -> Processor * list TxKernel.t :=
  fix loop (l : list TxKernel.t) (hp : Processor) {struct l} :=
    match l with
    | [] => (Processor_write hp (DBool true), [])
    | v :: l' =>
        let hp := Processor_write hp (DBool false) in
        let v := UpdateID v in
        let hp := Processor_write hp (DHash (TxKernel.m_Internal_ID (TxKernel.base v))) in
        let '(hp, l') := loop l' hp in
        (hp, v :: l')
    end.

(** [m_Internal.m_ID = id] *)
Definition set_ID (b : TxKernel.Base) (id : uintBig) : TxKernel.Base :=
  {| TxKernel.m_Internal_ID := id;
     TxKernel.m_Fee := TxKernel.m_Fee b;
     TxKernel.m_Height := TxKernel.m_Height b;
     TxKernel.m_CanEmbed := TxKernel.m_CanEmbed b |}.

(** [m_Msg = msg] on a [TxKernelNonStd] *)
Definition set_Msg (bd : TxKernel.Body) (msg : uintBig) : TxKernel.Body :=
  match bd with
  | TxKernel.BodyStd c s hl rl => TxKernel.BodyStd c s hl rl
  | TxKernel.BodyAssetEmit _ c s a v => TxKernel.BodyAssetEmit msg c s a v
  | TxKernel.BodyShieldedOutput _ txo => TxKernel.BodyShieldedOutput msg txo
  | TxKernel.BodyShieldedInput _ w sp => TxKernel.BodyShieldedInput msg w sp
  end.

(** [TxKernelStd::UpdateID] *)
Definition TxKernelStd_UpdateID (UpdateID : TxKernel.t -> TxKernel.t) (self : TxKernel.t)
    (m_Commitment : Point.t) (m_Signature : Signature)
    (m_pHashLock : option HashLock.t) (m_pRelativeLock : option RelativeLock.t)
    : TxKernel.t :=
  let hp := HashBase self Processor_new in
  let nFlags :=
    Z.lor (Z.lor (match m_pHashLock with Some _ => 1 | None => 0 end)
                 (match m_pRelativeLock with Some _ => 2 | None => 0 end))
          (if TxKernel.m_CanEmbed (TxKernel.base self) then 4 else 0) in
  let hp := write_all hp [ DPoint m_Commitment; DNum 0; DNum nFlags ] in
  let hp :=
    match m_pHashLock with
    | Some hl => Processor_write hp (DHash (get_Image hl))
    | None => hp
    end in
  let hp :=
    match m_pRelativeLock with
    | Some rl => write_all hp [ DHash (RelativeLock.m_ID rl);
                                DNum (RelativeLock.m_LockHeight rl) ]
    | None => hp
    end in
  let '(hp, nested) := HashNested UpdateID (TxKernel.m_vNested self) hp in
  TxKernel.Krn (set_ID (TxKernel.base self) (Processor_out hp)) nested
               (TxKernel.BodyStd m_Commitment m_Signature m_pHashLock m_pRelativeLock).

(** [HashSelfForMsg] of the three subclasses of [TxKernelNonStd]. *)
Definition HashSelfForMsg (bd : TxKernel.Body) (hp : Processor) : Processor :=
  match bd with
  | TxKernel.BodyStd _ _ _ _ => hp
  | TxKernel.BodyAssetEmit _ c _ a v => write_all hp [ DPoint c; DHash a; DNum (wrap64 v) ]
  | TxKernel.BodyShieldedOutput _ txo =>
      let hp := write_all hp
        [ DPoint (TxKernel.Txo_m_Commitment txo);
          DPoint (Serial_m_SerialPub (TxKernel.Txo_m_Serial txo)) ] in
      Processor_Serialize_Serial_m_Signature hp (TxKernel.Txo_m_Serial txo)
  | TxKernel.BodyShieldedInput _ w _ => Processor_write hp (DNum w)
  end.

(** [HashSelfForID] *)
Definition HashSelfForID (bd : TxKernel.Body) (hp : Processor) : Processor :=
  match bd with
  | TxKernel.BodyStd _ _ _ _ => hp
  | TxKernel.BodyAssetEmit _ _ s _ _ => Processor_Serialize_SignatureG2 hp s
  | TxKernel.BodyShieldedOutput _ txo =>
      Processor_Serialize_RangeProof hp (TxKernel.Txo_m_RangeProof txo)
  | TxKernel.BodyShieldedInput _ _ sp => Processor_Serialize_SpendProof hp sp
  end.

(** [TxKernelNonStd::UpdateMsg]: the message, and the nested kernels with
    their IDs updated. *)
Definition UpdateMsg (UpdateID : TxKernel.t -> TxKernel.t) (self : TxKernel.t)
    : uintBig * list TxKernel.t :=
  let hp := HashBase self Processor_new in
  let comm := {| Point.m_X := 0; Point.m_Y := true |} in
  let hp := write_all hp [ DPoint comm;
                           DNum (Subtype.code (TxKernel.get_Subtype self)) ] in
  let '(hp, nested) := HashNested UpdateID (TxKernel.m_vNested self) hp in
  let hp := HashSelfForMsg (TxKernel.body self) hp in
  (Processor_out hp, nested).

(** [TxKernelNonStd::MsgToID]: the ID for the message [m_Msg]. *)
Definition MsgToID (bd : TxKernel.Body) (m_Msg : uintBig) : uintBig :=
  let hp := Processor_write Processor_new (DHash m_Msg) in
  let hp := HashSelfForID bd hp in
  Processor_out hp.

(** [TxKernelNonStd::UpdateID] *)
Definition TxKernelNonStd_UpdateID (UpdateID : TxKernel.t -> TxKernel.t) (self : TxKernel.t)
    : TxKernel.t :=
  let '(m_Msg, nested) := UpdateMsg UpdateID self in
  TxKernel.Krn (set_ID (TxKernel.base self) (MsgToID (TxKernel.body self) m_Msg)) nested
               (set_Msg (TxKernel.body self) m_Msg).

(** The virtual [UpdateID]: the kernel with its ID, and those of the kernels
    nested in it, brought up to date. *)
Fixpoint UpdateID (self : TxKernel.t) {struct self} : TxKernel.t :=
  match TxKernel.body self with
  | TxKernel.BodyStd c s hl rl => TxKernelStd_UpdateID UpdateID self c s hl rl
  | _ => TxKernelNonStd_UpdateID UpdateID self
  end.

End defs.
End KernelID.

(** * Properties *)

(** ** HeightRange *)

(** C7, as amended: for 64-bit heights, [IsEmpty] holds exactly when
    [min > max]; on a range that is not empty [IsInRange(h)] holds exactly when
    [min <= h <= max]; on an empty range the unsigned subtraction wraps and
    [IsInRange(h)] holds exactly when [h >= min] or [h <= max]. *)
Theorem C7_IsInRange_IsEmpty (hr : HeightRange.t) (h : Z) :
  HeightRange.wf hr -> is_u64 h ->
  (HeightRange.IsEmpty hr = true <-> HeightRange.m_Min hr > HeightRange.m_Max hr) /\
  (HeightRange.m_Min hr <= HeightRange.m_Max hr ->
   (HeightRange.IsInRange hr h = true <->
    HeightRange.m_Min hr <= h <= HeightRange.m_Max hr)) /\
  (HeightRange.m_Min hr > HeightRange.m_Max hr ->
   (HeightRange.IsInRange hr h = true <->
    HeightRange.m_Min hr <= h \/ h <= HeightRange.m_Max hr)).
Proof.
  intros Hwf Hh. split; [apply HeightRange.IsEmpty_spec|]. split; intros.
  - apply HeightRange.IsInRange_nonempty; auto.
  - apply HeightRange.IsInRange_empty; auto.
Qed.

Lemma C7_IsInRange_IsEmpty_witness :
  (HeightRange.IsEmpty (HeightRange.mk 10 20) = true <-> 10 > 20) /\
  (10 <= 20 -> (HeightRange.IsInRange (HeightRange.mk 10 20) 15 = true <-> 10 <= 15 <= 20)) /\
  (10 > 20 -> (HeightRange.IsInRange (HeightRange.mk 10 20) 15 = true <-> 10 <= 15 \/ 15 <= 20)).
Proof.
  apply (C7_IsInRange_IsEmpty (HeightRange.mk 10 20) 15);
    unfold HeightRange.wf, is_u64; simpl; lia.
Defined.

(** C7 as stated fails on an empty range: in [{min = 5, max = 3}] the height 5
    is reported in range although [5 <= 5 <= 3] is false. *)
Lemma C7_IsInRange_empty_counterexample :
  HeightRange.IsEmpty (HeightRange.mk 5 3) = true /\
  HeightRange.IsInRange (HeightRange.mk 5 3) 5 = true /\
  ~ (5 <= 5 <= 3).
Proof. split; [reflexivity|]. split; [reflexivity|lia]. Qed.

(** ** Emission *)

Lemma shiftr_div (a n : Z) : 0 <= n -> Z.shiftr a n = a / 2 ^ n.
Proof. intros. apply Z.shiftr_div_pow2. auto. Qed.

(** C5: for every 64-bit height and 64-bit emission parameters, when the
    division is defined ([d < Drop0], or [Drop1] is not 0), [get_Emission]
    returns the reward of the specification's formula evaluated in unsigned
    64-bit arithmetic. *)
Theorem C5_get_Emission (r : Rules.t) (h : Z) :
  is_u64 h -> is_u64 (Rules.Emission_Value0 r) ->
  is_u64 (Rules.Emission_Drop0 r) -> is_u64 (Rules.Emission_Drop1 r) ->
  wrap64 (h - Rules.HeightGenesis) < Rules.Emission_Drop0 r \/ Rules.Emission_Drop1 r <> 0 ->
  Rules.get_Emission r h = Some (Rules.emission_spec r h).
Proof.
  unfold is_u64. intros Hh Hv H0 H1 Hd.
  unfold Rules.get_Emission, Rules.get_EmissionEx, Rules.emission_spec.
  fold (wrap 64 (h - Rules.HeightGenesis)). fold (wrap64 (h - Rules.HeightGenesis)).
  set (d := wrap64 (h - Rules.HeightGenesis)) in *.
  pose proof (wrap64_range (h - Rules.HeightGenesis)) as Hdr. fold d in Hdr.
  destruct (Z.ltb_spec d (Rules.Emission_Drop0 r)) as [Hlt|Hge];
    destruct (Z_lt_dec d (Rules.Emission_Drop0 r)) as [Hd1|Hd1]; try lia; [reflexivity|].
  destruct (Z.eqb_spec (Rules.Emission_Drop1 r) 0) as [E|E]; [lia|].
  rewrite (wrap64_small (d - Rules.Emission_Drop0 r)) by lia.
  fold (wrap 64 (1 + (d - Rules.Emission_Drop0 r) / Rules.Emission_Drop1 r)).
  fold (wrap64 (1 + (d - Rules.Emission_Drop0 r) / Rules.Emission_Drop1 r)).
  set (n := wrap64 (1 + (d - Rules.Emission_Drop0 r) / Rules.Emission_Drop1 r)).
  pose proof (wrap64_range (1 + (d - Rules.Emission_Drop0 r) / Rules.Emission_Drop1 r)) as Hn.
  fold n in Hn.
  change (Z.shiftl 8 3) with 64.
  destruct (Z.geb_spec n 64); destruct (Z_ge_dec n 64) as [Hn1|Hn1]; try lia; [reflexivity|].
  simpl. f_equal. rewrite shiftr_div by lia. f_equal.
  destruct (Z.geb_spec n 2); destruct (Z_ge_dec n 2) as [Hn2|Hn2]; try lia.
  - rewrite shiftr_div by lia. reflexivity.
  - rewrite Z.add_0_r. symmetry. apply Z.mod_small. lia.
Qed.

Lemma C5_get_Emission_witness :
  Rules.get_Emission Toy.rules 2102401 = Some (Rules.emission_spec Toy.rules 2102401).
Proof.
  apply (C5_get_Emission Toy.rules 2102401);
    [unfold is_u64; simpl; unfold Rules.Coin; lia .. | right; simpl; lia].
Defined.

(** The schedule at work on the main network's parameters: 80 coins a block
    in the first year, 40 in the next four, 25 (five eighths of 40) after. *)
Example get_Emission_mainnet :
  Rules.get_Emission Toy.rules 1 = Some (80 * Rules.Coin) /\
  Rules.get_Emission Toy.rules 525601 = Some (40 * Rules.Coin) /\
  Rules.get_Emission Toy.rules 2628001 = Some (25 * Rules.Coin) /\
  Rules.get_Emission Toy.rules 0 = Some 0.
Proof. repeat split; reflexivity. Qed.

(** ** The checksum of the rules *)

(** Fork heights are inconsistent when the first is not [HeightGenesis - 1] or
    some fork lies below the one before it. *)
Definition forks_inconsistent (r : Rules.t) : Prop :=
  Rules.Fork_Height r 0 <> Rules.HeightGenesis - 1 \/
  exists i : nat, (1 <= i < length (Rules.pForks r))%nat /\
                  Rules.Fork_Height r i < Rules.Fork_Height r (i - 1).

Lemma Fork_Height_set_Fork_Hash (r : Rules.t) (i j : nat) (hv : uintBig) :
  Rules.Fork_Height (Rules.set_Fork_Hash r i hv) j = Rules.Fork_Height r j.
Proof.
  unfold Rules.Fork_Height, Rules.pForks_at, Rules.set_Fork_Hash. simpl.
  destruct (decide (i = j)) as [->|Hne].
  - rewrite list_lookup_alter_eq. destruct (Rules.pForks r !! j); reflexivity.
  - rewrite list_lookup_alter_ne by auto. reflexivity.
Qed.

Lemma IsForkHeightsConsistent_false (r : Rules.t) :
  Rules.IsForkHeightsConsistent r = false <-> forks_inconsistent r.
Proof.
  unfold Rules.IsForkHeightsConsistent, forks_inconsistent.
  change (wrap64 (Rules.HeightGenesis - 1)) with 0.
  change (Rules.HeightGenesis - 1) with 0.
  destruct (Z.eqb_spec (Rules.Fork_Height r 0) 0) as [E|E]; simpl.
  - rewrite <- not_true_iff_false, forallb_forall. split.
    + intros Hn. right.
      destruct (decide (Exists (fun i : nat => Rules.Fork_Height r i < Rules.Fork_Height r (i - 1))
                               (seq 1 (length (Rules.pForks r) - 1)))) as [Hex|Hnex].
      * apply Exists_exists in Hex. destruct Hex as (i & Hi & Hlt).
        apply elem_of_seq in Hi. exists i. split; [lia|auto].
      * exfalso. apply Hn. intros i Hi.
        destruct (Z.ltb_spec (Rules.Fork_Height r i) (Rules.Fork_Height r (i - 1))); auto.
        exfalso. apply Hnex. apply Exists_exists. exists i.
        split; [apply list_elem_of_In; auto|auto].
    + intros [Hne|(i & Hi & Hlt)] Hall; [contradiction|].
      specialize (Hall i). rewrite in_seq in Hall.
      specialize (Hall ltac:(lia)).
      destruct (Z.ltb_spec (Rules.Fork_Height r i) (Rules.Fork_Height r (i - 1)));
        simpl in Hall; [discriminate|lia].
  - split; auto.
Qed.

Lemma length_set_Fork_Hash (r : Rules.t) (i : nat) (hv : uintBig) :
  length (Rules.pForks (Rules.set_Fork_Hash r i hv)) = length (Rules.pForks r).
Proof. unfold Rules.set_Fork_Hash. simpl. apply length_alter. Qed.

Lemma Fork_Hash_set_Fork_Hash (r : Rules.t) (i : nat) (hv : uintBig) :
  (i < length (Rules.pForks r))%nat ->
  HeightHash.m_Hash (Rules.pForks_at (Rules.set_Fork_Hash r i hv) i) = hv.
Proof.
  intros Hi. unfold Rules.pForks_at, Rules.set_Fork_Hash. simpl.
  rewrite list_lookup_alter_eq.
  destruct (lookup_lt_is_Some_2 (Rules.pForks r) i Hi) as [f ->]. reflexivity.
Qed.

Lemma pForks_at_set_Fork_Hash_ne (r : Rules.t) (i j : nat) (hv : uintBig) :
  i <> j -> Rules.pForks_at (Rules.set_Fork_Hash r i hv) j = Rules.pForks_at r j.
Proof.
  intros Hne. unfold Rules.pForks_at, Rules.set_Fork_Hash. simpl.
  rewrite list_lookup_alter_ne by auto. reflexivity.
Qed.

(** C6: on rules with the three forks that [UpdateChecksum] writes to,
    [UpdateChecksum] throws ["Inconsistent Forks"] exactly when the fork
    heights are inconsistent. Otherwise it returns, and then
    [pForks[0].m_Hash] is what the oracle gives after it has absorbed the
    parameters of the first list below, in that order; [pForks[1].m_Hash] is
    what the same oracle gives next, after the parameters of fork 1; and
    [pForks[2].m_Hash] what it gives after those of fork 2. The heights of
    the forks, the forks after the third and every other member of the rules
    stay as they were. *)
Theorem C6_UpdateChecksum `{ECC} (b : Rules.Build) (r : Rules.t) :
  (3 <= length (Rules.pForks r))%nat ->
  (forks_inconsistent r -> Rules.UpdateChecksum b r = inl "Inconsistent Forks"%string) /\
  (~ forks_inconsistent r ->
   let parameters0 :=
     [ DHash Context_hvChecksum; DHash (Rules.Prehistoric r);
       DHash (Rules.TreasuryChecksum r);
       DNum Rules.HeightGenesis; DNum Rules.Coin;
       DNum (Rules.Emission_Value0 r); DNum (Rules.Emission_Drop0 r);
       DNum (Rules.Emission_Drop1 r);
       DNum (Rules.Maturity_Coinbase r); DNum (Rules.Maturity_Std r);
       DNum (Rules.MaxBodySize r); DBool (Rules.FakePoW r);
       DBool (Rules.AllowPublicUtxos r);
       DBool false; DBool true;
       DNum (Rules.DA_Target_s r); DNum (Rules.DA_MaxAhead_s r);
       DNum (Rules.DA_WindowWork r);
       DNum (Rules.DA_WindowMedian0 r); DNum (Rules.DA_WindowMedian1 r);
       DNum (Rules.DA_Difficulty0_Packed r);
       DNum (Rules.MaxRollback r); DNum 720;
       DNum (Rules.PoW_K b); DNum (Rules.PoW_N b); DNum (Rules.PoW_NonceType_nBits b);
       DNum 14 ]
     ++ (if Rules.BEAM_TESTNET b then [] else [DStr "masternet"]) in
   let parameters1 :=
     [ DStr "fork1"; DNum (HeightHash.m_Height (Rules.pForks_at r 1));
       DNum (Rules.DA_Damp_M r); DNum (Rules.DA_Damp_N r) ] in
   let parameters2 :=
     [ DStr "fork2"; DNum (HeightHash.m_Height (Rules.pForks_at r 2));
       DNum (Rules.MaxKernelValidityDH r);
       DBool (Rules.Shielded_Enabled r); DNum 1;
       DNum (Rules.Shielded_NMax r); DNum (Rules.Shielded_NMin r);
       DNum (Rules.Shielded_MaxWindowBacklog r);
       DBool (Rules.CA_Enabled r); DBool (Rules.CA_Deposit r) ] in
   let draw0 := Oracle_squeeze (fold_left Oracle_absorb parameters0 Oracle_new) in
   let draw1 := Oracle_squeeze (fold_left Oracle_absorb parameters1 (snd draw0)) in
   let draw2 := Oracle_squeeze (fold_left Oracle_absorb parameters2 (snd draw1)) in
   exists r' : Rules.t,
     Rules.UpdateChecksum b r = inr r' /\
     HeightHash.m_Hash (Rules.pForks_at r' 0) = fst draw0 /\
     HeightHash.m_Hash (Rules.pForks_at r' 1) = fst draw1 /\
     HeightHash.m_Hash (Rules.pForks_at r' 2) = fst draw2 /\
     length (Rules.pForks r') = length (Rules.pForks r) /\
     (forall i : nat, Rules.Fork_Height r' i = Rules.Fork_Height r i) /\
     (forall i : nat, (3 <= i)%nat -> Rules.pForks_at r' i = Rules.pForks_at r i) /\
     r' = Rules.mk (Rules.TreasuryChecksum r) (Rules.Prehistoric r)
            (Rules.Emission_Value0 r) (Rules.Emission_Drop0 r) (Rules.Emission_Drop1 r)
            (Rules.Maturity_Coinbase r) (Rules.Maturity_Std r) (Rules.MaxBodySize r)
            (Rules.FakePoW r) (Rules.AllowPublicUtxos r) (Rules.DA_Target_s r)
            (Rules.DA_MaxAhead_s r) (Rules.DA_WindowWork r) (Rules.DA_WindowMedian0 r)
            (Rules.DA_WindowMedian1 r) (Rules.DA_Difficulty0_Packed r)
            (Rules.DA_Damp_M r) (Rules.DA_Damp_N r) (Rules.MaxRollback r)
            (Rules.MaxKernelValidityDH r) (Rules.Shielded_Enabled r)
            (Rules.Shielded_NMax r) (Rules.Shielded_NMin r)
            (Rules.Shielded_MaxWindowBacklog r) (Rules.CA_Enabled r)
            (Rules.CA_Deposit r) (Rules.pForks r')).
Proof.
  intros Hlen. split.
  - intros Hbad. apply IsForkHeightsConsistent_false in Hbad.
    unfold Rules.UpdateChecksum. rewrite Hbad. reflexivity.
  - intros Hok. rewrite <- IsForkHeightsConsistent_false in Hok.
    apply not_false_iff_true in Hok. cbv zeta.
    unfold Rules.UpdateChecksum. rewrite Hok. simpl negb. cbv iota.
    unfold Rules.absorb_all.
    change (Rules.absorbed0 b r) with
      ([ DHash Context_hvChecksum; DHash (Rules.Prehistoric r);
         DHash (Rules.TreasuryChecksum r);
         DNum Rules.HeightGenesis; DNum Rules.Coin;
         DNum (Rules.Emission_Value0 r); DNum (Rules.Emission_Drop0 r);
         DNum (Rules.Emission_Drop1 r);
         DNum (Rules.Maturity_Coinbase r); DNum (Rules.Maturity_Std r);
         DNum (Rules.MaxBodySize r); DBool (Rules.FakePoW r);
         DBool (Rules.AllowPublicUtxos r);
         DBool false; DBool true;
         DNum (Rules.DA_Target_s r); DNum (Rules.DA_MaxAhead_s r);
         DNum (Rules.DA_WindowWork r);
         DNum (Rules.DA_WindowMedian0 r); DNum (Rules.DA_WindowMedian1 r);
         DNum (Rules.DA_Difficulty0_Packed r);
         DNum (Rules.MaxRollback r); DNum 720;
         DNum (Rules.PoW_K b); DNum (Rules.PoW_N b); DNum (Rules.PoW_NonceType_nBits b);
         DNum 14 ]
       ++ (if Rules.BEAM_TESTNET b then [] else [DStr "masternet"])).
    set (p0 := _ ++ _).
    destruct (Oracle_squeeze (fold_left Oracle_absorb p0 Oracle_new)) as [h0 o0].
    set (r0 := Rules.set_Fork_Hash r 0 h0).
    assert (A1 : Rules.absorbed1 r0 =
                 [ DStr "fork1"; DNum (HeightHash.m_Height (Rules.pForks_at r 1));
                   DNum (Rules.DA_Damp_M r); DNum (Rules.DA_Damp_N r) ]).
    { unfold Rules.absorbed1, r0. rewrite Fork_Height_set_Fork_Hash. reflexivity. }
    rewrite A1. set (p1 := [DStr "fork1"; _; _; _]). cbn [snd].
    destruct (Oracle_squeeze (fold_left Oracle_absorb p1 o0)) as [h1 o1].
    set (r1 := Rules.set_Fork_Hash r0 1 h1).
    assert (A2 : Rules.absorbed2 r1 =
                 [ DStr "fork2"; DNum (HeightHash.m_Height (Rules.pForks_at r 2));
                   DNum (Rules.MaxKernelValidityDH r);
                   DBool (Rules.Shielded_Enabled r); DNum 1;
                   DNum (Rules.Shielded_NMax r); DNum (Rules.Shielded_NMin r);
                   DNum (Rules.Shielded_MaxWindowBacklog r);
                   DBool (Rules.CA_Enabled r); DBool (Rules.CA_Deposit r) ]).
    { unfold Rules.absorbed2, r1, r0. rewrite !Fork_Height_set_Fork_Hash. reflexivity. }
    rewrite A2. set (p2 := [DStr "fork2"; _; _; _; _; _; _; _; _; _]). cbn [snd].
    destruct (Oracle_squeeze (fold_left Oracle_absorb p2 o1)) as [h2 o2].
    set (r2 := Rules.set_Fork_Hash r1 2 h2). cbn [fst].
    assert (L0 : length (Rules.pForks r0) = length (Rules.pForks r))
      by apply length_set_Fork_Hash.
    assert (L1 : length (Rules.pForks r1) = length (Rules.pForks r))
      by (unfold r1; rewrite length_set_Fork_Hash; exact L0).
    exists r2. split; [reflexivity|].
    split.
    { unfold r2. rewrite pForks_at_set_Fork_Hash_ne by lia.
      unfold r1. rewrite pForks_at_set_Fork_Hash_ne by lia.
      apply Fork_Hash_set_Fork_Hash. lia. }
    split.
    { unfold r2. rewrite pForks_at_set_Fork_Hash_ne by lia.
      apply Fork_Hash_set_Fork_Hash. lia. }
    split; [apply Fork_Hash_set_Fork_Hash; lia|].
    split; [unfold r2; rewrite length_set_Fork_Hash; exact L1|].
    split; [intros i; unfold r2, r1, r0; rewrite !Fork_Height_set_Fork_Hash; reflexivity|].
    split; [|reflexivity].
    intros i Hi. unfold r2, r1, r0. rewrite !pForks_at_set_Fork_Hash_ne by lia. reflexivity.
Qed.

(** ** Output validation *)

(** The ways in which an output breaks the proof-shape invariant: a coinbase
    with a confidential proof, both proofs, no proof, or a public proof that
    is neither permitted by the rules nor on a coinbase. *)
Definition proof_shape_violated `{ECC} (r : Rules.t) (o : Output.t) : Prop :=
  (Output.m_Coinbase o = true /\ is_Some (Output.m_pConfidential o)) \/
  (is_Some (Output.m_pConfidential o) /\ is_Some (Output.m_pPublic o)) \/
  (Output.m_pConfidential o = None /\ Output.m_pPublic o = None) \/
  (is_Some (Output.m_pPublic o) /\
   Rules.AllowPublicUtxos r = false /\ Output.m_Coinbase o = false).

Lemma violated_cases `{ECC} (r : Rules.t) (o : Output.t) :
  proof_shape_violated r o <->
  match Output.m_pConfidential o, Output.m_pPublic o with
  | Some _, Some _ => True
  | Some _, None => Output.m_Coinbase o = true
  | None, Some _ => Rules.AllowPublicUtxos r || Output.m_Coinbase o = false
  | None, None => True
  end.
Proof.
  unfold proof_shape_violated.
  destruct (Output.m_pConfidential o) as [c|], (Output.m_pPublic o) as [p|];
    destruct (Output.m_Coinbase o), (Rules.AllowPublicUtxos r); simpl;
    split; intros Hx; auto;
    repeat match goal with
           | H : _ \/ _ |- _ => destruct H
           | H : _ /\ _ |- _ => destruct H
           | H : is_Some None |- _ => destruct H; discriminate
           end; try congruence.
  all: try (left; split; [reflexivity|eexists; reflexivity]).
  all: try (right; left; split; eexists; reflexivity).
  all: try (right; right; left; split; reflexivity).
  all: try (right; right; right; split; [eexists; reflexivity|split; reflexivity]).
Qed.

(** C8: [Output::IsValid] returns false on every output that breaks the
    proof-shape invariant. The outputs that do not break it carry exactly one
    proof, a confidential one off a coinbase or a public one where permitted;
    on those, once the commitment imports, the result is that of the
    range-proof verifier of that proof. *)
Theorem C8_Output_IsValid `{RejectionSampling} (r : Rules.t) (hScheme : Z) (o : Output.t) :
  (proof_shape_violated r o -> fst (Output.IsValid r hScheme o) = false) /\
  (~ proof_shape_violated r o ->
   (exists c, Output.m_pConfidential o = Some c /\ Output.m_pPublic o = None /\
              Output.m_Coinbase o = false) \/
   (exists p, Output.m_pConfidential o = None /\ Output.m_pPublic o = Some p /\
              Rules.AllowPublicUtxos r || Output.m_Coinbase o = true)) /\
  (forall comm c,
     Native_Import (Output.commitment o) = (true, comm) ->
     Output.m_pConfidential o = Some c -> Output.m_pPublic o = None ->
     Output.m_Coinbase o = false ->
     Output.IsValid r hScheme o =
       (Confidential_IsValid c comm (Output.Prepare r o Oracle_new hScheme)
                             (HGenFromAID (Output.m_AssetID o)), comm)) /\
  (forall comm p,
     Native_Import (Output.commitment o) = (true, comm) ->
     Output.m_pConfidential o = None -> Output.m_pPublic o = Some p ->
     Rules.AllowPublicUtxos r || Output.m_Coinbase o = true ->
     Output.IsValid r hScheme o =
       (Public_IsValid p comm (Output.Prepare r o Oracle_new hScheme)
                       (HGenFromAID (Output.m_AssetID o)), comm)).
Proof.
  rewrite violated_cases. unfold Output.IsValid.
  destruct (Native_Import (Output.commitment o)) as [ok comm0].
  split; [|split; [|split]].
  - intros Hv. destruct ok; [|reflexivity]. cbn [negb].
    destruct (Output.m_pConfidential o) as [c|], (Output.m_pPublic o) as [p|].
    + destruct (Output.m_Coinbase o); reflexivity.
    + rewrite Hv. reflexivity.
    + rewrite Hv. reflexivity.
    + reflexivity.
  - intros Hn.
    destruct (Output.m_pConfidential o) as [c|], (Output.m_pPublic o) as [p|];
      try (exfalso; apply Hn; exact I).
    + left. exists c. repeat split. destruct (Output.m_Coinbase o); congruence.
    + right. exists p. repeat split.
      destruct (Rules.AllowPublicUtxos r || Output.m_Coinbase o); congruence.
  - intros comm c [= -> ->] -> -> ->. reflexivity.
  - intros comm p [= -> ->] -> -> Hp. cbn [negb]. rewrite Hp. reflexivity.
Qed.

(** ** Child keys *)

(** C9: [MasterKey::get_Child(pKdf, kidv)] returns [pKdf] itself, and creates
    nothing, when the subkey of [kidv] is 0 or its scheme is BB21; for every
    other [kidv], and [pKdf] pointing to a key derivation object, it returns a
    pointer to a new object, the child of that object for the subkey. *)
Theorem C9_get_Child `{ECC} `{Key.Packing}
    (store : MasterKey.Store) (pKdf : MasterKey.Ptr) (kidv : Key.IDV) :
  (Key.get_Subkey kidv = 0 \/ Key.get_Scheme kidv = Key.Scheme_BB21 ->
   MasterKey.get_Child store pKdf kidv = Some (pKdf, store)) /\
  (Key.get_Subkey kidv <> 0 -> Key.get_Scheme kidv <> Key.Scheme_BB21 ->
   forall (p : nat) (kdf : IKdf), pKdf = Some p -> store !! p = Some kdf ->
   exists pRes : nat,
     MasterKey.get_Child store pKdf kidv =
       Some (Some pRes, <[pRes := HKdf_CreateChild kdf (Key.get_Subkey kidv)]> store) /\
     store !! pRes = None /\ pRes <> p).
Proof.
  unfold MasterKey.get_Child. split.
  - intros [E|E].
    + rewrite E. reflexivity.
    + destruct (Key.get_Subkey kidv =? 0); [reflexivity|].
      rewrite E, Z.eqb_refl. reflexivity.
  - intros N0 NB p kdf -> Hp.
    destruct (Z.eqb_spec (Key.get_Subkey kidv) 0); [contradiction|].
    destruct (Z.eqb_spec Key.Scheme_BB21 (Key.get_Scheme kidv)); [congruence|].
    simpl. rewrite Hp. simpl. unfold MasterKey.get_Child_kdf.
    exists (fresh (dom store)).
    assert (Hf : store !! fresh (dom store) = None).
    { unfold MasterKey.Store in *. apply not_elem_of_dom, is_fresh. }
    repeat split; auto. intros E. rewrite E in Hf. congruence.
Qed.

(** ** Statistics and fees of shielded kernels *)

Lemma Calculate_raw (fs : FeeSettings.t) (s : TxStats.t) :
  FeeSettings.Calculate fs s =
  (FeeSettings.m_Output fs * TxStats.m_Outputs s +
   FeeSettings.m_Kernel fs * TxStats.m_Kernels s +
   FeeSettings.m_ShieldedInput fs * TxStats.m_InputsShielded s +
   FeeSettings.m_ShieldedOutput fs * TxStats.m_OutputsShielded s) mod 2 ^ 64.
Proof.
  unfold FeeSettings.Calculate, wrap64, wrap.
  set (A := FeeSettings.m_Output fs * TxStats.m_Outputs s).
  set (B := FeeSettings.m_Kernel fs * TxStats.m_Kernels s).
  set (C := FeeSettings.m_ShieldedInput fs * TxStats.m_InputsShielded s).
  set (D := FeeSettings.m_ShieldedOutput fs * TxStats.m_OutputsShielded s).
  rewrite <- (Z.add_mod A B), <- (Z.add_mod (A + B) C), <- (Z.add_mod (A + B + C) D) by lia.
  reflexivity.
Qed.

Lemma incr_fit `{StatsLayout} (c : Z) :
  0 <= c -> c + 1 < 2 ^ CounterBits -> TxStats.incr c = c + 1.
Proof. intros. unfold TxStats.incr, wrap. apply Z.mod_small. lia. Qed.

Section stats.
Context `{RejectionSampling} `{StatsLayout}.

(** What [TxKernel::AddStats] adds for the kernel itself. *)
Definition count_kernel (k : TxKernel.t) (s : TxStats.t) : TxStats.t :=
  {| TxStats.m_Fee := wrap128 (TxStats.m_Fee s + TxKernel.m_Fee (TxKernel.base k));
     TxStats.m_Coinbase := TxStats.m_Coinbase s;
     TxStats.m_Kernels := TxStats.incr (TxStats.m_Kernels s);
     TxStats.m_Inputs := TxStats.m_Inputs s;
     TxStats.m_Outputs := TxStats.m_Outputs s;
     TxStats.m_InputsShielded := TxStats.m_InputsShielded s;
     TxStats.m_OutputsShielded := TxStats.m_OutputsShielded s |}.

Definition count_shielded_output (s : TxStats.t) : TxStats.t :=
  {| TxStats.m_Fee := TxStats.m_Fee s;
     TxStats.m_Coinbase := TxStats.m_Coinbase s;
     TxStats.m_Kernels := TxStats.m_Kernels s;
     TxStats.m_Inputs := TxStats.m_Inputs s;
     TxStats.m_Outputs := TxStats.incr (TxStats.m_Outputs s);
     TxStats.m_InputsShielded := TxStats.m_InputsShielded s;
     TxStats.m_OutputsShielded := TxStats.incr (TxStats.m_OutputsShielded s) |}.

Definition count_shielded_input (s : TxStats.t) : TxStats.t :=
  {| TxStats.m_Fee := TxStats.m_Fee s;
     TxStats.m_Coinbase := TxStats.m_Coinbase s;
     TxStats.m_Kernels := TxStats.m_Kernels s;
     TxStats.m_Inputs := TxStats.incr (TxStats.m_Inputs s);
     TxStats.m_Outputs := TxStats.m_Outputs s;
     TxStats.m_InputsShielded := TxStats.incr (TxStats.m_InputsShielded s);
     TxStats.m_OutputsShielded := TxStats.m_OutputsShielded s |}.

(** No counter of [s] is at its maximum. *)
Definition counters_fit (s : TxStats.t) : Prop :=
  0 <= TxStats.m_Kernels s /\ TxStats.m_Kernels s + 1 < 2 ^ CounterBits /\
  0 <= TxStats.m_Inputs s /\ TxStats.m_Inputs s + 1 < 2 ^ CounterBits /\
  0 <= TxStats.m_Outputs s /\ TxStats.m_Outputs s + 1 < 2 ^ CounterBits /\
  0 <= TxStats.m_InputsShielded s /\ TxStats.m_InputsShielded s + 1 < 2 ^ CounterBits /\
  0 <= TxStats.m_OutputsShielded s /\ TxStats.m_OutputsShielded s + 1 < 2 ^ CounterBits.

(** [AddStats] of any kernel: the kernel itself, then the nested kernels, then
    what its subclass adds. *)
Lemma AddStats_unfold (k : TxKernel.t) (s : TxStats.t) :
  TxKernel.AddStats k s =
  let s' := fold_left (fun s v => TxKernel.AddStats v s) (TxKernel.m_vNested k)
                      (count_kernel k s) in
  match TxKernel.body k with
  | TxKernel.BodyShieldedOutput _ _ => count_shielded_output s'
  | TxKernel.BodyShieldedInput _ _ _ => count_shielded_input s'
  | _ => s'
  end.
Proof. destruct k as [b n [| | |]]; reflexivity. Qed.

End stats.

(** ** Kernel ordering *)

Section kernel_order.
Context `{ECC} (r : Rules.t).

Lemma TxKernel_cmp_unfold (k v : TxKernel.t) :
  TxKernel.cmp r k v =
  TxKernel.cmp_Fork2 r k v ;;;
  CMP_SIMPLE (Subtype.code (TxKernel.get_Subtype k)) (Subtype.code (TxKernel.get_Subtype v)) ;;;
  match TxKernel.body k with
  | TxKernel.BodyStd _ _ _ _ => TxKernel.TxKernelStd_cmp_Subtype (TxKernel.cmp r) k v
  | _ => TxKernel.cmp_Subtype_default k v
  end.
Proof. destruct k; reflexivity. Qed.

(** C2, as amended: between two kernels whose height minima are both at or
    above [pForks[2].m_Height], [TxKernel::cmp] returns the comparison of the
    internal IDs when the IDs differ; when they are equal it does not stop at
    0 but goes on to compare the subtypes and then the fields of the subtype.
    When exactly one of the two is at or above the fork height, the kernel
    below it compares strictly less than the other. *)
Theorem C2_TxKernel_cmp (k v : TxKernel.t) :
  let F2 := Rules.Fork_Height r 2 in
  let ID x := TxKernel.m_Internal_ID (TxKernel.base x) in
  (TxKernel.Min k >= F2 -> TxKernel.Min v >= F2 ->
   (ID k <> ID v ->
    TxKernel.cmp r k v = uintBig_cmp (ID k) (ID v) /\ TxKernel.cmp r k v <> 0) /\
   (ID k = ID v ->
    TxKernel.cmp r k v =
      CMP_SIMPLE (Subtype.code (TxKernel.get_Subtype k))
                 (Subtype.code (TxKernel.get_Subtype v)) ;;;
      match TxKernel.body k with
      | TxKernel.BodyStd _ _ _ _ => TxKernel.TxKernelStd_cmp_Subtype (TxKernel.cmp r) k v
      | _ => 0
      end)) /\
  (TxKernel.Min k < F2 -> TxKernel.Min v >= F2 ->
   TxKernel.cmp r k v = -1 /\ TxKernel.cmp r v k = 1).
Proof.
  cbv zeta. split.
  - intros Hk Hv.
    set (a := TxKernel.m_Internal_ID (TxKernel.base k)).
    set (b := TxKernel.m_Internal_ID (TxKernel.base v)).
    assert (Hc : TxKernel.cmp r k v =
                 CMP_SIMPLE a b ;;;
                 CMP_SIMPLE (Subtype.code (TxKernel.get_Subtype k))
                            (Subtype.code (TxKernel.get_Subtype v)) ;;;
                 match TxKernel.body k with
                 | TxKernel.BodyStd _ _ _ _ =>
                     TxKernel.TxKernelStd_cmp_Subtype (TxKernel.cmp r) k v
                 | _ => 0
                 end).
    { rewrite TxKernel_cmp_unfold. unfold TxKernel.cmp_Fork2.
      destruct (Z.geb_spec (TxKernel.Min k) (Rules.Fork_Height r 2)); [|lia].
      destruct (Z.geb_spec (TxKernel.Min v) (Rules.Fork_Height r 2)); [|lia].
      reflexivity. }
    pose proof (CMP_SIMPLE_eq a b) as E.
    split; intros Hab.
    + assert (E0 : CMP_SIMPLE a b <> 0) by tauto.
      assert (E1 : TxKernel.cmp r k v = CMP_SIMPLE a b).
      { rewrite Hc. unfold cmp_seq at 1.
        destruct (Z.eqb_spec (CMP_SIMPLE a b) 0); [contradiction|reflexivity]. }
      unfold uintBig_cmp. split; congruence.
    + rewrite Hc. unfold cmp_seq at 1. rewrite (proj2 E Hab). reflexivity.
  - intros Hk Hv. rewrite !TxKernel_cmp_unfold. unfold TxKernel.cmp_Fork2.
    destruct (Z.geb_spec (TxKernel.Min k) (Rules.Fork_Height r 2)); [lia|].
    destruct (Z.geb_spec (TxKernel.Min v) (Rules.Fork_Height r 2)); [|lia].
    split; reflexivity.
Qed.

End kernel_order.

(** ** Nested kernels *)

Section nested.
Context `{RejectionSampling} (r : Rules.t).

Lemma IsValidBase_nested_range (IsValid : TxKernel.t -> Native -> option TxKernel.t -> bool * Native)
    (hScheme : Z) (self parent : TxKernel.t) (exc : Native) (pComm : option Native) :
  fst (fst (TxKernel.IsValidBase r IsValid hScheme self exc (Some parent) pComm)) = true ->
  TxKernel.m_CanEmbed (TxKernel.base self) = true /\
  TxKernel.Min self <= TxKernel.Min parent /\ TxKernel.Max parent <= TxKernel.Max self.
Proof.
  unfold TxKernel.IsValidBase.
  destruct (hScheme <? Rules.Fork_Height r 1); simpl andb.
  - destruct (TxKernel.m_CanEmbed (TxKernel.base self)); simpl; [discriminate|].
    discriminate.
  - destruct (TxKernel.m_CanEmbed (TxKernel.base self)); simpl; [|discriminate].
    destruct (Z.gtb_spec (TxKernel.Min self) (TxKernel.Min parent)); simpl; [discriminate|].
    destruct (Z.ltb_spec (TxKernel.Max self) (TxKernel.Max parent)); simpl; [discriminate|].
    intros _. repeat split; lia.
Qed.

(** C1, as amended: for every kernel validated as a nested child,
    [TxKernel::IsValidBase] returns false whenever the parent's height range
    is not contained in the child's; validation, also through [IsValid] of
    each kernel subtype, succeeds only if [child.min <= parent.min] and
    [parent.max <= child.max]. *)
Theorem C1_IsValidBase_nested (IsValid : TxKernel.t -> Native -> option TxKernel.t -> bool * Native)
    (hScheme : Z) (self parent : TxKernel.t) (exc : Native) (pComm : option Native) :
  (TxKernel.Min self > TxKernel.Min parent \/ TxKernel.Max self < TxKernel.Max parent ->
   fst (fst (TxKernel.IsValidBase r IsValid hScheme self exc (Some parent) pComm)) = false) /\
  (fst (fst (TxKernel.IsValidBase r IsValid hScheme self exc (Some parent) pComm)) = true ->
   TxKernel.Min self <= TxKernel.Min parent /\ TxKernel.Max parent <= TxKernel.Max self) /\
  (fst (TxKernel.IsValid r hScheme self exc (Some parent)) = true ->
   TxKernel.Min self <= TxKernel.Min parent /\ TxKernel.Max parent <= TxKernel.Max self).
Proof.
  split; [|split].
  - intros Hout.
    destruct (fst (fst (TxKernel.IsValidBase r IsValid hScheme self exc (Some parent) pComm)))
      eqn:E; [|reflexivity].
    apply IsValidBase_nested_range in E. lia.
  - intros E. apply IsValidBase_nested_range in E. tauto.
  - destruct self as [b n bd]. simpl TxKernel.IsValid.
    destruct bd as [c s hl rl|m c s a v|m txo|m w sp]; simpl TxKernel.body; cbv iota beta.
    + unfold TxKernel.TxKernelStd_IsValid.
      destruct ((hScheme <? Rules.Fork_Height r 1) && bool_decide (is_Some rl));
        [discriminate|].
      destruct (Native_ImportNnz c) as [ok pt]. destruct ok; simpl negb; cbv iota;
        [|discriminate].
      destruct (TxKernel.IsValidBase r (TxKernel.IsValid r hScheme) hScheme
                  (TxKernel.Krn b n (TxKernel.BodyStd c s hl rl)) (Native_add exc pt)
                  (Some parent) (Some pt)) as [[ok e] pc] eqn:E.
      destruct ok; simpl negb; cbv iota; [|discriminate].
      intros _. pose proof (f_equal (fun x => fst (fst x)) E) as E'. simpl in E'.
      apply IsValidBase_nested_range in E'. tauto.
    + unfold TxKernel.TxKernelAssetEmit_IsValid.
      destruct (TxKernel.IsValidBase r (TxKernel.IsValid r hScheme) hScheme
                  (TxKernel.Krn b n (TxKernel.BodyAssetEmit m c s a v)) exc
                  (Some parent) None) as [[ok e] pc] eqn:E.
      destruct ok; simpl negb; cbv iota; [|discriminate].
      intros _. pose proof (f_equal (fun x => fst (fst x)) E) as E'. simpl in E'.
      apply IsValidBase_nested_range in E'. tauto.
    + unfold TxKernel.TxKernelShieldedOutput_IsValid.
      destruct (TxKernel.IsValidBase r (TxKernel.IsValid r hScheme) hScheme
                  (TxKernel.Krn b n (TxKernel.BodyShieldedOutput m txo)) exc
                  (Some parent) None) as [[ok e] pc] eqn:E.
      destruct ok; simpl negb; cbv iota; [|discriminate].
      intros _. pose proof (f_equal (fun x => fst (fst x)) E) as E'. simpl in E'.
      apply IsValidBase_nested_range in E'. tauto.
    + unfold TxKernel.TxKernelShieldedInput_IsValid.
      destruct (TxKernel.IsValidBase r (TxKernel.IsValid r hScheme) hScheme
                  (TxKernel.Krn b n (TxKernel.BodyShieldedInput m w sp)) exc
                  (Some parent) None) as [[ok e] pc] eqn:E.
      destruct ok; simpl negb; cbv iota; [|discriminate].
      intros _. pose proof (f_equal (fun x => fst (fst x)) E) as E'. simpl in E'.
      apply IsValidBase_nested_range in E'. tauto.
Qed.

End nested.

(** ** [TxKernel::cmp] is a lawful comparison *)

Lemma LawfulOn_ext {A} (Q : A -> Prop) (c c' : A -> A -> Z) :
  (forall a b, Q a -> Q b -> c a b = c' a b) -> LawfulOn Q c' -> LawfulOn Q c.
Proof.
  intros E [H1 H2 H3]. split.
  - intros a b Ha Hb. rewrite E by auto. auto.
  - intros a b Ha Hb. rewrite !E by auto. auto.
  - intros x y z Hx Hy Hz. rewrite !E by auto. eauto.
Qed.

Lemma LawfulOn_zero {A} (Q : A -> Prop) : LawfulOn Q (fun _ _ => 0).
Proof. split; intros; lia. Qed.

Section kernel_lawful.
Context `{ECC} (r : Rules.t).

(** The height of the tree of nested kernels. *)
Fixpoint depth (k : TxKernel.t) : nat :=
  match k with
  | TxKernel.Krn _ n _ => S (fold_right (fun x acc => Nat.max (depth x) acc) 0%nat n)
  end.

Lemma depth_nested (k : TxKernel.t) (n : nat) :
  (depth k <= S n)%nat -> Forall (fun x => (depth x <= n)%nat) (TxKernel.m_vNested k).
Proof.
  destruct k as [b l bd]. simpl. intros Hd. apply le_S_n in Hd.
  induction l as [|x l IH]; simpl in *; constructor.
  - lia.
  - apply IH. lia.
Qed.

Lemma cmp_Fork2_lawful : Lawful (TxKernel.cmp_Fork2 r).
Proof.
  split; intros; unfold TxKernel.cmp_Fork2, uintBig_cmp, CMP_SIMPLE in *;
    repeat match goal with
           | |- context [?a >=? ?b] => destruct (Z.geb_spec a b)
           | H : context [?a >=? ?b] |- _ => destruct (Z.geb_spec a b)
           end; simpl negb in *; cbv iota in *;
    repeat match goal with
           | |- context [?a <? ?b] => destruct (Z.ltb_spec a b)
           | |- context [?a >? ?b] => destruct (Z.gtb_spec a b)
           | H : context [?a <? ?b] |- _ => destruct (Z.ltb_spec a b)
           | H : context [?a >? ?b] |- _ => destruct (Z.gtb_spec a b)
           end; lia.
Qed.

(** The members of a standard kernel, absent on the other subtypes. *)
Definition std_Commitment (k : TxKernel.t) : option Point.t :=
  match TxKernel.body k with TxKernel.BodyStd c _ _ _ => Some c | _ => None end.
Definition std_Signature (k : TxKernel.t) : option Signature :=
  match TxKernel.body k with TxKernel.BodyStd _ s _ _ => Some s | _ => None end.
Definition std_pHashLock (k : TxKernel.t) : option HashLock.t :=
  match TxKernel.body k with TxKernel.BodyStd _ _ hl _ => hl | _ => None end.
Definition std_pRelativeLock (k : TxKernel.t) : option RelativeLock.t :=
  match TxKernel.body k with TxKernel.BodyStd _ _ _ rl => rl | _ => None end.

Definition std_chain (c : TxKernel.t -> TxKernel.t -> Z) (a b : TxKernel.t) : Z :=
  CMP_PTRS Point.cmp (std_Commitment a) (std_Commitment b) ;;;
  CMP_PTRS ext_cmp (std_Signature a) (std_Signature b) ;;;
  CMP_SIMPLE (TxKernel.m_Fee (TxKernel.base a)) (TxKernel.m_Fee (TxKernel.base b)) ;;;
  CMP_SIMPLE (TxKernel.Min a) (TxKernel.Min b) ;;;
  CMP_SIMPLE (TxKernel.Max a) (TxKernel.Max b) ;;;
  cmp_list c (TxKernel.m_vNested a) (TxKernel.m_vNested b) ;;;
  CMP_PTRS HashLock.cmp (std_pHashLock a) (std_pHashLock b) ;;;
  CMP_PTRS RelativeLock.cmp (std_pRelativeLock a) (std_pRelativeLock b) ;;;
  0.

Lemma std_chain_eq (c : TxKernel.t -> TxKernel.t -> Z) (a b : TxKernel.t) :
  TxKernel.get_Subtype a = Subtype.Std -> TxKernel.get_Subtype b = Subtype.Std ->
  TxKernel.TxKernelStd_cmp_Subtype c a b = std_chain c a b.
Proof.
  unfold TxKernel.get_Subtype, TxKernel.TxKernelStd_cmp_Subtype, std_chain,
    std_Commitment, std_Signature, std_pHashLock, std_pRelativeLock.
  destruct (TxKernel.body a); try discriminate.
  destruct (TxKernel.body b); try discriminate. reflexivity.
Qed.

Lemma option_all_True {A} (o : option A) : option_all (fun _ => True) o.
Proof. destruct o; simpl; auto. Qed.

Lemma std_chain_lawful (n : nat) :
  LawfulOn (fun k => (depth k <= n)%nat) (TxKernel.cmp r) ->
  LawfulOn (fun k => (depth k <= S n)%nat) (std_chain (TxKernel.cmp r)).
Proof.
  intros L. unfold std_chain.
  repeat apply LawfulOn_seq.
  - eapply LawfulOn_weaken;
      [|apply (LawfulOn_key std_Commitment), LawfulOn_PTRS, Point.Point_cmp_lawful].
    intros; apply option_all_True.
  - eapply LawfulOn_weaken;
      [|apply (LawfulOn_key std_Signature), LawfulOn_PTRS, ext_cmp_lawful].
    intros; apply option_all_True.
  - apply Lawful_on.
    apply (LawfulOn_key (fun k => TxKernel.m_Fee (TxKernel.base k)) (fun _ => True)),
      Lawful_CMP_SIMPLE.
  - apply Lawful_on.
    apply (LawfulOn_key TxKernel.Min (fun _ => True)), Lawful_CMP_SIMPLE.
  - apply Lawful_on.
    apply (LawfulOn_key TxKernel.Max (fun _ => True)), Lawful_CMP_SIMPLE.
  - eapply LawfulOn_weaken;
      [|apply (LawfulOn_key TxKernel.m_vNested), LawfulOn_list, L].
    intros a Ha. apply depth_nested. exact Ha.
  - eapply LawfulOn_weaken;
      [|apply (LawfulOn_key std_pHashLock), LawfulOn_PTRS, HashLock.HashLock_cmp_lawful].
    intros; apply option_all_True.
  - eapply LawfulOn_weaken;
      [|apply (LawfulOn_key std_pRelativeLock), LawfulOn_PTRS,
               RelativeLock.RelativeLock_cmp_lawful].
    intros; apply option_all_True.
  - apply LawfulOn_zero.
Qed.

Lemma TxKernel_cmp_lawful_depth (n : nat) :
  LawfulOn (fun k => (depth k <= n)%nat) (TxKernel.cmp r).
Proof.
  induction n as [|n IH].
  - assert (D : forall k, ~ (depth k <= 0)%nat) by (intros [b l bd]; simpl; lia).
    split; intros; exfalso; eapply D; eauto.
  - apply (LawfulOn_ext _ _ (fun k v =>
             TxKernel.cmp_Fork2 r k v ;;;
             CMP_SIMPLE (Subtype.code (TxKernel.get_Subtype k))
                        (Subtype.code (TxKernel.get_Subtype v)) ;;;
             match TxKernel.body k with
             | TxKernel.BodyStd _ _ _ _ =>
                 TxKernel.TxKernelStd_cmp_Subtype (TxKernel.cmp r) k v
             | _ => TxKernel.cmp_Subtype_default k v
             end)).
    { intros a b _ _. apply TxKernel_cmp_unfold. }
    apply LawfulOn_seq_dep; [apply Lawful_on, cmp_Fork2_lawful|].
    intros a0 _. apply LawfulOn_seq_dep.
    { apply Lawful_on.
      apply (LawfulOn_key (fun k => Subtype.code (TxKernel.get_Subtype k)) (fun _ => True)),
        Lawful_CMP_SIMPLE. }
    intros a1 _.
    destruct (TxKernel.get_Subtype a1) eqn:S1.
    + apply (LawfulOn_ext _ _ (std_chain (TxKernel.cmp r))).
      * intros a b [[Da _] Sa] [[Db _] Sb].
        apply CMP_SIMPLE_eq, Subtype.code_inj in Sa, Sb.
        assert (Ba : exists c s hl rl, TxKernel.body a = TxKernel.BodyStd c s hl rl).
        { unfold TxKernel.get_Subtype in Sa. destruct (TxKernel.body a); try discriminate.
          eauto. }
        destruct Ba as (c & s & hl & rl & Ba). rewrite Ba.
        apply std_chain_eq; congruence.
      * eapply LawfulOn_weaken; [|apply std_chain_lawful, IH]. simpl. tauto.
    + apply (LawfulOn_ext _ _ (fun _ _ => 0)); [|apply LawfulOn_zero].
      intros a b [[Da _] Sa] _. apply CMP_SIMPLE_eq, Subtype.code_inj in Sa.
      unfold TxKernel.get_Subtype in Sa. destruct (TxKernel.body a); try discriminate.
      reflexivity.
    + apply (LawfulOn_ext _ _ (fun _ _ => 0)); [|apply LawfulOn_zero].
      intros a b [[Da _] Sa] _. apply CMP_SIMPLE_eq, Subtype.code_inj in Sa.
      unfold TxKernel.get_Subtype in Sa. destruct (TxKernel.body a); try discriminate.
      reflexivity.
    + apply (LawfulOn_ext _ _ (fun _ _ => 0)); [|apply LawfulOn_zero].
      intros a b [[Da _] Sa] _. apply CMP_SIMPLE_eq, Subtype.code_inj in Sa.
      unfold TxKernel.get_Subtype in Sa. destruct (TxKernel.body a); try discriminate.
      reflexivity.
Qed.

Theorem TxKernel_cmp_lawful : Lawful (TxKernel.cmp r).
Proof.
  split.
  - intros a b _ _.
    apply (law_sgn _ _ (TxKernel_cmp_lawful_depth (Nat.max (depth a) (depth b)))); lia.
  - intros a b _ _.
    apply (law_opp _ _ (TxKernel_cmp_lawful_depth (Nat.max (depth a) (depth b)))); lia.
  - intros x y z _ _ _.
    apply (law_trans _ _ (TxKernel_cmp_lawful_depth
                            (Nat.max (depth x) (Nat.max (depth y) (depth z))))); lia.
Qed.

End kernel_lawful.

(** ** Normalization *)

Lemma sublist_StronglySorted {A} (R : A -> A -> Prop) (l1 l2 : list A) :
  sublist l1 l2 -> StronglySorted R l2 -> StronglySorted R l1.
Proof.
  induction 1 as [|x l1 l2 Hs IH|x l1 l2 Hs IH]; intros HS.
  - constructor.
  - inversion HS as [|? ? HS' Hx]; subst. constructor; auto.
    rewrite Forall_forall in *. intros y Hy. apply Hx.
    eapply elem_of_sublist; eauto.
  - inversion HS; subst. auto.
Qed.

Lemma sublist_same_length {A} (l1 l2 : list A) :
  sublist l1 l2 -> length l1 = length l2 -> l1 = l2.
Proof.
  induction 1 as [|x l1 l2 Hs IH|x l1 l2 Hs IH]; simpl; intros Hl.
  - reflexivity.
  - f_equal. apply IH. lia.
  - apply sublist_length in Hs. lia.
Qed.

Lemma StronglySorted_weaken {A} (R R' : A -> A -> Prop) (l : list A) :
  (forall a b, R a b -> R' a b) -> StronglySorted R l -> StronglySorted R' l.
Proof.
  intros HR. induction 1 as [|x l HS IH Hx]; constructor; auto.
  eapply Forall_impl; eauto.
Qed.

Lemma omap_id_length {A} (m : list (option A)) :
  (length (omap id m) <= length m)%nat.
Proof. induction m as [|[x|] m IH]; csimpl; lia. Qed.

(** A vector without null pointers is the image of its elements. *)
Lemma omap_id_all_Some {A} (m : list (option A)) :
  length (omap id m) = length m -> m = Some <$> omap id m.
Proof.
  induction m as [|[x|] m IH]; csimpl; intros Hl.
  - reflexivity.
  - f_equal. apply IH. congruence.
  - pose proof (omap_id_length m). lia.
Qed.

Section sweep.
Context `{ECC} `{StdSort}.

(** The order of the sweep: commitments, within the inputs, within the
    outputs, and of an input against an output. *)
Definition leI (a b : Input.t) : Prop :=
  Point.cmp (Input.commitment a) (Input.commitment b) <= 0.
Definition leO (a b : Output.t) : Prop :=
  Point.cmp (Output.commitment a) (Output.commitment b) <= 0.
Definition io (x : Input.t) (o : Output.t) : Z :=
  Point.cmp (Input.commitment x) (Output.commitment o).

Lemma CmpInOut_io (x : Input.t) (o : Output.t) : TxVectors.CmpInOut x o = io x o.
Proof. unfold TxVectors.CmpInOut, io. apply TxElement.cmp_Point. Qed.

Lemma io_gt_mono (x x' : Input.t) (o : Output.t) : io x o > 0 -> leI x x' -> io x' o > 0.
Proof.
  unfold io, leI. intros Hgt Hle.
  destruct (Z_le_gt_dec (Point.cmp (Input.commitment x') (Output.commitment o)) 0) as [Hc|]; auto.
  pose proof (law_trans _ _ Point.Point_cmp_lawful _ _ _ I I I Hle Hc). lia.
Qed.

Lemma io_lt_mono (x : Input.t) (o o' : Output.t) : io x o < 0 -> leO o o' -> io x o' < 0.
Proof.
  unfold io, leO. intros Hlt Hle.
  exact (law_lt_trans' (fun _ => True) Point.cmp _ (Output.commitment o) _
           Point.Point_cmp_lawful I I I Hlt Hle).
Qed.

(** The state of the sweep when the inputs [pin] and the outputs [pout] are
    behind the two indices and [restI], [restO] are still to come. *)
Definition st_of (pin : list (option Input.t)) (restI : list Input.t)
    (pout : list (option Output.t)) (restO : list Output.t) (nDel : nat) : TxVectors.Sweep :=
  {| TxVectors.sw_Inputs := pin ++ (Some <$> restI);
     TxVectors.sw_Outputs := pout ++ (Some <$> restO);
     TxVectors.sw_nDel := nDel;
     TxVectors.sw_i1 := length pout |}.

(** The invariant of the sweep: [nDel] pointers were reset on each side; an
    input kept so far is below every output still to come, an output kept so
    far is below every input still to come, and no kept input shares its
    commitment with a kept output. *)
Record sweep_inv (pin : list (option Input.t)) (restI : list Input.t)
    (pout : list (option Output.t)) (restO : list Output.t) (nDel : nat) : Prop := {
  inv_cnt_in : (length (omap id pin) + nDel = length pin)%nat;
  inv_cnt_out : (length (omap id pout) + nDel = length pout)%nat;
  inv_K1 : forall x o, x ∈ omap id pin -> o ∈ restO -> io x o < 0;
  inv_K2 : forall x o, o ∈ omap id pout -> x ∈ restI -> io x o > 0;
  inv_K3 : forall x o, x ∈ omap id pin -> o ∈ omap id pout -> io x o <> 0
}.

Lemma sweep_inner_unfold (fuel i0 : nat) (st : TxVectors.Sweep) :
  TxVectors.sweep_inner fuel i0 st =
  if bool_decide (TxVectors.sw_i1 st < length (TxVectors.sw_Outputs st))%nat then
    match fuel with
    | O => None
    | S fuel' =>
        pInp ← mjoin (TxVectors.sw_Inputs st !! i0);
        pOut ← mjoin (TxVectors.sw_Outputs st !! TxVectors.sw_i1 st);
        let n := TxVectors.CmpInOut pInp pOut in
        if n <=? 0 then
          if n =? 0 then
            Some {| TxVectors.sw_Inputs := <[i0 := None]> (TxVectors.sw_Inputs st);
                    TxVectors.sw_Outputs :=
                      <[TxVectors.sw_i1 st := None]> (TxVectors.sw_Outputs st);
                    TxVectors.sw_nDel := S (TxVectors.sw_nDel st);
                    TxVectors.sw_i1 := S (TxVectors.sw_i1 st) |}
          else Some st
        else
          TxVectors.sweep_inner fuel' i0
            {| TxVectors.sw_Inputs := TxVectors.sw_Inputs st;
               TxVectors.sw_Outputs := TxVectors.sw_Outputs st;
               TxVectors.sw_nDel := TxVectors.sw_nDel st;
               TxVectors.sw_i1 := S (TxVectors.sw_i1 st) |}
    end
  else Some st.
Proof. destruct fuel; reflexivity. Qed.

Lemma sweep_outer_unfold (fuel i0 : nat) (st : TxVectors.Sweep) :
  TxVectors.sweep_outer fuel i0 st =
  if bool_decide (i0 < length (TxVectors.sw_Inputs st))%nat then
    match fuel with
    | O => None
    | S fuel' =>
        st ← TxVectors.sweep_inner (length (TxVectors.sw_Outputs st)) i0 st;
        TxVectors.sweep_outer fuel' (S i0) st
    end
  else Some st.
Proof. destruct fuel; reflexivity. Qed.

Lemma st_of_keep (pin : list (option Input.t)) (x : Input.t) (restI : list Input.t)
    (pout : list (option Output.t)) (restO : list Output.t) (nDel : nat) :
  st_of pin (x :: restI) pout restO nDel = st_of (pin ++ [Some x]) restI pout restO nDel.
Proof. unfold st_of. rewrite fmap_cons, <- app_assoc. reflexivity. Qed.

Lemma st_of_skip (pin : list (option Input.t)) (restI : list Input.t)
    (pout : list (option Output.t)) (o : Output.t) (restO : list Output.t) (nDel : nat) :
  {| TxVectors.sw_Inputs := TxVectors.sw_Inputs (st_of pin restI pout (o :: restO) nDel);
     TxVectors.sw_Outputs := TxVectors.sw_Outputs (st_of pin restI pout (o :: restO) nDel);
     TxVectors.sw_nDel := TxVectors.sw_nDel (st_of pin restI pout (o :: restO) nDel);
     TxVectors.sw_i1 := S (TxVectors.sw_i1 (st_of pin restI pout (o :: restO) nDel)) |}
  = st_of pin restI (pout ++ [Some o]) restO nDel.
Proof.
  unfold st_of. csimpl. rewrite <- app_assoc, length_app. csimpl.
  f_equal. lia.
Qed.

Lemma st_of_cut (pin : list (option Input.t)) (x : Input.t) (restI : list Input.t)
    (pout : list (option Output.t)) (o : Output.t) (restO : list Output.t) (nDel : nat) :
  {| TxVectors.sw_Inputs :=
       <[length pin := None]> (TxVectors.sw_Inputs (st_of pin (x :: restI) pout (o :: restO) nDel));
     TxVectors.sw_Outputs :=
       <[length pout := None]> (TxVectors.sw_Outputs (st_of pin (x :: restI) pout (o :: restO) nDel));
     TxVectors.sw_nDel := S nDel;
     TxVectors.sw_i1 := S (length pout) |}
  = st_of (pin ++ [None]) restI (pout ++ [None]) restO (S nDel).
Proof.
  unfold st_of. csimpl.
  rewrite (insert_app_r_alt pin _ (length pin)) by lia.
  rewrite (insert_app_r_alt pout _ (length pout)) by lia.
  rewrite !Nat.sub_diag. csimpl. rewrite <- !app_assoc, length_app. csimpl.
  f_equal. lia.
Qed.

Lemma omap_snoc_Some {A} (m : list (option A)) (x : A) :
  omap id (m ++ [Some x]) = omap id m ++ [x].
Proof. rewrite omap_app. reflexivity. Qed.

Lemma omap_snoc_None {A} (m : list (option A)) :
  omap id (m ++ [None]) = omap id m.
Proof. rewrite omap_app. csimpl. apply app_nil_r. Qed.

(** The pairs that the sweep cuts: an input and an output of the same
    commitment. *)
Definition cut_pairs (cut : list (Input.t * Output.t)) : Prop :=
  Forall (fun p : Input.t * Output.t => io p.1 p.2 = 0) cut.

(** The inner loop, for the input [x] at index [length pin]. *)
Lemma sweep_inner_spec (pin : list (option Input.t)) (x : Input.t) (restI : list Input.t) :
  Forall (leI x) restI ->
  forall (restO : list Output.t) (pout : list (option Output.t)) (nDel fuel : nat),
    (length restO <= fuel)%nat ->
    StronglySorted leO restO ->
    sweep_inv pin (x :: restI) pout restO nDel ->
    exists mx pout' restO' nDel',
      TxVectors.sweep_inner fuel (length pin) (st_of pin (x :: restI) pout restO nDel)
        = Some (st_of (pin ++ [mx]) restI pout' restO' nDel') /\
      sweep_inv (pin ++ [mx]) restI pout' restO' nDel' /\
      sublist (omap id (pin ++ [mx]) ++ restI) (omap id pin ++ x :: restI) /\
      sublist (omap id pout' ++ restO') (omap id pout ++ restO) /\
      StronglySorted leO restO' /\
      (forall o, o ∈ restO' -> o ∈ restO) /\
      (length pout' + length restO' = length pout + length restO)%nat /\
      ((forall o, o ∈ restO -> io x o <> 0) -> nDel' = nDel) /\
      exists cut : list (Input.t * Output.t),
        cut_pairs cut /\ nDel' = (nDel + length cut)%nat /\
        omap id pin ++ x :: restI ≡ₚ cut.*1 ++ omap id (pin ++ [mx]) ++ restI /\
        omap id pout ++ restO ≡ₚ cut.*2 ++ omap id pout' ++ restO'.
Proof.
  intros HxI restO.
  induction restO as [|o restO IH]; intros pout nDel fuel Hfuel HsO Hinv;
    destruct Hinv as [Hci Hco K1 K2 K3].
  - exists (Some x), pout, [], nDel.
    rewrite sweep_inner_unfold.
    rewrite bool_decide_eq_false_2
      by (unfold st_of; simpl; rewrite length_app; simpl; lia).
    split; [rewrite st_of_keep; reflexivity|].
    split; [|split; [|split; [|split; [|split; [|split; [|split]]]]]]; auto.
    + split; auto.
      * rewrite omap_snoc_Some, !length_app. simpl. lia.
      * intros ? ? _ Ho. inversion Ho.
      * intros x' o' Ho' Hx'. apply K2; auto. right. auto.
      * intros x' o' Hx' Ho'. rewrite omap_snoc_Some in Hx'.
        apply elem_of_app in Hx'. destruct Hx' as [Hx'|Hx']; [apply K3; auto|].
        apply list_elem_of_singleton in Hx'. subst x'.
        assert (io x o' > 0) by (apply K2; auto; left). lia.
    + rewrite omap_snoc_Some, <- app_assoc. reflexivity.
    + exists []. split; [constructor|]. split; [simpl; lia|]. simpl.
      rewrite omap_snoc_Some, <- app_assoc. split; reflexivity.
  - rewrite sweep_inner_unfold.
    rewrite bool_decide_eq_true_2
      by (unfold st_of; simpl; rewrite length_app; simpl; lia).
    destruct fuel as [|fuel]; [simpl in Hfuel; lia|].
    assert (Li : TxVectors.sw_Inputs (st_of pin (x :: restI) pout (o :: restO) nDel)
                 !! length pin = Some (Some x)).
    { unfold st_of. csimpl. apply list_lookup_middle. reflexivity. }
    assert (Lo : TxVectors.sw_Outputs (st_of pin (x :: restI) pout (o :: restO) nDel)
                 !! TxVectors.sw_i1 (st_of pin (x :: restI) pout (o :: restO) nDel)
                 = Some (Some o)).
    { unfold st_of. csimpl. apply list_lookup_middle. reflexivity. }
    rewrite Li, Lo. simpl mjoin. cbn [mbind option_bind]. cbv zeta.
    rewrite CmpInOut_io.
    inversion HsO as [|? ? HsO' Ho]; subst.
    destruct (Z.leb_spec (io x o) 0) as [Hle|Hgt].
    + destruct (Z.eqb_spec (io x o) 0) as [Heq|Hne].
      * (* the commitments are equal: both pointers are reset *)
        exists None, (pout ++ [None]), restO, (S nDel).
        split.
        { f_equal. apply (st_of_cut pin x restI pout o restO nDel). }
        split; [|split; [|split; [|split; [|split; [|split; [|split]]]]]]; auto.
        -- split.
           ++ rewrite omap_snoc_None, length_app. simpl. lia.
           ++ rewrite omap_snoc_None, length_app. simpl. lia.
           ++ intros x' o' Hx' Ho'. rewrite omap_snoc_None in Hx'.
              apply K1; auto. right. auto.
           ++ intros x' o' Ho' Hx'. rewrite omap_snoc_None in Ho'.
              apply K2; auto. right. auto.
           ++ intros x' o' Hx' Ho'. rewrite omap_snoc_None in Hx'. rewrite omap_snoc_None in Ho'.
              apply K3; auto.
        -- rewrite omap_snoc_None. apply sublist_app; [reflexivity|].
           apply sublist_cons. reflexivity.
        -- rewrite omap_snoc_None. apply sublist_app; [reflexivity|].
           apply sublist_cons. reflexivity.
        -- intros o' Ho'. right. auto.
        -- rewrite length_app. simpl. lia.
        -- intros Hno. exfalso. apply (Hno o); [left|auto].
        -- exists [(x, o)]. split; [repeat constructor; exact Heq|].
           split; [simpl; lia|]. rewrite !omap_snoc_None. simpl.
           split; symmetry; apply Permutation_middle.
      * (* the input is below the output: it is kept, the output waits *)
        exists (Some x), pout, (o :: restO), nDel.
        split; [rewrite st_of_keep; reflexivity|].
        assert (Hlt : io x o < 0) by lia.
        split; [|split; [|split; [|split; [|split; [|split; [|split]]]]]]; auto.
        -- split; auto.
           ++ rewrite omap_snoc_Some, !length_app. simpl. lia.
           ++ intros x' o' Hx' Ho'. rewrite omap_snoc_Some in Hx'.
              apply elem_of_app in Hx'. destruct Hx' as [Hx'|Hx']; [apply K1; auto|].
              apply list_elem_of_singleton in Hx'. subst x'.
              apply elem_of_cons in Ho'. destruct Ho' as [->|Ho']; auto.
              apply (io_lt_mono x o o'); auto.
              rewrite Forall_forall in Ho. apply Ho. auto.
           ++ intros x' o' Ho' Hx'. apply K2; auto. right. auto.
           ++ intros x' o' Hx' Ho'. rewrite omap_snoc_Some in Hx'.
              apply elem_of_app in Hx'. destruct Hx' as [Hx'|Hx']; [apply K3; auto|].
              apply list_elem_of_singleton in Hx'. subst x'.
              assert (io x o' > 0) by (apply K2; auto; left). lia.
        -- rewrite omap_snoc_Some, <- app_assoc. reflexivity.
        -- exists []. split; [constructor|]. split; [simpl; lia|]. simpl.
           rewrite omap_snoc_Some, <- app_assoc. split; reflexivity.
    + (* the output is below the input: it is kept, the loop goes on *)
      rewrite (st_of_skip pin (x :: restI) pout o restO nDel).
      destruct (IH (pout ++ [Some o]) nDel fuel) as
          (mx & pout' & restO' & nDel' & Hrun & Hinv' & Hsi & Hso & HsO'' & Hsub & Hlen & Hno
           & cut & Hcut & Hn & HpI & HpO);
        [simpl in Hfuel; lia|auto| |].
      { split; auto.
        - rewrite omap_snoc_Some, !length_app. simpl. lia.
        - intros x' o' Hx' Ho'. apply K1; auto. right. auto.
        - intros x' o' Ho' Hx'. rewrite omap_snoc_Some in Ho'.
          apply elem_of_app in Ho'. destruct Ho' as [Ho'|Ho']; [apply K2; auto|].
          apply list_elem_of_singleton in Ho'. subst o'.
          apply elem_of_cons in Hx'. destruct Hx' as [->|Hx']; [lia|].
          apply (io_gt_mono x x' o); [lia|].
          rewrite Forall_forall in HxI. apply HxI. auto.
        - intros x' o' Hx' Ho'. rewrite omap_snoc_Some in Ho'.
          apply elem_of_app in Ho'. destruct Ho' as [Ho'|Ho']; [apply K3; auto|].
          apply list_elem_of_singleton in Ho'. subst o'.
          assert (io x' o < 0) by (apply K1; auto; left). lia. }
      exists mx, pout', restO', nDel'.
      split; [exact Hrun|].
      split; [|split; [|split; [|split; [|split; [|split; [|split]]]]]]; auto.
      * rewrite omap_snoc_Some, <- app_assoc in Hso. exact Hso.
      * intros o' Ho'. right. auto.
      * rewrite length_app in Hlen. simpl in *. lia.
      * intros Hno'. apply Hno. intros o' Ho'. apply Hno'. right. auto.
      * exists cut. split; [exact Hcut|]. split; [exact Hn|]. split; [exact HpI|].
        rewrite omap_snoc_Some, <- app_assoc in HpO. exact HpO.
Qed.

(** The outer loop, from the input at index [length pin] on. *)
Lemma sweep_outer_spec (restI : list Input.t) :
  forall (pin : list (option Input.t)) (pout : list (option Output.t))
         (restO : list Output.t) (nDel fuel : nat),
    (length restI <= fuel)%nat ->
    StronglySorted leI restI ->
    StronglySorted leO restO ->
    sweep_inv pin restI pout restO nDel ->
    exists pin' pout' restO' nDel',
      TxVectors.sweep_outer fuel (length pin) (st_of pin restI pout restO nDel)
        = Some (st_of pin' [] pout' restO' nDel') /\
      sweep_inv pin' [] pout' restO' nDel' /\
      sublist (omap id pin') (omap id pin ++ restI) /\
      sublist (omap id pout' ++ restO') (omap id pout ++ restO) /\
      (length pin' = length pin + length restI)%nat /\
      (length pout' + length restO' = length pout + length restO)%nat /\
      ((forall x o, x ∈ restI -> o ∈ restO -> io x o <> 0) -> nDel' = nDel) /\
      exists cut : list (Input.t * Output.t),
        cut_pairs cut /\ nDel' = (nDel + length cut)%nat /\
        omap id pin ++ restI ≡ₚ cut.*1 ++ omap id pin' /\
        omap id pout ++ restO ≡ₚ cut.*2 ++ omap id pout' ++ restO'.
Proof.
  induction restI as [|x restI IH]; intros pin pout restO nDel fuel Hfuel HsI HsO Hinv.
  - exists pin, pout, restO, nDel.
    rewrite sweep_outer_unfold.
    rewrite bool_decide_eq_false_2
      by (unfold st_of; simpl; rewrite length_app; simpl; lia).
    split; [reflexivity|]. split; [exact Hinv|].
    split; [rewrite app_nil_r; reflexivity|]. split; [reflexivity|].
    split; [simpl; lia|]. split; [reflexivity|]. split; [auto|].
    exists []. split; [constructor|]. split; [simpl; lia|]. simpl.
    rewrite app_nil_r. split; reflexivity.
  - rewrite sweep_outer_unfold.
    rewrite bool_decide_eq_true_2
      by (unfold st_of; simpl; rewrite length_app; simpl; lia).
    destruct fuel as [|fuel]; [simpl in Hfuel; lia|].
    inversion HsI as [|? ? HsI' HxI]; subst.
    destruct (sweep_inner_spec pin x restI HxI restO pout nDel
                (length (TxVectors.sw_Outputs (st_of pin (x :: restI) pout restO nDel))))
      as (mx & pout1 & restO1 & nDel1 & Hrun & Hinv1 & Hsi1 & Hso1 & HsO1 & Hsub1 & Hlen1 & Hno1
          & cut1 & Hcut1 & Hn1 & HpI1 & HpO1);
      auto.
    { unfold st_of. simpl. rewrite length_app, length_fmap. lia. }
    rewrite Hrun. cbn [mbind option_bind].
    replace (S (length pin)) with (length (pin ++ [mx]))
      by (rewrite length_app; simpl; lia).
    destruct (IH (pin ++ [mx]) pout1 restO1 nDel1 fuel) as
        (pin' & pout' & restO' & nDel' & Hrun' & Hinv' & Hsi' & Hso' & Hli' & Hlo' & Hno'
         & cut2 & Hcut2 & Hn2 & HpI2 & HpO2);
      auto; [simpl in Hfuel; lia|].
    exists pin', pout', restO', nDel'.
    split; [exact Hrun'|]. split; [exact Hinv'|].
    split; [etrans; eauto|]. split; [etrans; eauto|].
    split; [rewrite length_app in Hli'; simpl in *; lia|].
    split; [lia|]. split.
    { intros Hno. rewrite Hno', Hno1; auto.
      - intros o Ho. apply Hno; [left|auto].
      - intros x' o' Hx' Ho'. apply Hno; [right; auto|auto]. }
    exists (cut1 ++ cut2). split; [apply Forall_app; split; assumption|].
    split; [rewrite length_app; lia|].
    rewrite !fmap_app, <- !app_assoc. split.
    + rewrite HpI1. apply Permutation_app_head. exact HpI2.
    + rewrite HpO1. apply Permutation_app_head. exact HpO2.
Qed.

Lemma omap_id_fmap_Some {A} (l : list A) : omap id (Some <$> l) = l.
Proof. induction l as [|x l IH]; csimpl; congruence. Qed.

Lemma mapM_id_fmap_Some {A} (l : list A) : mapM id (Some <$> l) = Some l.
Proof. apply mapM_fmap_Some. reflexivity. Qed.

Lemma sorted_Input_leI (l : list Input.t) : sorted_by Input.cmp l -> StronglySorted leI l.
Proof.
  apply StronglySorted_weaken. intros a b. unfold leI, Input.cmp.
  rewrite TxElement.cmp_Point. auto.
Qed.

Lemma sorted_Output_leO (l : list Output.t) : sorted_by Output.cmp l -> StronglySorted leO l.
Proof. apply StronglySorted_weaken. intros a b. apply Output.cmp_le_commitment. Qed.

(** What [NormalizeP] leaves of two sorted vectors [I] and [O]. *)
Lemma NormalizeP_sorted_spec (p : TxVectors.Perishable) :
  let I := std_sort TxVectors.Input_lt (TxVectors.m_vInputs p) in
  let O := std_sort TxVectors.Output_lt (TxVectors.m_vOutputs p) in
  exists ins outs nDel,
    TxVectors.NormalizeP p =
      Some ({| TxVectors.m_vInputs := ins; TxVectors.m_vOutputs := outs |}, nDel) /\
    sublist ins I /\ sublist outs O /\
    (length ins + nDel = length I)%nat /\
    (length outs + nDel = length O)%nat /\
    (forall x o, x ∈ ins -> o ∈ outs -> io x o <> 0) /\
    ((forall x o, x ∈ I -> o ∈ O -> io x o <> 0) -> nDel = 0%nat /\ ins = I /\ outs = O) /\
    exists cut : list (Input.t * Output.t),
      cut_pairs cut /\ nDel = length cut /\
      I ≡ₚ cut.*1 ++ ins /\ O ≡ₚ cut.*2 ++ outs.
Proof.
  intros I O.
  assert (HsI : StronglySorted leI I).
  { apply sorted_Input_leI, std_sort_sorted, Input.Input_cmp_lawful. }
  assert (HsO : StronglySorted leO O).
  { apply sorted_Output_leO, std_sort_sorted, Output.Output_cmp_lawful. }
  destruct (sweep_outer_spec I [] [] O 0%nat (length I)) as
      (pin & pout & restO & nDel & Hrun & Hinv & Hsi & Hso & Hli & Hlo & Hno
       & cut & Hcut & Hcnt & HpI & HpO); auto.
  { split; simpl; auto; intros ? ? Hx; inversion Hx. }
  destruct Hinv as [Hci Hco K1 K2 K3].
  exists (omap id pin), (omap id pout ++ restO), nDel.
  simpl in Hsi, Hso, Hli, Hlo.
  split.
  - assert (Hrun0 :
      TxVectors.sweep_outer (length I) 0
        {| TxVectors.sw_Inputs := Some <$> I; TxVectors.sw_Outputs := Some <$> O;
           TxVectors.sw_nDel := 0; TxVectors.sw_i1 := 0 |}
      = Some (st_of pin [] pout restO nDel)) by exact Hrun.
    unfold I, O in Hrun0. unfold TxVectors.NormalizeP.
    rewrite Hrun0. cbn [mbind option_bind]. unfold st_of. simpl.
    rewrite app_nil_r.
    destruct (decide (nDel ≠ 0%nat)) as [Hn|Hn].
    + rewrite bool_decide_eq_true_2 by auto.
      unfold TxVectors.RebuildVectorWithoutNulls.
      rewrite omap_app, omap_id_fmap_Some. reflexivity.
    + rewrite bool_decide_eq_false_2 by auto.
      assert (nDel = 0%nat) by lia. subst nDel.
      rewrite (omap_id_all_Some pin) at 1 by lia.
      rewrite mapM_id_fmap_Some. cbn [mbind option_bind].
      rewrite (omap_id_all_Some pout) at 1 by lia.
      rewrite <- fmap_app, mapM_id_fmap_Some. reflexivity.
  - split; [exact Hsi|]. split; [exact Hso|].
    split; [lia|]. split; [rewrite length_app; lia|].
    split.
    + intros x o Hx Ho. apply elem_of_app in Ho. destruct Ho as [Ho|Ho].
      * apply K3; auto.
      * assert (io x o < 0) by (apply K1; auto). lia.
    + split.
      * intros Hnm. specialize (Hno Hnm).
        split; [exact Hno|]. split.
        -- apply sublist_same_length; auto. lia.
        -- apply sublist_same_length; auto. rewrite length_app. lia.
      * exists cut. split; [exact Hcut|]. split; [exact Hcnt|].
        simpl in HpI, HpO. split; [exact HpI|exact HpO].
Qed.

End sweep.

(** ** Normalization of a transaction *)

Section normalize.
Context `{ECC} `{StdSort} (r : Rules.t).

Lemma io_ne_commitment (x : Input.t) (o : Output.t) :
  io x o <> 0 <-> Input.commitment x <> Output.commitment o.
Proof. unfold io. rewrite Point.cmp_eq. tauto. Qed.

Lemma io_eq_commitment (x : Input.t) (o : Output.t) :
  io x o = 0 -> Input.commitment x = Output.commitment o.
Proof. unfold io. rewrite Point.cmp_eq. tauto. Qed.

(** What [Normalize] returns: a sub-vector of the sorted inputs, a sub-vector
    of the sorted outputs, the sorted kernels and the count. *)
Lemma Normalize_result (tx : TxVectors.Full) :
  exists ins outs nDel,
    TxVectors.Normalize r tx =
      Some ({| TxVectors.P := {| TxVectors.m_vInputs := ins; TxVectors.m_vOutputs := outs |};
               TxVectors.E := TxVectors.NormalizeE r (TxVectors.E tx) |}, nDel) /\
    sublist ins (std_sort TxVectors.Input_lt (TxVectors.m_vInputs (TxVectors.P tx))) /\
    sublist outs (std_sort TxVectors.Output_lt (TxVectors.m_vOutputs (TxVectors.P tx))) /\
    (length ins + nDel = length (TxVectors.m_vInputs (TxVectors.P tx)))%nat /\
    (length outs + nDel = length (TxVectors.m_vOutputs (TxVectors.P tx)))%nat /\
    (forall x o, x ∈ ins -> o ∈ outs -> Input.commitment x <> Output.commitment o) /\
    exists cut : list (Input.t * Output.t),
      Forall (fun p : Input.t * Output.t => Input.commitment p.1 = Output.commitment p.2) cut /\
      nDel = length cut /\
      TxVectors.m_vInputs (TxVectors.P tx) ≡ₚ cut.*1 ++ ins /\
      TxVectors.m_vOutputs (TxVectors.P tx) ≡ₚ cut.*2 ++ outs.
Proof.
  destruct (NormalizeP_sorted_spec (TxVectors.P tx)) as
      (ins & outs & nDel & Hrun & Hsi & Hso & Hli & Hlo & Hne & _ & cut & Hcut & Hn & HpI & HpO).
  cbv zeta in *.
  exists ins, outs, nDel.
  split; [unfold TxVectors.Normalize; rewrite Hrun; reflexivity|].
  rewrite (std_sort_length TxVectors.Input_lt) in Hli.
  rewrite (std_sort_length TxVectors.Output_lt) in Hlo.
  repeat (split; [solve [auto]|]).
  split; [intros x o Hx Ho; apply io_ne_commitment; auto|].
  exists cut. split.
  { eapply Forall_impl; [exact Hcut|]. intros [x o]. simpl. apply io_eq_commitment. }
  split; [exact Hn|]. split.
  - rewrite <- HpI. symmetry. apply std_sort_perm.
  - rewrite <- HpO. symmetry. apply std_sort_perm.
Qed.

Lemma sorted_Inputs_sublist (ins l : list Input.t) :
  sublist ins (std_sort TxVectors.Input_lt l) -> sorted_by Input.cmp ins.
Proof.
  intros Hs.
  apply (sublist_StronglySorted _ _ _ Hs), std_sort_sorted, Input.Input_cmp_lawful.
Qed.

Lemma sorted_Outputs_sublist (outs l : list Output.t) :
  sublist outs (std_sort TxVectors.Output_lt l) -> sorted_by Output.cmp outs.
Proof.
  intros Hs.
  apply (sublist_StronglySorted _ _ _ Hs), std_sort_sorted, Output.Output_cmp_lawful.
Qed.

Lemma sorted_Kernels (l : list TxKernel.t) :
  sorted_by (TxKernel.cmp r) (std_sort (TxVectors.Kernel_lt r) l).
Proof.
  apply std_sort_sorted, TxKernel_cmp_lawful.
Qed.

(** C3: for every transaction, and every [std::sort] that meets its contract,
    [Normalize] returns; it leaves the inputs, the outputs and the kernels
    sorted, the kernels a permutation of those given and the inputs and
    outputs among those given; no input left shares its commitment with an
    output left; the count returned is the number of inputs removed and the
    number of outputs removed; and what is removed are that many pairs of an
    input and an output of the same commitment: the inputs given are the
    inputs of these pairs and the inputs left, the outputs given the outputs
    of these pairs and the outputs left. *)
Theorem C3_Normalize (tx : TxVectors.Full) :
  exists (tx' : TxVectors.Full) (nDel : nat),
    TxVectors.Normalize r tx = Some (tx', nDel) /\
    sorted_by Input.cmp (TxVectors.m_vInputs (TxVectors.P tx')) /\
    sorted_by Output.cmp (TxVectors.m_vOutputs (TxVectors.P tx')) /\
    sorted_by (TxKernel.cmp r) (TxVectors.m_vKernels (TxVectors.E tx')) /\
    (forall i o,
       i ∈ TxVectors.m_vInputs (TxVectors.P tx') ->
       o ∈ TxVectors.m_vOutputs (TxVectors.P tx') ->
       Input.commitment i <> Output.commitment o) /\
    (length (TxVectors.m_vInputs (TxVectors.P tx')) + nDel
     = length (TxVectors.m_vInputs (TxVectors.P tx)))%nat /\
    (length (TxVectors.m_vOutputs (TxVectors.P tx')) + nDel
     = length (TxVectors.m_vOutputs (TxVectors.P tx)))%nat /\
    TxVectors.m_vInputs (TxVectors.P tx') ⊆+ TxVectors.m_vInputs (TxVectors.P tx) /\
    TxVectors.m_vOutputs (TxVectors.P tx') ⊆+ TxVectors.m_vOutputs (TxVectors.P tx) /\
    TxVectors.m_vKernels (TxVectors.E tx') ≡ₚ TxVectors.m_vKernels (TxVectors.E tx) /\
    exists removed : list (Input.t * Output.t),
      length removed = nDel /\
      Forall (fun p : Input.t * Output.t => Input.commitment p.1 = Output.commitment p.2)
             removed /\
      TxVectors.m_vInputs (TxVectors.P tx)
        ≡ₚ removed.*1 ++ TxVectors.m_vInputs (TxVectors.P tx') /\
      TxVectors.m_vOutputs (TxVectors.P tx)
        ≡ₚ removed.*2 ++ TxVectors.m_vOutputs (TxVectors.P tx').
Proof.
  destruct (Normalize_result tx) as
    (ins & outs & nDel & Hrun & Hsi & Hso & Hli & Hlo & Hne & cut & Hcut & Hn & HpI & HpO).
  eexists _, nDel. split; [exact Hrun|]. simpl.
  split; [eapply sorted_Inputs_sublist, Hsi|].
  split; [eapply sorted_Outputs_sublist, Hso|].
  split; [apply sorted_Kernels|].
  split; [exact Hne|]. split; [exact Hli|]. split; [exact Hlo|].
  split; [|split; [|split]].
  - etrans; [apply sublist_submseteq, Hsi|apply Permutation_submseteq, std_sort_perm].
  - etrans; [apply sublist_submseteq, Hso|apply Permutation_submseteq, std_sort_perm].
  - apply std_sort_perm.
  - exists cut. split; [symmetry; exact Hn|]. split; [exact Hcut|].
    split; [exact HpI|exact HpO].
Qed.

End normalize.

(** ** Sorted permutations *)

(** Replacing an element of a sorted range by one that compares equal to it
    leaves the range sorted. *)
Lemma sorted_by_replace {A} (c : A -> A -> Z) (p q : list A) (a b : A) :
  Lawful c -> c a b = 0 -> sorted_by c (p ++ b :: q) -> sorted_by c (p ++ a :: q).
Proof.
  intros L Hab. unfold sorted_by. rewrite !StronglySorted_app.
  pose proof (law_opp _ _ L a b I I) as Hopp.
  intros (Hpq & Hp & Hq). apply StronglySorted_cons in Hq. destruct Hq as [Hbq Hq].
  split; [|split; [exact Hp|]].
  - intros x y Hx Hy. apply elem_of_cons in Hy. destruct Hy as [->|Hy].
    + apply (law_trans _ _ L x b a I I I); [apply Hpq; [exact Hx|left]|lia].
    + apply Hpq; [exact Hx|right; exact Hy].
  - apply StronglySorted_cons. split; [|exact Hq].
    eapply Forall_impl; [exact Hbq|]. intros z Hz. simpl in *.
    apply (law_trans _ _ L a b z I I I); [lia|exact Hz].
Qed.

(** Two sorted ranges with the same elements agree, position by position, up
    to elements that compare equal. *)
Lemma sorted_perm_equiv {A} (c : A -> A -> Z) (n : nat) :
  Lawful c ->
  forall l l' : list A,
    length l = n -> sorted_by c l -> sorted_by c l' -> l ≡ₚ l' ->
    Forall2 (fun a b => c a b = 0) l l'.
Proof.
  intros L. induction n as [|n IH]; intros l l' Hlen Hs Hs' Hp.
  - destruct l; [|discriminate]. apply Permutation_nil_l in Hp. subst l'. constructor.
  - destruct l as [|a l1]; [discriminate|].
    destruct l' as [|b l1']; [apply Permutation_nil_r in Hp; discriminate|].
    injection Hlen as Hlen.
    unfold sorted_by in Hs, Hs'.
    apply StronglySorted_cons in Hs. destruct Hs as [Ha Hs1].
    apply StronglySorted_cons in Hs'. destruct Hs' as [Hb Hs1'].
    rewrite Forall_forall in Ha, Hb.
    assert (Hbl : b ∈ a :: l1) by (rewrite Hp; left).
    assert (Hal : a ∈ b :: l1') by (rewrite <- Hp; left).
    pose proof (law_opp _ _ L a b I I) as Hopp.
    assert (Hab : c a b = 0).
    { assert (c a b <= 0).
      { apply elem_of_cons in Hbl. destruct Hbl as [->|Hbl];
          [rewrite (law_refl _ c a L I); lia|apply Ha, Hbl]. }
      assert (c b a <= 0).
      { apply elem_of_cons in Hal. destruct Hal as [->|Hal];
          [rewrite (law_refl _ c b L I); lia|apply Hb, Hal]. }
      lia. }
    constructor; [exact Hab|].
    apply elem_of_cons in Hbl. destruct Hbl as [->|Hbl].
    + apply (IH l1 l1' Hlen Hs1 Hs1'). apply (Permutation_cons_inv Hp).
    + apply list_elem_of_split in Hbl. destruct Hbl as (p & q & ->).
      assert (Hp' : p ++ a :: q ≡ₚ l1').
      { apply (Permutation_cons_inv (a := b)). rewrite <- Hp.
        rewrite <- !Permutation_middle. apply perm_swap. }
      assert (Hs1a : sorted_by c (p ++ a :: q)) by (apply (sorted_by_replace c p q a b); auto).
      assert (Hstep : Forall2 (fun x y => c x y = 0) (p ++ b :: q) (p ++ a :: q)).
      { apply Forall2_app; [apply Forall_Forall2_diag, Forall_forall; intros;
                            apply (law_refl _ c _ L I)|].
        constructor; [lia|].
        apply Forall_Forall2_diag, Forall_forall; intros; apply (law_refl _ c _ L I). }
      pose proof (IH (p ++ a :: q) l1'
                    ltac:(rewrite <- Hlen, !length_app; reflexivity) Hs1a Hs1' Hp') as Hrest.
      clear -L Hstep Hrest. revert Hrest. generalize l1'. clear l1'.
      induction Hstep as [|x y l m Hxy _ IHl]; intros l' Hrest;
        inversion Hrest as [|y' z m' l'' Hyz Hrest']; subst; constructor.
      * apply (law_eq_trans _ c x y z L I I I Hxy Hyz).
      * apply IHl, Hrest'.
Qed.

(** ** Normalizing a transaction in canonical form *)

Section idempotent.
Context `{ECC} `{StdSort} (r : Rules.t).

(** The canonical form of a transaction: the three vectors sorted and no
    input sharing its commitment with an output. *)
Definition canonical (tx : TxVectors.Full) : Prop :=
  sorted_by Input.cmp (TxVectors.m_vInputs (TxVectors.P tx)) /\
  sorted_by Output.cmp (TxVectors.m_vOutputs (TxVectors.P tx)) /\
  sorted_by (TxKernel.cmp r) (TxVectors.m_vKernels (TxVectors.E tx)) /\
  (forall i o,
     i ∈ TxVectors.m_vInputs (TxVectors.P tx) ->
     o ∈ TxVectors.m_vOutputs (TxVectors.P tx) ->
     Input.commitment i <> Output.commitment o).

(** [tx'] holds the elements of [tx], and at every position of a vector an
    element that compares equal to the one [tx] has there. *)
Definition same_up_to_equals (tx tx' : TxVectors.Full) : Prop :=
  TxVectors.m_vInputs (TxVectors.P tx') ≡ₚ TxVectors.m_vInputs (TxVectors.P tx) /\
  TxVectors.m_vOutputs (TxVectors.P tx') ≡ₚ TxVectors.m_vOutputs (TxVectors.P tx) /\
  TxVectors.m_vKernels (TxVectors.E tx') ≡ₚ TxVectors.m_vKernels (TxVectors.E tx) /\
  Forall2 (fun a b => Input.cmp a b = 0)
    (TxVectors.m_vInputs (TxVectors.P tx)) (TxVectors.m_vInputs (TxVectors.P tx')) /\
  Forall2 (fun a b => Output.cmp a b = 0)
    (TxVectors.m_vOutputs (TxVectors.P tx)) (TxVectors.m_vOutputs (TxVectors.P tx')) /\
  Forall2 (fun a b => TxKernel.cmp r a b = 0)
    (TxVectors.m_vKernels (TxVectors.E tx)) (TxVectors.m_vKernels (TxVectors.E tx')).

(** [std::sort] leaves each of the three vectors of [tx] as it is. *)
Definition sort_keeps (tx : TxVectors.Full) : Prop :=
  std_sort TxVectors.Input_lt (TxVectors.m_vInputs (TxVectors.P tx))
    = TxVectors.m_vInputs (TxVectors.P tx) /\
  std_sort TxVectors.Output_lt (TxVectors.m_vOutputs (TxVectors.P tx))
    = TxVectors.m_vOutputs (TxVectors.P tx) /\
  std_sort (TxVectors.Kernel_lt r) (TxVectors.m_vKernels (TxVectors.E tx))
    = TxVectors.m_vKernels (TxVectors.E tx).

(** On a transaction in canonical form [Normalize] sorts the three vectors
    and removes nothing. *)
Lemma Normalize_canonical (tx : TxVectors.Full) :
  canonical tx ->
  exists tx' : TxVectors.Full,
    TxVectors.Normalize r tx = Some (tx', 0%nat) /\
    canonical tx' /\ same_up_to_equals tx tx' /\ (tx' = tx <-> sort_keeps tx).
Proof.
  intros (HsI & HsO & HsK & Hne).
  destruct tx as [[ins outs] [krn]]. simpl in *.
  destruct (NormalizeP_sorted_spec {| TxVectors.m_vInputs := ins; TxVectors.m_vOutputs := outs |})
    as (ins' & outs' & nDel & Hrun & _ & _ & _ & _ & _ & Hsame & _).
  cbv zeta in Hsame. simpl in Hsame.
  pose proof (std_sort_perm _ TxVectors.Input_lt ins) as PI.
  pose proof (std_sort_perm _ TxVectors.Output_lt outs) as PO.
  pose proof (std_sort_perm _ (TxVectors.Kernel_lt r) krn) as PK.
  destruct Hsame as (-> & -> & ->).
  { intros x o Hx Ho. apply io_ne_commitment. apply Hne.
    - rewrite <- PI. exact Hx.
    - rewrite <- PO. exact Ho. }
  eexists. split.
  { unfold TxVectors.Normalize. simpl. rewrite Hrun. reflexivity. }
  assert (SI : sorted_by Input.cmp (std_sort TxVectors.Input_lt ins))
    by apply std_sort_sorted, Input.Input_cmp_lawful.
  assert (SO : sorted_by Output.cmp (std_sort TxVectors.Output_lt outs))
    by apply std_sort_sorted, Output.Output_cmp_lawful.
  assert (SK : sorted_by (TxKernel.cmp r) (std_sort (TxVectors.Kernel_lt r) krn))
    by apply std_sort_sorted, TxKernel_cmp_lawful.
  split; [|split].
  - split; [exact SI|]. split; [exact SO|]. split; [exact SK|]. simpl.
    intros i o Hi Ho. apply Hne; [rewrite <- PI; exact Hi|rewrite <- PO; exact Ho].
  - unfold same_up_to_equals, TxVectors.NormalizeE. simpl.
    split; [exact PI|]. split; [exact PO|]. split; [exact PK|].
    split; [|split].
    + apply (sorted_perm_equiv Input.cmp (length ins) Input.Input_cmp_lawful); auto.
      symmetry. exact PI.
    + apply (sorted_perm_equiv Output.cmp (length outs) Output.Output_cmp_lawful); auto.
      symmetry. exact PO.
    + apply (sorted_perm_equiv (TxKernel.cmp r) (length krn) (TxKernel_cmp_lawful r)); auto.
      symmetry. exact PK.
  - unfold sort_keeps, TxVectors.NormalizeE. simpl. split.
    + intros E. injection E as E1 E2 E3. auto.
    + intros (E1 & E2 & E3). rewrite E1, E2, E3. reflexivity.
Qed.


End idempotent.

(** Insertion sort leaves a sorted range as it is, so with it a transaction
    in canonical form is returned unchanged. *)
Lemma insertion_sort_keeps_canonical `{ECC} (r : Rules.t) (tx : TxVectors.Full) :
  canonical r tx -> @sort_keeps _ insertion_StdSort r tx.
Proof.
  intros (HsI & HsO & HsK & _). unfold sort_keeps. simpl.
  split; [|split].
  - apply (insertion_sort_fixed (fun _ => True)); auto using Forall_True.
    apply Input.Input_cmp_lawful.
  - apply (insertion_sort_fixed (fun _ => True)); auto using Forall_True.
    apply Output.Output_cmp_lawful.
  - apply (insertion_sort_fixed (fun _ => True)); auto using Forall_True.
    apply TxKernel_cmp_lawful.
Qed.

(** * Properties of the further functions *)

(** ** Height ranges *)

(** For non-empty 64-bit ranges a height is in both exactly when the
    intersection is not empty and holds it. *)
Theorem Intersect_IsInRange (a b : HeightRange.t) (h : Z) :
  HeightRange.wf a -> HeightRange.wf b -> is_u64 h ->
  HeightRange.IsEmpty a = false -> HeightRange.IsEmpty b = false ->
  HeightRange.IsInRange a h && HeightRange.IsInRange b h =
  negb (HeightRange.IsEmpty (HeightRange.Intersect a b)) &&
  HeightRange.IsInRange (HeightRange.Intersect a b) h.
Proof.
  intros Ha Hb Hh Ea Eb.
  assert (Hna : HeightRange.m_Min a <= HeightRange.m_Max a).
  { destruct (HeightRange.IsEmpty a) eqn:E; [discriminate|].
    unfold HeightRange.IsEmpty in E. rewrite Z.gtb_ltb, Z.ltb_ge in E. lia. }
  assert (Hnb : HeightRange.m_Min b <= HeightRange.m_Max b).
  { destruct (HeightRange.IsEmpty b) eqn:E; [discriminate|].
    unfold HeightRange.IsEmpty in E. rewrite Z.gtb_ltb, Z.ltb_ge in E. lia. }
  pose proof (HeightRange.IsInRange_nonempty a h Ha Hh Hna) as Ia.
  pose proof (HeightRange.IsInRange_nonempty b h Hb Hh Hnb) as Ib.
  set (c := HeightRange.Intersect a b).
  assert (Hc : HeightRange.wf c).
  { destruct Ha, Hb. unfold c, HeightRange.Intersect, HeightRange.wf, is_u64 in *. simpl. lia. }
  destruct (HeightRange.IsEmpty c) eqn:Ec; simpl.
  - apply HeightRange.IsEmpty_spec in Ec. unfold c in Ec. simpl in Ec.
    destruct (HeightRange.IsInRange a h); [|reflexivity].
    destruct (HeightRange.IsInRange b h); [|reflexivity].
    exfalso. lia.
  - assert (Hnc : HeightRange.m_Min c <= HeightRange.m_Max c).
    { unfold HeightRange.IsEmpty in Ec. rewrite Z.gtb_ltb, Z.ltb_ge in Ec. lia. }
    pose proof (HeightRange.IsInRange_nonempty c h Hc Hh Hnc) as Ic.
    unfold c in Ic at 2 3. simpl in Ic.
    destruct (HeightRange.IsInRange a h), (HeightRange.IsInRange b h),
      (HeightRange.IsInRange c h); simpl; try reflexivity; exfalso; lia.
Qed.

(** [Reset] leaves the range of all heights: it is not empty, every 64-bit
    height is in it, and intersecting a 64-bit range with it changes
    nothing. *)
Theorem Reset_is_full (hr0 hr : HeightRange.t) (h : Z) :
  HeightRange.wf hr -> is_u64 h ->
  HeightRange.IsEmpty (HeightRange.Reset hr0) = false /\
  HeightRange.IsInRange (HeightRange.Reset hr0) h = true /\
  HeightRange.Intersect hr (HeightRange.Reset hr0) = hr /\
  HeightRange.Intersect (HeightRange.Reset hr0) hr = hr.
Proof.
  intros [H1 H2] Hh. unfold is_u64 in *.
  split; [reflexivity|]. split.
  - apply HeightRange.IsInRange_nonempty;
      unfold HeightRange.Reset, HeightRange.wf, is_u64, MaxHeight; simpl; lia.
  - destruct hr as [lo hi]. unfold HeightRange.Intersect, HeightRange.Reset. simpl in *.
    unfold MaxHeight. split; f_equal; lia.
Qed.

(** ** Saturating height arithmetic *)

Lemma HeightAdd_min (trg val : Z) :
  is_u64 trg -> is_u64 val -> HeightAdd trg val = Z.min (trg + val) MaxHeight.
Proof.
  unfold is_u64, HeightAdd, MaxHeight. intros Ht Hv.
  change (wrap64 (-1)) with (2 ^ 64 - 1).
  destruct (Z_lt_le_dec (trg + val) (2 ^ 64)) as [Hs|Hs].
  - rewrite wrap64_small by lia.
    destruct (Z.ltb_spec (trg + val) val); lia.
  - assert (E : wrap64 (trg + val) = trg + val - 2 ^ 64).
    { unfold wrap64, wrap. symmetry. apply (Z.mod_unique_pos _ _ 1); lia. }
    rewrite E. destruct (Z.ltb_spec (trg + val - 2 ^ 64) val); lia.
Qed.

(** [HeightAdd] adds 64-bit heights with saturation at [MaxHeight]; the sum
    never wraps below either operand. *)
Theorem HeightAdd_saturates (trg val : Z) :
  is_u64 trg -> is_u64 val ->
  HeightAdd trg val = Z.min (trg + val) MaxHeight /\
  trg <= HeightAdd trg val /\ val <= HeightAdd trg val /\ is_u64 (HeightAdd trg val).
Proof.
  intros Ht Hv. rewrite HeightAdd_min by assumption.
  unfold is_u64, MaxHeight in *. lia.
Qed.

(** The maturity height of an output is the height plus the maturity of its
    kind plus its incubation, saturated at [MaxHeight]; it is never below the
    height given. *)
Theorem get_MinMaturity_saturates `{ECC} (r : Rules.t) (o : Output.t) (h : Z) :
  is_u64 h -> is_u64 (Rules.Maturity_Coinbase r) -> is_u64 (Rules.Maturity_Std r) ->
  is_u64 (Output.m_Incubation o) ->
  get_MinMaturity r o h =
    Z.min (h + (if Output.m_Coinbase o then Rules.Maturity_Coinbase r
                else Rules.Maturity_Std r) + Output.m_Incubation o) MaxHeight /\
  h <= get_MinMaturity r o h.
Proof.
  intros Hh Hc Hs Hi. unfold get_MinMaturity.
  set (m := if Output.m_Coinbase o then Rules.Maturity_Coinbase r else Rules.Maturity_Std r).
  assert (Hm : is_u64 m) by (unfold m; destruct (Output.m_Coinbase o); assumption).
  rewrite (HeightAdd_min h m) by assumption.
  rewrite HeightAdd_min; [|unfold is_u64, MaxHeight in *; lia|assumption].
  unfold is_u64, MaxHeight in *. lia.
Qed.

(** ** Forks *)

Lemma forks_monotone (r : Rules.t) :
  Rules.IsForkHeightsConsistent r = true ->
  Rules.Fork_Height r 0 = 0 /\
  forall i j : nat, (i <= j < length (Rules.pForks r))%nat ->
                    Rules.Fork_Height r i <= Rules.Fork_Height r j.
Proof.
  intros Hc.
  assert (Hn : ~ forks_inconsistent r).
  { rewrite <- IsForkHeightsConsistent_false. congruence. }
  unfold forks_inconsistent in Hn. change (Rules.HeightGenesis - 1) with 0 in Hn.
  split; [lia|].
  intros i j [Hij Hj]. induction j as [|j IH]; [replace i with 0%nat by lia; lia|].
  destruct (decide (i = S j)) as [->|Hne]; [lia|].
  assert (Rules.Fork_Height r j <= Rules.Fork_Height r (S j)).
  { destruct (Z_lt_le_dec (Rules.Fork_Height r (S j)) (Rules.Fork_Height r j)); [|lia].
    exfalso. apply Hn. right. exists (S j). split; [lia|].
    replace (S j - 1)%nat with j by lia. lia. }
  specialize (IH ltac:(lia) ltac:(lia)). lia.
Qed.

Lemma FindFork_from_spec (r : Rules.t) (h : Z) (n : nat) :
  (Forks.FindFork_from r h n <= n - 1)%nat /\
  (forall j : nat, (Forks.FindFork_from r h n < j < n)%nat -> h < Rules.Fork_Height r j) /\
  (Rules.Fork_Height r 0 <= h -> Rules.Fork_Height r (Forks.FindFork_from r h n) <= h).
Proof.
  induction n as [|n (IH1 & IH2 & IH3)]; simpl.
  - split; [lia|]. split; [intros; lia|auto].
  - destruct (Z.geb_spec h (Rules.Fork_Height r n)) as [Hge|Hlt].
    + split; [lia|]. split; [intros; lia|lia].
    + split; [lia|]. split; [|auto].
      intros j Hj. destruct (decide (j = n)) as [->|Hne]; [lia|]. apply IH2. lia.
Qed.

(** With consistent fork heights, [FindFork(h)] is the last fork whose height
    is at most [h]: a fork is at or below [h] exactly when its index is at
    most the one returned. *)
Theorem FindFork_last_reached (r : Rules.t) (h : Z) (j : nat) :
  Rules.IsForkHeightsConsistent r = true -> 0 <= h ->
  (j < length (Rules.pForks r))%nat ->
  (Forks.FindFork r h < length (Rules.pForks r))%nat /\
  ((j <= Forks.FindFork r h)%nat <-> Rules.Fork_Height r j <= h).
Proof.
  intros Hc Hh Hj. destruct (forks_monotone r Hc) as [H0 Hmono].
  destruct (FindFork_from_spec r h (length (Rules.pForks r))) as (B & Above & At).
  fold (Forks.FindFork r h) in B, Above, At.
  split; [lia|]. split.
  - intros Hle. specialize (At ltac:(lia)).
    specialize (Hmono j (Forks.FindFork r h) ltac:(lia)). lia.
  - intros Hle. destruct (le_lt_dec j (Forks.FindFork r h)) as [|Hgt]; [assumption|].
    specialize (Above j ltac:(lia)). lia.
Qed.

Lemma FindFork_hash_from_spec (r : Rules.t) (hv : uintBig) (n : nat) :
  match Forks.FindFork_hash_from r hv n with
  | Some i =>
      (i < n)%nat /\ HeightHash.m_Hash (Rules.pForks_at r i) = hv /\
      Rules.Fork_Height r i <> MaxHeight /\
      forall j : nat, (i < j < n)%nat ->
        Rules.Fork_Height r j = MaxHeight \/ HeightHash.m_Hash (Rules.pForks_at r j) <> hv
  | None =>
      forall j : nat, (j < n)%nat ->
        Rules.Fork_Height r j = MaxHeight \/ HeightHash.m_Hash (Rules.pForks_at r j) <> hv
  end.
Proof.
  induction n as [|n IH].
  - simpl. intros; lia.
  - change (Forks.FindFork_hash_from r hv (S n))
      with (if negb (MaxHeight =? Rules.Fork_Height r n) &&
               (HeightHash.m_Hash (Rules.pForks_at r n) =? hv)
            then Some n else Forks.FindFork_hash_from r hv n).
    destruct (Z.eqb_spec MaxHeight (Rules.Fork_Height r n)) as [Em|Em]; simpl negb;
      simpl andb; cbv iota.
    + destruct (Forks.FindFork_hash_from r hv n) as [i|].
      * destruct IH as (I1 & I2 & I3 & I4).
        split; [lia|]. split; [auto|]. split; [auto|].
        intros j Hj. destruct (decide (j = n)) as [->|]; [auto|apply I4; lia].
      * intros j Hj. destruct (decide (j = n)) as [->|]; [auto|apply IH; lia].
    + destruct (Z.eqb_spec (HeightHash.m_Hash (Rules.pForks_at r n)) hv) as [Eh|Eh].
      * split; [lia|]. split; [auto|]. split; [congruence|]. intros; lia.
      * destruct (Forks.FindFork_hash_from r hv n) as [i|].
        -- destruct IH as (I1 & I2 & I3 & I4).
           split; [lia|]. split; [auto|]. split; [auto|].
           intros j Hj. destruct (decide (j = n)) as [->|]; [auto|apply I4; lia].
        -- intros j Hj. destruct (decide (j = n)) as [->|]; [auto|apply IH; lia].
Qed.

(** [FindFork] by hash returns the last fork that is scheduled (its height is
    not [MaxHeight]) and has that hash, and [nullptr] exactly when no
    scheduled fork has it. *)
Theorem FindFork_hash_last_scheduled (r : Rules.t) (hv : uintBig) :
  match Forks.FindFork_hash r hv with
  | Some i =>
      (i < length (Rules.pForks r))%nat /\
      HeightHash.m_Hash (Rules.pForks_at r i) = hv /\
      Rules.Fork_Height r i <> MaxHeight /\
      forall j : nat, (i < j < length (Rules.pForks r))%nat ->
        Rules.Fork_Height r j = MaxHeight \/ HeightHash.m_Hash (Rules.pForks_at r j) <> hv
  | None =>
      forall j : nat, (j < length (Rules.pForks r))%nat ->
        Rules.Fork_Height r j = MaxHeight \/ HeightHash.m_Hash (Rules.pForks_at r j) <> hv
  end.
Proof. apply FindFork_hash_from_spec. Qed.

Lemma get_LastFork_from_spec (r : Rules.t) (n : nat) :
  (Forks.get_LastFork_from r n <= n - 1)%nat /\
  (Forks.get_LastFork_from r n = 0%nat \/
   Rules.Fork_Height r (Forks.get_LastFork_from r n) <> MaxHeight) /\
  (forall j : nat, (Forks.get_LastFork_from r n < j < n)%nat ->
                   Rules.Fork_Height r j = MaxHeight).
Proof.
  induction n as [|n (IH1 & IH2 & IH3)].
  - simpl. split; [lia|]. split; [auto|intros; lia].
  - destruct n as [|n].
    + simpl. split; [lia|]. split; [auto|intros; lia].
    + change (Forks.get_LastFork_from r (S (S n)))
        with (if negb (MaxHeight =? Rules.Fork_Height r (S n)) then S n
              else Forks.get_LastFork_from r (S n)).
      destruct (Z.eqb_spec MaxHeight (Rules.Fork_Height r (S n))) as [Em|Em]; simpl negb;
        cbv iota.
      * split; [lia|]. split; [exact IH2|].
        intros j Hj. destruct (decide (j = S n)) as [->|]; [auto|apply IH3; lia].
      * split; [lia|]. split; [right; congruence|intros; lia].
Qed.

(** [get_LastFork] returns the last fork after fork 0 that is scheduled (its
    height is not [MaxHeight]), and fork 0 when there is none. *)
Theorem get_LastFork_last_scheduled (r : Rules.t) :
  Forks.get_LastFork r = Rules.pForks_at r (Forks.get_LastFork_index r) /\
  (Forks.get_LastFork_index r <= length (Rules.pForks r) - 1)%nat /\
  (Forks.get_LastFork_index r = 0%nat \/
   HeightHash.m_Height (Forks.get_LastFork r) <> MaxHeight) /\
  (forall j : nat, (Forks.get_LastFork_index r < j < length (Rules.pForks r))%nat ->
                   Rules.Fork_Height r j = MaxHeight).
Proof.
  split; [reflexivity|]. apply get_LastFork_from_spec.
Qed.

(** ** Emission *)

Lemma sumZ_app (f : Z -> Z) (lo : Z) (a b : nat) :
  Emission.sumZ f lo (a + b) =
  Emission.sumZ f lo a + Emission.sumZ f (lo + Z.of_nat a) b.
Proof.
  revert lo. induction a as [|a IH]; intros lo.
  - simpl. rewrite Z.add_0_r. reflexivity.
  - change (S a + b)%nat with (S (a + b)). simpl Emission.sumZ. rewrite IH.
    replace (lo + 1 + Z.of_nat a) with (lo + Z.of_nat (S a)) by lia. lia.
Qed.

Lemma sumZ_const (f : Z -> Z) (lo : Z) (n : nat) (c : Z) :
  (forall i, lo <= i < lo + Z.of_nat n -> f i = c) ->
  Emission.sumZ f lo n = c * Z.of_nat n.
Proof.
  revert lo. induction n as [|n IH]; intros lo Hc; simpl Emission.sumZ; [lia|].
  rewrite IH by (intros; apply Hc; lia). rewrite Hc by lia. lia.
Qed.

Lemma sumZ_bound (f : Z -> Z) (lo : Z) (n : nat) (M : Z) :
  (forall i, lo <= i < lo + Z.of_nat n -> 0 <= f i <= M) ->
  0 <= Emission.sumZ f lo n <= M * Z.of_nat n.
Proof.
  revert lo. induction n as [|n IH]; intros lo Hc; simpl Emission.sumZ; [lia|].
  specialize (IH (lo + 1) ltac:(intros; apply Hc; lia)).
  specialize (Hc lo ltac:(lia)). nia.
Qed.

Section emission.
Variables (r : Rules.t) (base : Z).
Hypothesis Hbase : is_u64 base.
Hypothesis HD0 : 0 <= Rules.Emission_Drop0 r.
Hypothesis HD1 : 0 < Rules.Emission_Drop1 r.
Hypothesis Hfit :
  Rules.HeightGenesis + Rules.Emission_Drop0 r + 63 * Rules.Emission_Drop1 r < 2 ^ 64.

(** The number of the step of the schedule that holds height [h]: 0 before
    the first drop, then one more with every [Emission.Drop1] heights. *)
Definition phase (h : Z) : Z :=
  if h - 1 <? Rules.Emission_Drop0 r then 0
  else 1 + (h - 1 - Rules.Emission_Drop0 r) / Rules.Emission_Drop1 r.

(** The emission per block on step [p] and the height at which the step
    ends. *)
Definition phase_val (p : Z) : Z :=
  if p =? 0 then base
  else if p >=? 64 then 0
  else Z.shiftr (if p >=? 2 then wrap64 (base + Z.shiftr base 2) else base) p.

Definition phase_end (p : Z) : Z :=
  1 + Rules.Emission_Drop0 r + p * Rules.Emission_Drop1 r.

Lemma phase_range (h : Z) :
  1 <= h -> 0 <= phase h /\ h < phase_end (phase h).
Proof.
  intros Hh. unfold phase, phase_end.
  destruct (Z.ltb_spec (h - 1) (Rules.Emission_Drop0 r)); [lia|].
  pose proof (Z.div_pos (h - 1 - Rules.Emission_Drop0 r) (Rules.Emission_Drop1 r)
                ltac:(lia) HD1).
  pose proof (Z.mul_succ_div_gt (h - 1 - Rules.Emission_Drop0 r) (Rules.Emission_Drop1 r) HD1).
  split; [lia|]. nia.
Qed.

Lemma phase_mono (h h' : Z) : 1 <= h <= h' -> phase h <= phase h'.
Proof.
  intros Hh. unfold phase.
  destruct (Z.ltb_spec (h - 1) (Rules.Emission_Drop0 r));
    destruct (Z.ltb_spec (h' - 1) (Rules.Emission_Drop0 r)); try lia.
  - pose proof (Z.div_pos (h' - 1 - Rules.Emission_Drop0 r) (Rules.Emission_Drop1 r)
                  ltac:(lia) HD1). lia.
  - pose proof (Z.div_le_mono (h - 1 - Rules.Emission_Drop0 r)
                  (h' - 1 - Rules.Emission_Drop0 r) (Rules.Emission_Drop1 r) HD1 ltac:(lia)).
    lia.
Qed.

Lemma phase_below_end (h p : Z) : 1 <= h -> 0 <= p -> h < phase_end p -> phase h <= p.
Proof.
  intros Hh Hp Hlt. unfold phase, phase_end in *.
  destruct (Z.ltb_spec (h - 1) (Rules.Emission_Drop0 r)); [lia|].
  assert ((h - 1 - Rules.Emission_Drop0 r) / Rules.Emission_Drop1 r < p); [|lia].
  apply Z.div_lt_upper_bound; [lia|nia].
Qed.

Lemma phase_same (h h' : Z) :
  1 <= h <= h' -> h' < phase_end (phase h) -> phase h' = phase h.
Proof.
  intros Hh Hlt. pose proof (phase_mono h h' Hh).
  pose proof (phase_range h ltac:(lia)) as [Hp _].
  pose proof (phase_below_end h' (phase h) ltac:(lia) Hp Hlt). lia.
Qed.

Lemma phase_at_end (p : Z) : 0 <= p -> phase (phase_end p) = p + 1.
Proof.
  intros Hp. unfold phase, phase_end.
  destruct (Z.ltb_spec (1 + Rules.Emission_Drop0 r + p * Rules.Emission_Drop1 r - 1)
                       (Rules.Emission_Drop0 r)); [nia|].
  replace (1 + Rules.Emission_Drop0 r + p * Rules.Emission_Drop1 r - 1 -
           Rules.Emission_Drop0 r) with (p * Rules.Emission_Drop1 r) by lia.
  rewrite Z.div_mul by lia. lia.
Qed.

Lemma shiftr_u64 (a n : Z) : 0 <= n -> 0 <= a < 2 ^ 64 -> 0 <= Z.shiftr a n <= a.
Proof.
  intros Hn Ha. rewrite shiftr_div by lia.
  assert (0 < 2 ^ n) by (apply Z.pow_pos_nonneg; lia).
  split; [apply Z.div_pos; lia|].
  apply Z.div_le_upper_bound; [lia|]. nia.
Qed.

Lemma phase_val_range (p : Z) : 0 <= p -> 0 <= phase_val p < 2 ^ 64.
Proof.
  intros Hp. unfold phase_val, is_u64 in *.
  destruct (Z.eqb_spec p 0); [lia|].
  destruct (Z.geb_spec p 64); [lia|].
  destruct (Z.geb_spec p 2).
  - pose proof (wrap64_range (base + Z.shiftr base 2)).
    pose proof (shiftr_u64 (wrap64 (base + Z.shiftr base 2)) p Hp ltac:(lia)). lia.
  - pose proof (shiftr_u64 base p Hp Hbase). lia.
Qed.

(** The "+1/4" of the second step, taken in 64 bits, stays below the base. *)
Lemma kink_le : Z.shiftr (wrap64 (base + Z.shiftr base 2)) 2 <= Z.shiftr base 1.
Proof.
  unfold is_u64 in Hbase. rewrite !shiftr_div by lia.
  change (2 ^ 2) with 4. change (2 ^ 1) with 2.
  destruct (Z_lt_le_dec (base + base / 4) (2 ^ 64)) as [Hs|Hs].
  - rewrite wrap64_small by (split; [Z.div_mod_to_equations; lia|lia]).
    Z.div_mod_to_equations. lia.
  - assert (E : wrap64 (base + base / 4) = base + base / 4 - 2 ^ 64).
    { unfold wrap64, wrap. symmetry. apply (Z.mod_unique_pos _ _ 1); [|lia].
      Z.div_mod_to_equations. lia. }
    rewrite E. Z.div_mod_to_equations. lia.
Qed.

Lemma shiftr_succ_le (a p : Z) : 0 <= a -> 0 <= p -> Z.shiftr a (p + 1) <= Z.shiftr a p.
Proof.
  intros Ha Hp. rewrite !shiftr_div by lia.
  rewrite Z.pow_add_r by lia. change (2 ^ 1) with 2.
  assert (0 < 2 ^ p) by (apply Z.pow_pos_nonneg; lia).
  rewrite <- Z.div_div by lia.
  apply Z.div_le_upper_bound; [lia|].
  pose proof (Z.div_pos a (2 ^ p) Ha ltac:(lia)). lia.
Qed.

Lemma phase_val_succ (p : Z) : 0 <= p -> phase_val (p + 1) <= phase_val p.
Proof.
  intros Hp. pose proof (phase_val_range p Hp) as Hr.
  unfold phase_val in *. unfold is_u64 in Hbase.
  destruct (Z.eqb_spec (p + 1) 0); [lia|].
  destruct (Z.geb_spec (p + 1) 64); [destruct (Z.eqb_spec p 0); lia|].
  destruct (Z.eqb_spec p 0) as [->|Hp0].
  - change (0 + 1) with 1. change (1 >=? 2) with false. cbv iota.
    pose proof (shiftr_u64 base 1 ltac:(lia) Hbase). lia.
  - destruct (Z.geb_spec p 64); [lia|].
    destruct (Z.geb_spec p 2).
    + destruct (Z.geb_spec (p + 1) 2); [|lia].
      apply shiftr_succ_le; [|lia].
      pose proof (wrap64_range (base + Z.shiftr base 2)). lia.
    + assert (p = 1) by lia. subst p. change (1 + 1) with 2.
      change (2 >=? 2) with true. cbv iota. apply kink_le.
Qed.

Lemma phase_val_mono (p p' : Z) : 0 <= p <= p' -> phase_val p' <= phase_val p.
Proof.
  intros [Hp Hle]. replace p' with (p + Z.of_nat (Z.to_nat (p' - p))) by lia.
  induction (Z.to_nat (p' - p)) as [|k IH]; [replace (p + Z.of_nat 0) with p by lia; lia|].
  replace (p + Z.of_nat (S k)) with (p + Z.of_nat k + 1) by lia.
  pose proof (phase_val_succ (p + Z.of_nat k) ltac:(lia)). lia.
Qed.

Lemma get_EmissionEx_phase (h : Z) :
  1 <= h < 2 ^ 64 ->
  Rules.get_EmissionEx r h base =
  Some (phase_val (phase h), if phase h >=? 64 then MaxHeight else phase_end (phase h)).
Proof.
  intros Hh. unfold Rules.get_EmissionEx, phase, phase_val, phase_end.
  change Rules.HeightGenesis with 1 in *.
  rewrite (wrap64_small (h - 1)) by lia.
  destruct (Z.ltb_spec (h - 1) (Rules.Emission_Drop0 r)) as [Hlt|Hge].
  - simpl. rewrite wrap64_small by lia. do 2 f_equal. lia.
  - destruct (Z.eqb_spec (Rules.Emission_Drop1 r) 0); [lia|].
    rewrite (wrap64_small (h - 1 - Rules.Emission_Drop0 r)) by lia.
    set (q := (h - 1 - Rules.Emission_Drop0 r) / Rules.Emission_Drop1 r).
    assert (Hq : 0 <= q <= h - 1 - Rules.Emission_Drop0 r).
    { unfold q. split; [apply Z.div_pos; lia|].
      apply Z.div_le_upper_bound; [lia|]. nia. }
    rewrite (wrap64_small (1 + q)) by lia.
    change (Z.shiftl 8 3) with 64.
    destruct (Z.eqb_spec (1 + q) 0); [lia|].
    destruct (Z.geb_spec (1 + q) 64); [reflexivity|].
    assert ((1 + q) * Rules.Emission_Drop1 r <= 63 * Rules.Emission_Drop1 r)
      by (apply Z.mul_le_mono_nonneg_r; lia).
    assert (0 <= (1 + q) * Rules.Emission_Drop1 r) by (apply Z.mul_nonneg_nonneg; lia).
    rewrite (wrap64_small (1 + _ + _)) by lia. reflexivity.
Qed.

Lemma emission_at_phase (h : Z) :
  1 <= h < 2 ^ 64 -> Emission.emission_at r base h = phase_val (phase h).
Proof.
  intros Hh. unfold Emission.emission_at. rewrite get_EmissionEx_phase by assumption.
  reflexivity.
Qed.

Lemma emission_at_range (h : Z) :
  1 <= h < 2 ^ 64 -> 0 <= Emission.emission_at r base h <= 2 ^ 64 - 1.
Proof.
  intros Hh. rewrite emission_at_phase by assumption.
  pose proof (phase_range h ltac:(lia)) as [Hp _].
  pose proof (phase_val_range (phase h) Hp). lia.
Qed.

Lemma emission_at_mono (h h' : Z) :
  1 <= h <= h' -> h' < 2 ^ 64 ->
  Emission.emission_at r base h' <= Emission.emission_at r base h.
Proof.
  intros Hh Hh'. rewrite !emission_at_phase by lia.
  apply phase_val_mono. split; [apply phase_range; lia|apply phase_mono; lia].
Qed.

Section range.
Variable hr : HeightRange.t.
Hypothesis Hlo : 1 <= HeightRange.m_Min hr.
Hypothesis Hhi : HeightRange.m_Max hr < 2 ^ 64.

Lemma sum_prefix_bound (a b : Z) :
  1 <= a -> a <= b -> b <= 2 ^ 64 ->
  0 <= Emission.sumZ (Emission.emission_at r base) a (Z.to_nat (b - a))
    <= (2 ^ 64 - 1) * (b - a).
Proof.
  intros Ha Hab Hb.
  pose proof (sumZ_bound (Emission.emission_at r base) a (Z.to_nat (b - a)) (2 ^ 64 - 1)) as B.
  rewrite Z2Nat.id in B by lia. apply B. intros i Hi. apply emission_at_range. lia.
Qed.

Lemma get_Emission_loop_spec (fuel : nat) :
  forall hPos res : Z,
    HeightRange.m_Min hr <= hPos <= HeightRange.m_Max hr ->
    res = Emission.sumZ (Emission.emission_at r base) (HeightRange.m_Min hr)
            (Z.to_nat (hPos - HeightRange.m_Min hr)) ->
    65 <= Z.of_nat fuel + Z.min (phase hPos) 64 ->
    Emission.get_Emission_loop fuel r hr base hPos res =
    Some (Emission.sumZ (Emission.emission_at r base) (HeightRange.m_Min hr)
            (Z.to_nat (HeightRange.m_Max hr - HeightRange.m_Min hr + 1))).
Proof.
  set (lo := HeightRange.m_Min hr) in *. set (hi := HeightRange.m_Max hr) in *.
  set (em := Emission.emission_at r base).
  induction fuel as [|fuel IH]; intros hPos res Hpos Hres Hfuel; [lia|].
  simpl Emission.get_Emission_loop.
  rewrite get_EmissionEx_phase by lia. simpl. fold hi.
  pose proof (phase_range hPos ltac:(lia)) as [Hp Hend].
  set (p := phase hPos) in *.
  pose proof (phase_val_range p Hp) as Hv.
  assert (Hsplit : forall m, hPos <= m -> m <= hi + 1 ->
            Emission.sumZ em lo (Z.to_nat (m - lo)) =
            res + Emission.sumZ em hPos (Z.to_nat (m - hPos))).
  { intros m H1 H2.
    replace (Z.to_nat (m - lo)) with (Z.to_nat (hPos - lo) + Z.to_nat (m - hPos))%nat by lia.
    rewrite sumZ_app, Z2Nat.id by lia. rewrite Hres.
    replace (lo + (hPos - lo)) with hPos by lia. reflexivity. }
  pose proof (sum_prefix_bound lo hPos ltac:(lia) ltac:(lia) ltac:(lia)) as Bres.
  fold em in Bres. rewrite <- Hres in Bres.
  destruct (Z.eqb_spec (phase_val p) 0) as [Ez|Enz].
  - (* the emission has ended *)
    f_equal. replace (hi - lo + 1) with (hi + 1 - lo) by lia.
    rewrite (Hsplit (hi + 1)) by lia.
    rewrite (sumZ_const em hPos _ 0); [lia|].
    intros i Hi. rewrite Z2Nat.id in Hi by lia.
    assert (Hm : em i <= em hPos) by (apply emission_at_mono; lia).
    assert (Hr : 0 <= em i <= 2 ^ 64 - 1) by (apply emission_at_range; lia).
    assert (E0 : em hPos = phase_val p) by (apply emission_at_phase; lia).
    lia.
  - assert (Hp64 : p < 64).
    { unfold phase_val in Enz. destruct (Z.eqb_spec p 0); [lia|].
      destruct (Z.geb_spec p 64); [lia|lia]. }
    destruct (Z.geb_spec p 64); [lia|].
    assert (Hconst : forall m, hPos <= m -> m <= phase_end p -> m <= hi + 1 ->
              Emission.sumZ em hPos (Z.to_nat (m - hPos)) = phase_val p * (m - hPos)).
    { intros m H1 H2 H3. rewrite (sumZ_const em hPos _ (phase_val p));
        [rewrite Z2Nat.id by lia; reflexivity|].
      intros i Hi. rewrite Z2Nat.id in Hi by lia.
      unfold em. rewrite emission_at_phase by lia.
      rewrite (phase_same hPos i) by (fold p; lia). reflexivity. }
    destruct (Z.gtb_spec (phase_end p) hPos); [|lia]. simpl negb. cbv iota.
    destruct (Z.ltb_spec hi (phase_end p)) as [Hlast|Hmore].
    + f_equal. rewrite (wrap64_small (hi - hPos + 1)) by lia.
      replace (hi - lo + 1) with (hi + 1 - lo) by lia.
      rewrite (Hsplit (hi + 1)) by lia. rewrite (Hconst (hi + 1)) by lia.
      replace (hi + 1 - hPos) with (hi - hPos + 1) by lia.
      pose proof (sum_prefix_bound lo (hi + 1) ltac:(lia) ltac:(lia) ltac:(lia)) as Btot.
      fold em in Btot. rewrite (Hsplit (hi + 1)), (Hconst (hi + 1)) in Btot by lia.
      replace (hi + 1 - hPos) with (hi - hPos + 1) in Btot by lia.
      assert (0 <= phase_val p * (hi - hPos + 1)) by nia.
      unfold wrap128, wrap. rewrite (Z.mod_small (phase_val p * _)) by nia.
      apply Z.mod_small. nia.
    + rewrite (wrap64_small (phase_end p - hPos)) by lia.
      pose proof (sum_prefix_bound lo (phase_end p) ltac:(lia) ltac:(lia) ltac:(lia)) as Btot.
      fold em in Btot. rewrite (Hsplit (phase_end p)), (Hconst (phase_end p)) in Btot by lia.
      assert (0 <= phase_val p * (phase_end p - hPos)) by nia.
      assert (E : wrap128 (res + wrap128 (phase_val p * (phase_end p - hPos)))
                  = res + phase_val p * (phase_end p - hPos)).
      { unfold wrap128, wrap. rewrite (Z.mod_small (phase_val p * _)) by nia.
        apply Z.mod_small. nia. }
      rewrite E. apply IH.
      * lia.
      * rewrite (Hsplit (phase_end p)), (Hconst (phase_end p)) by lia. reflexivity.
      * rewrite phase_at_end by lia. lia.
Qed.

End range.
End emission.

(** The total emission of a range of heights that starts at or after genesis
    is the sum of the per-block emissions of its heights; 65 iterations of
    the loop are enough, and nothing wraps in 128 bits. The rules are sane:
    a positive [Drop1], and the end of the 63rd step is a 64-bit height. *)
Theorem get_Emission_range_sum (r : Rules.t) (base : Z) (hr : HeightRange.t) (fuel : nat) :
  is_u64 base -> 0 <= Rules.Emission_Drop0 r -> 0 < Rules.Emission_Drop1 r ->
  Rules.HeightGenesis + Rules.Emission_Drop0 r + 63 * Rules.Emission_Drop1 r < 2 ^ 64 ->
  Rules.HeightGenesis <= HeightRange.m_Min hr -> HeightRange.m_Max hr < 2 ^ 64 ->
  (65 <= fuel)%nat ->
  Emission.get_Emission_range fuel r hr base =
  Some (Emission.sumZ (Emission.emission_at r base) (HeightRange.m_Min hr)
          (Z.to_nat (HeightRange.m_Max hr - HeightRange.m_Min hr + 1))).
Proof.
  intros Hb H0 H1 Hfit Hlo Hhi Hfuel. change Rules.HeightGenesis with 1 in Hlo.
  unfold Emission.get_Emission_range, HeightRange.IsEmpty.
  destruct (Z.gtb_spec (HeightRange.m_Min hr) (HeightRange.m_Max hr)) as [He|Hne].
  - replace (Z.to_nat _) with 0%nat by lia. reflexivity.
  - apply (get_Emission_loop_spec r base Hb H0 H1 Hfit hr Hlo Hhi).
    + lia.
    + replace (Z.to_nat _) with 0%nat by lia. reflexivity.
    + pose proof (phase_range r H1 (HeightRange.m_Min hr) ltac:(lia)) as [Hp _]. lia.
Qed.

(** The emission per block never grows with the height, and it is zero for
    good once 63 steps of [Drop1] heights have passed after [Drop0]. *)
Theorem emission_decreases_and_ends (r : Rules.t) (base : Z) (h h' : Z) :
  is_u64 base -> 0 <= Rules.Emission_Drop0 r -> 0 < Rules.Emission_Drop1 r ->
  Rules.HeightGenesis + Rules.Emission_Drop0 r + 63 * Rules.Emission_Drop1 r < 2 ^ 64 ->
  Rules.HeightGenesis <= h <= h' -> h' < 2 ^ 64 ->
  Emission.emission_at r base h' <= Emission.emission_at r base h /\
  (Rules.HeightGenesis + Rules.Emission_Drop0 r + 63 * Rules.Emission_Drop1 r <= h ->
   Rules.get_EmissionEx r h base = Some (0, MaxHeight)).
Proof.
  intros Hb H0 H1 Hfit Hh Hh'. change Rules.HeightGenesis with 1 in *. split.
  - apply emission_at_mono; auto.
  - intros Hlate. rewrite (get_EmissionEx_phase r base H0 H1 Hfit) by lia.
    pose proof (phase_at_end r H1 63 ltac:(lia)) as E63.
    pose proof (phase_mono r H1 (phase_end r 63) h) as Hm.
    unfold phase_end in Hm at 1 2. specialize (Hm ltac:(lia)).
    rewrite E63 in Hm.
    destruct (Z.geb_spec (phase r h) 64); [|lia].
    unfold phase_val. destruct (Z.eqb_spec (phase r h) 0); [lia|].
    destruct (Z.geb_spec (phase r h) 64); [reflexivity|lia].
Qed.


(** ** Statistics add up *)

(** Induction over a kernel and its nested kernels. *)
Lemma kernel_ind `{ECC} (Q : TxKernel.t -> Prop) :
  (forall b n bd, Forall Q n -> Q (TxKernel.Krn b n bd)) -> forall k, Q k.
Proof.
  intros Hstep. fix IH 1. intros [b n bd]. apply Hstep.
  induction n as [|x n IHn]; constructor; [apply IH|exact IHn].
Qed.

(** The kernels of a tree, children before their parent. *)
Fixpoint postorder `{ECC} (k : TxKernel.t) : list TxKernel.t :=
  match k with
  | TxKernel.Krn _ n _ => flat_map postorder n ++ [k]
  end.

Section stats_add.
Context `{ECC} `{StatsLayout}.

Definition zero_stats : TxStats.t := TxStats.Reset (TxStats.mk 0 0 0 0 0 0 0).

(** Every member holds a value of its width. *)
Definition stats_in_range (s : TxStats.t) : Prop :=
  0 <= TxStats.m_Fee s < 2 ^ 128 /\ 0 <= TxStats.m_Coinbase s < 2 ^ 128 /\
  0 <= TxStats.m_Kernels s < 2 ^ CounterBits /\
  0 <= TxStats.m_Inputs s < 2 ^ CounterBits /\
  0 <= TxStats.m_Outputs s < 2 ^ CounterBits /\
  0 <= TxStats.m_InputsShielded s < 2 ^ CounterBits /\
  0 <= TxStats.m_OutputsShielded s < 2 ^ CounterBits.

(** [F] adds to the statistics what does not depend on them. *)
Definition additive (F : TxStats.t -> TxStats.t) : Prop :=
  forall s1 s2, TxStats.add s1 (F s2) = F (TxStats.add s1 s2).

Ltac stats_arith :=
  unfold TxStats.add, TxStats.incr, wrap128, wrap; simpl;
  repeat match goal with
         | |- context [(?a mod ?n + ?b) mod ?n] => rewrite (Zplus_mod_idemp_l a b n)
         | |- context [(?a + ?b mod ?n) mod ?n] => rewrite (Zplus_mod_idemp_r b a n)
         end.

Lemma add_comm (a b : TxStats.t) : TxStats.add a b = TxStats.add b a.
Proof. unfold TxStats.add. f_equal; f_equal; lia. Qed.

Lemma add_assoc (a b c : TxStats.t) :
  TxStats.add (TxStats.add a b) c = TxStats.add a (TxStats.add b c).
Proof. stats_arith. f_equal; f_equal; lia. Qed.

Lemma in_range_normal (s : TxStats.t) :
  stats_in_range s -> TxStats.add s zero_stats = s.
Proof.
  intros (H1 & H2 & H3 & H4 & H5 & H6 & H7). destruct s. simpl in *.
  unfold TxStats.add, wrap128, wrap. simpl. rewrite !Z.add_0_r.
  f_equal; apply Z.mod_small; assumption.
Qed.

Lemma additive_compose (F G : TxStats.t -> TxStats.t) :
  additive F -> additive G -> additive (fun s => G (F s)).
Proof. intros HF HG s1 s2. rewrite HG, HF. reflexivity. Qed.

Lemma additive_fold {A} (f : A -> TxStats.t -> TxStats.t) (l : list A) :
  Forall (fun x => additive (f x)) l ->
  additive (fun s => fold_left (fun s x => f x s) l s).
Proof.
  induction 1 as [|x l Hx _ IH]; intros s1 s2; simpl; [reflexivity|].
  rewrite IH, Hx. reflexivity.
Qed.

Lemma Input_AddStats_additive (i : Input.t) : additive (Input.AddStats i).
Proof. intros s1 s2. unfold Input.AddStats. stats_arith. f_equal; f_equal; lia. Qed.

Lemma Output_AddStats_additive (o : Output.t) : additive (Output.AddStats o).
Proof.
  intros s1 s2. unfold Output.AddStats.
  destruct (Output.m_pPublic o), (Output.m_Coinbase o); stats_arith; f_equal; f_equal; lia.
Qed.

Lemma count_kernel_additive (k : TxKernel.t) : additive (count_kernel k).
Proof. intros s1 s2. unfold count_kernel. stats_arith. f_equal; f_equal; lia. Qed.

Lemma count_shielded_output_additive : additive count_shielded_output.
Proof. intros s1 s2. unfold count_shielded_output. stats_arith. f_equal; f_equal; lia. Qed.

Lemma count_shielded_input_additive : additive count_shielded_input.
Proof. intros s1 s2. unfold count_shielded_input. stats_arith. f_equal; f_equal; lia. Qed.

Lemma Kernel_AddStats_additive (k : TxKernel.t) : additive (TxKernel.AddStats k).
Proof.
  induction k as [b n bd IH] using kernel_ind.
  intros s1 s2. rewrite !AddStats_unfold. cbv zeta.
  pose proof (additive_fold (fun v s => TxKernel.AddStats v s) n IH) as Hn.
  cbv beta in Hn. simpl TxKernel.m_vNested. simpl TxKernel.body.
  destruct bd.
  - rewrite Hn, count_kernel_additive. reflexivity.
  - rewrite Hn, count_kernel_additive. reflexivity.
  - rewrite count_shielded_output_additive, Hn, count_kernel_additive. reflexivity.
  - rewrite count_shielded_input_additive, Hn, count_kernel_additive. reflexivity.
Qed.

Lemma Reader_AddStats_additive (tx : TxVectors.Full) :
  additive (TxVectors.Reader_AddStats tx).
Proof.
  unfold TxVectors.Reader_AddStats.
  apply (additive_compose
           (fun s => fold_left (fun s o => Output.AddStats o s)
                       (TxVectors.m_vOutputs (TxVectors.P tx))
                       (fold_left (fun s i => Input.AddStats i s)
                          (TxVectors.m_vInputs (TxVectors.P tx)) s))
           (fun s => fold_left (fun s k => TxKernel.AddStats k s)
                       (TxVectors.m_vKernels (TxVectors.E tx)) s)).
  - apply (additive_compose
             (fun s => fold_left (fun s i => Input.AddStats i s)
                         (TxVectors.m_vInputs (TxVectors.P tx)) s)
             (fun s => fold_left (fun s o => Output.AddStats o s)
                         (TxVectors.m_vOutputs (TxVectors.P tx)) s)).
    + apply (additive_fold (fun i s => Input.AddStats i s)).
      apply Forall_forall. intros; apply Input_AddStats_additive.
    + apply (additive_fold (fun o s => Output.AddStats o s)).
      apply Forall_forall. intros; apply Output_AddStats_additive.
  - apply (additive_fold (fun k s => TxKernel.AddStats k s)).
    apply Forall_forall. intros; apply Kernel_AddStats_additive.
Qed.

Lemma additive_from_zero (F : TxStats.t -> TxStats.t) (s : TxStats.t) :
  additive F -> TxStats.add s zero_stats = s -> F s = TxStats.add s (F zero_stats).
Proof. intros HF Hs. rewrite HF, Hs. reflexivity. Qed.

Lemma additive_normal (F : TxStats.t -> TxStats.t) (s : TxStats.t) :
  additive F -> TxStats.add s zero_stats = s ->
  TxStats.add (F s) zero_stats = F s.
Proof. intros HF Hs. rewrite add_comm, HF, add_comm, Hs. reflexivity. Qed.

Lemma zero_normal : TxStats.add zero_stats zero_stats = zero_stats.
Proof. reflexivity. Qed.

Lemma additive_commute (F G : TxStats.t -> TxStats.t) (s : TxStats.t) :
  additive F -> additive G -> TxStats.add s zero_stats = s -> F (G s) = G (F s).
Proof.
  intros HF HG Hs.
  rewrite (additive_from_zero F (G s) HF (additive_normal G s HG Hs)).
  rewrite (additive_from_zero G (F s) HG (additive_normal F s HF Hs)).
  rewrite (additive_from_zero G s HG Hs), (additive_from_zero F s HF Hs).
  rewrite !add_assoc. f_equal. apply add_comm.
Qed.

(** Statistics gathered into [s] are [s] plus those gathered from zero. *)
Theorem Reader_AddStats_from_zero (tx : TxVectors.Full) (s : TxStats.t) :
  stats_in_range s ->
  TxVectors.Reader_AddStats tx s = TxStats.add s (TxVectors.Reader_AddStats tx zero_stats).
Proof.
  intros Hs. apply additive_from_zero; [apply Reader_AddStats_additive|].
  apply in_range_normal, Hs.
Qed.

Lemma MoveIntoVec_app {T} (trg src : list T) :
  Merge.MoveIntoVec trg src = (trg ++ src, []).
Proof.
  unfold Merge.MoveIntoVec. destruct trg as [|x trg]; [reflexivity|].
  f_equal. generalize (x :: trg). clear. intros trg. revert trg.
  induction src as [|y src IH]; intros trg; simpl.
  - rewrite app_nil_r. reflexivity.
  - rewrite IH, <- app_assoc. reflexivity.
Qed.

Lemma fold_left_normal {A} (f : A -> TxStats.t -> TxStats.t) (l : list A) (s : TxStats.t) :
  (forall x, additive (f x)) -> TxStats.add s zero_stats = s ->
  TxStats.add (fold_left (fun s x => f x s) l s) zero_stats
  = fold_left (fun s x => f x s) l s.
Proof.
  intros Hf. revert s. induction l as [|x l IH]; intros s Hs; simpl; [exact Hs|].
  apply IH, additive_normal; auto.
Qed.

Lemma fold_left_commute {A} (f : A -> TxStats.t -> TxStats.t) (l : list A)
    (G : TxStats.t -> TxStats.t) (s : TxStats.t) :
  (forall x, additive (f x)) -> additive G -> TxStats.add s zero_stats = s ->
  fold_left (fun s x => f x s) l (G s) = G (fold_left (fun s x => f x s) l s).
Proof.
  intros Hf HG. revert s. induction l as [|x l IH]; intros s Hs; simpl; [reflexivity|].
  rewrite (additive_commute (f x) G s) by auto.
  apply IH, additive_normal; auto.
Qed.

(** [MoveInto] appends the vectors of the source to those of the target and
    leaves the source empty; the statistics of the merged transaction are the
    sum of the statistics of the two. *)
Theorem MoveInto_adds_stats (self trg : TxVectors.Full) :
  let '(self', trg') := Merge.MoveInto self trg in
  TxVectors.m_vInputs (TxVectors.P trg') =
    TxVectors.m_vInputs (TxVectors.P trg) ++ TxVectors.m_vInputs (TxVectors.P self) /\
  TxVectors.m_vOutputs (TxVectors.P trg') =
    TxVectors.m_vOutputs (TxVectors.P trg) ++ TxVectors.m_vOutputs (TxVectors.P self) /\
  TxVectors.m_vKernels (TxVectors.E trg') =
    TxVectors.m_vKernels (TxVectors.E trg) ++ TxVectors.m_vKernels (TxVectors.E self) /\
  self' = {| TxVectors.P := {| TxVectors.m_vInputs := []; TxVectors.m_vOutputs := [] |};
             TxVectors.E := {| TxVectors.m_vKernels := [] |} |} /\
  TxVectors.Reader_AddStats trg' zero_stats =
    TxStats.add (TxVectors.Reader_AddStats trg zero_stats)
                (TxVectors.Reader_AddStats self zero_stats).
Proof.
  unfold Merge.MoveInto. rewrite !MoveIntoVec_app. simpl.
  repeat (split; [reflexivity|]).
  destruct trg as [[tI tO] [tK]], self as [[sI sO] [sK]]. simpl.
  rewrite <- (additive_from_zero (TxVectors.Reader_AddStats _));
    [|apply Reader_AddStats_additive|].
  2: { apply (additive_normal (TxVectors.Reader_AddStats _));
       [apply Reader_AddStats_additive|apply zero_normal]. }
  unfold TxVectors.Reader_AddStats. simpl. rewrite !fold_left_app.
  set (I1 := fold_left (fun s i => Input.AddStats i s) tI zero_stats).
  assert (N1 : TxStats.add I1 zero_stats = I1).
  { apply (fold_left_normal (fun i s => Input.AddStats i s));
      [apply Input_AddStats_additive|apply zero_normal]. }
  set (O1 := fold_left (fun s o => Output.AddStats o s) tO I1).
  assert (N2 : TxStats.add O1 zero_stats = O1).
  { apply (fold_left_normal (fun o s => Output.AddStats o s));
      [apply Output_AddStats_additive|exact N1]. }
  set (K1 := fold_left (fun s k => TxKernel.AddStats k s) tK O1).
  (* the inputs of the source pass the outputs and the kernels of the target *)
  pose proof (additive_fold (fun i s => Input.AddStats i s) sI
                ltac:(apply Forall_forall; intros; apply Input_AddStats_additive)) as AI.
  pose proof (additive_fold (fun o s => Output.AddStats o s) sO
                ltac:(apply Forall_forall; intros; apply Output_AddStats_additive)) as AO.
  cbv beta in AI, AO.
  rewrite (fold_left_commute (fun o s => Output.AddStats o s) tO _ I1
             Output_AddStats_additive AI N1).
  fold O1.
  rewrite (fold_left_commute (fun k s => TxKernel.AddStats k s) tK
             (fun s => fold_left (fun s o => Output.AddStats o s) sO
                         (fold_left (fun s i => Input.AddStats i s) sI s)) O1
             Kernel_AddStats_additive).
  - fold K1. reflexivity.
  - apply (additive_compose _ _ AI AO).
  - exact N2.
Qed.

(** What [AddStats] of a kernel counts: the kernels of its tree and their
    fees, at the widths of the counters. *)
Definition fee_sum (l : list TxKernel.t) : Z :=
  foldr (fun k acc => TxKernel.m_Fee (TxKernel.base k) + acc) 0 l.

Lemma fee_sum_app (l1 l2 : list TxKernel.t) : fee_sum (l1 ++ l2) = fee_sum l1 + fee_sum l2.
Proof. induction l1 as [|x l1 IH]; simpl; [reflexivity|]. rewrite IH. lia. Qed.

Lemma AddStats_tree (k : TxKernel.t) (s : TxStats.t) :
  TxStats.m_Kernels (TxKernel.AddStats k s) =
    wrap CounterBits (TxStats.m_Kernels s + Z.of_nat (length (postorder k))) /\
  TxStats.m_Fee (TxKernel.AddStats k s) =
    wrap128 (TxStats.m_Fee s + fee_sum (postorder k)).
Proof.
  revert s. induction k as [b n bd IH] using kernel_ind. intros s.
  assert (Hfold : forall s0,
    wrap CounterBits (TxStats.m_Kernels
        (fold_left (fun s v => TxKernel.AddStats v s) n s0)) =
      wrap CounterBits (TxStats.m_Kernels s0 + Z.of_nat (length (flat_map postorder n))) /\
    wrap128 (TxStats.m_Fee (fold_left (fun s v => TxKernel.AddStats v s) n s0)) =
      wrap128 (TxStats.m_Fee s0 + fee_sum (flat_map postorder n)) /\
    (wrap CounterBits (TxStats.m_Kernels s0) = TxStats.m_Kernels s0 ->
     wrap CounterBits (TxStats.m_Kernels
        (fold_left (fun s v => TxKernel.AddStats v s) n s0)) =
     TxStats.m_Kernels (fold_left (fun s v => TxKernel.AddStats v s) n s0)) /\
    (wrap128 (TxStats.m_Fee s0) = TxStats.m_Fee s0 ->
     wrap128 (TxStats.m_Fee (fold_left (fun s v => TxKernel.AddStats v s) n s0)) =
     TxStats.m_Fee (fold_left (fun s v => TxKernel.AddStats v s) n s0))).
  { induction IH as [|x n Hx _ IHn]; intros s0; simpl.
    - rewrite !Z.add_0_r. auto.
    - destruct (Hx s0) as [Hk Hf]. destruct (IHn (TxKernel.AddStats x s0)) as (F1 & F2 & F3 & F4).
      split; [rewrite F1, Hk, length_app, Nat2Z.inj_add; unfold wrap;
              rewrite Zplus_mod_idemp_l; f_equal; lia|].
      split; [rewrite F2, Hf, fee_sum_app; unfold wrap128, wrap;
              rewrite Zplus_mod_idemp_l; f_equal; lia|].
      split; intros _;
        [apply F3; rewrite Hk; unfold wrap; apply Zmod_mod
        |apply F4; rewrite Hf; unfold wrap128, wrap; apply Zmod_mod]. }
  rewrite AddStats_unfold. cbv zeta. simpl TxKernel.m_vNested. simpl TxKernel.body.
  destruct (Hfold (count_kernel (TxKernel.Krn b n bd) s)) as (F1 & F2 & F3 & F4).
  assert (E : forall s', TxStats.m_Kernels
              match bd with
              | TxKernel.BodyShieldedOutput _ _ => count_shielded_output s'
              | TxKernel.BodyShieldedInput _ _ _ => count_shielded_input s'
              | _ => s'
              end = TxStats.m_Kernels s' /\
            TxStats.m_Fee
              match bd with
              | TxKernel.BodyShieldedOutput _ _ => count_shielded_output s'
              | TxKernel.BodyShieldedInput _ _ _ => count_shielded_input s'
              | _ => s'
              end = TxStats.m_Fee s') by (intros; destruct bd; auto).
  destruct (E (fold_left (fun s v => TxKernel.AddStats v s) n
                 (count_kernel (TxKernel.Krn b n bd) s))) as [-> ->].
  rewrite <- F3, <- F4, F1, F2.
  - simpl. rewrite length_app, fee_sum_app. simpl.
    unfold TxStats.incr, wrap128, wrap. rewrite !Zplus_mod_idemp_l.
    split; f_equal; lia.
  - simpl. unfold wrap128, wrap. apply Zmod_mod.
  - simpl. unfold TxStats.incr, wrap. apply Zmod_mod.
Qed.

(** [TxKernel::AddStats] counts in [m_Kernels] every kernel of the tree, the
    kernel itself and the nested ones at every depth, and adds all their fees
    to [m_Fee]. *)
Theorem AddStats_counts_the_tree (k : TxKernel.t) (s : TxStats.t) :
  TxStats.m_Kernels (TxKernel.AddStats k s) =
    wrap CounterBits (TxStats.m_Kernels s + Z.of_nat (length (postorder k))) /\
  TxStats.m_Fee (TxKernel.AddStats k s) =
    wrap128 (TxStats.m_Fee s + fee_sum (postorder k)) /\
  k ∈ postorder k /\
  (forall v, v ∈ TxKernel.m_vNested k -> postorder v ⊆ postorder k).
Proof.
  destruct (AddStats_tree k s) as [Hk Hf]. split; [exact Hk|]. split; [exact Hf|].
  destruct k as [b n bd]. simpl. split.
  - apply elem_of_app. right. apply list_elem_of_singleton. reflexivity.
  - intros v Hv x Hx. apply elem_of_app. left.
    apply list_elem_of_In, in_flat_map. exists v.
    split; apply list_elem_of_In; assumption.
Qed.

End stats_add.

(** ** Statistics of a shielded kernel and of its nested kernels *)

Section shielded_stats.
Context `{ECC} `{StatsLayout}.

(** The statistics of the kernels nested in [k], gathered from zero. *)
Definition nested_stats (k : TxKernel.t) : TxStats.t :=
  fold_left (fun s v => TxKernel.AddStats v s) (TxKernel.m_vNested k) zero_stats.

(** Adding the statistics [n] to [s] and counting one more in each counter
    wraps no counter. *)
Definition sums_fit (s n : TxStats.t) : Prop :=
  TxStats.m_Kernels s + TxStats.m_Kernels n + 1 < 2 ^ CounterBits /\
  TxStats.m_Inputs s + TxStats.m_Inputs n + 1 < 2 ^ CounterBits /\
  TxStats.m_Outputs s + TxStats.m_Outputs n + 1 < 2 ^ CounterBits /\
  TxStats.m_InputsShielded s + TxStats.m_InputsShielded n + 1 < 2 ^ CounterBits /\
  TxStats.m_OutputsShielded s + TxStats.m_OutputsShielded n + 1 < 2 ^ CounterBits.

Lemma nested_stats_normal (k : TxKernel.t) :
  TxStats.add (nested_stats k) zero_stats = nested_stats k.
Proof.
  apply (fold_left_normal (fun v s => TxKernel.AddStats v s));
    [apply Kernel_AddStats_additive|apply zero_normal].
Qed.

Lemma nested_stats_nonneg (k : TxKernel.t) :
  0 < 2 ^ CounterBits ->
  0 <= TxStats.m_Kernels (nested_stats k) /\ 0 <= TxStats.m_Inputs (nested_stats k) /\
  0 <= TxStats.m_Outputs (nested_stats k) /\
  0 <= TxStats.m_InputsShielded (nested_stats k) /\
  0 <= TxStats.m_OutputsShielded (nested_stats k).
Proof.
  intros Hpos. rewrite <- nested_stats_normal.
  unfold TxStats.add, wrap. simpl.
  repeat split; apply Z.mod_pos_bound; assumption.
Qed.

(** The nested kernels of [k], started from the count of [k] itself, add
    what they gather from zero. *)
Lemma nested_after_own (k : TxKernel.t) (F : TxStats.t -> TxStats.t) (s : TxStats.t) :
  additive F -> stats_in_range s ->
  F (fold_left (fun s v => TxKernel.AddStats v s) (TxKernel.m_vNested k) (count_kernel k s))
  = TxStats.add (F (count_kernel k s)) (nested_stats k).
Proof.
  intros HF Hs.
  assert (Hn : TxStats.add (count_kernel k s) zero_stats = count_kernel k s).
  { apply additive_normal; [apply count_kernel_additive|apply in_range_normal, Hs]. }
  pose proof (additive_fold (fun v s => TxKernel.AddStats v s) (TxKernel.m_vNested k)
                ltac:(apply Forall_forall; intros; apply Kernel_AddStats_additive)) as Hfold.
  cbv beta in Hfold.
  rewrite (additive_from_zero _ (count_kernel k s) Hfold Hn).
  fold (nested_stats k).
  rewrite (add_comm (count_kernel k s)), <- HF. apply add_comm.
Qed.

Lemma mod_sum3 (a c b n : Z) : (a mod n + c + b mod n) mod n = (a + c + b) mod n.
Proof.
  rewrite Zplus_mod_idemp_r, <- (Z.add_assoc (a mod n)), Zplus_mod_idemp_l, Z.add_assoc.
  reflexivity.
Qed.

Lemma wrap_idemp_l (w a b : Z) : wrap w (wrap w a + b) = wrap w (a + b).
Proof. unfold wrap. apply Zplus_mod_idemp_l. Qed.

Lemma shielded_output_counts (k : TxKernel.t) (s : TxStats.t) :
  TxKernel.get_Subtype k = Subtype.ShieldedOutput -> stats_in_range s ->
  TxKernel.AddStats k s =
    TxStats.add (count_shielded_output (count_kernel k s)) (nested_stats k).
Proof.
  intros Hk Hs. rewrite AddStats_unfold. cbv zeta.
  unfold TxKernel.get_Subtype in Hk.
  destruct (TxKernel.body k); try discriminate.
  apply (nested_after_own k count_shielded_output s count_shielded_output_additive Hs).
Qed.

Lemma shielded_input_counts (k : TxKernel.t) (s : TxStats.t) :
  TxKernel.get_Subtype k = Subtype.ShieldedInput -> stats_in_range s ->
  TxKernel.AddStats k s =
    TxStats.add (count_shielded_input (count_kernel k s)) (nested_stats k).
Proof.
  intros Hk Hs. rewrite AddStats_unfold. cbv zeta.
  unfold TxKernel.get_Subtype in Hk.
  destruct (TxKernel.body k); try discriminate.
  apply (nested_after_own k count_shielded_input s count_shielded_input_additive Hs).
Qed.

(** C10, as amended: for every shielded kernel, with or without nested
    kernels, [AddStats] leaves the statistics it was given, with the kernel
    counted once in the plain and once in the shielded counters, [+=] the
    statistics of its nested kernels: a [TxKernelShieldedOutput] adds 1 and
    what the nested kernels add to each of [m_Kernels], [m_Outputs] and
    [m_OutputsShielded], a [TxKernelShieldedInput] to each of [m_Kernels],
    [m_Inputs] and [m_InputsShielded], at the width of the counters; when no
    counter wraps, the fee of [FeeSettings::Calculate] grows, modulo 2^64, by
    [m_Kernel + m_Output + m_ShieldedOutput] (1020 by default), respectively
    [m_Kernel + m_ShieldedInput] (1010 by default), and by the fee of the
    statistics of the nested kernels. For a shielded kernel without nested
    kernels the counters grow by exactly 1 and the fee by exactly that
    charge. *)
Theorem C10_shielded_AddStats (fs : FeeSettings.t) (k : TxKernel.t) (s : TxStats.t) :
  (TxKernel.get_Subtype k = Subtype.ShieldedOutput ->
   (stats_in_range s ->
    TxKernel.AddStats k s =
      TxStats.add (count_shielded_output (count_kernel k s)) (nested_stats k) /\
    TxStats.m_Kernels (TxKernel.AddStats k s) =
      wrap CounterBits (TxStats.m_Kernels s + 1 + TxStats.m_Kernels (nested_stats k)) /\
    TxStats.m_Outputs (TxKernel.AddStats k s) =
      wrap CounterBits (TxStats.m_Outputs s + 1 + TxStats.m_Outputs (nested_stats k)) /\
    TxStats.m_OutputsShielded (TxKernel.AddStats k s) =
      wrap CounterBits (TxStats.m_OutputsShielded s + 1 +
                        TxStats.m_OutputsShielded (nested_stats k)) /\
    TxStats.m_Inputs (TxKernel.AddStats k s) =
      wrap CounterBits (TxStats.m_Inputs s + TxStats.m_Inputs (nested_stats k)) /\
    TxStats.m_InputsShielded (TxKernel.AddStats k s) =
      wrap CounterBits (TxStats.m_InputsShielded s +
                        TxStats.m_InputsShielded (nested_stats k)) /\
    (sums_fit s (nested_stats k) ->
     FeeSettings.Calculate fs (TxKernel.AddStats k s) =
       wrap64 (FeeSettings.Calculate fs s +
               (FeeSettings.m_Kernel fs + FeeSettings.m_Output fs +
                FeeSettings.m_ShieldedOutput fs) +
               FeeSettings.Calculate fs (nested_stats k)))) /\
   (TxKernel.m_vNested k = [] ->
    TxKernel.AddStats k s = count_shielded_output (count_kernel k s) /\
    (counters_fit s ->
     TxStats.m_Kernels (TxKernel.AddStats k s) = TxStats.m_Kernels s + 1 /\
     TxStats.m_Outputs (TxKernel.AddStats k s) = TxStats.m_Outputs s + 1 /\
     TxStats.m_OutputsShielded (TxKernel.AddStats k s) = TxStats.m_OutputsShielded s + 1 /\
     TxStats.m_Inputs (TxKernel.AddStats k s) = TxStats.m_Inputs s /\
     TxStats.m_InputsShielded (TxKernel.AddStats k s) = TxStats.m_InputsShielded s /\
     FeeSettings.Calculate fs (TxKernel.AddStats k s) =
       wrap64 (FeeSettings.Calculate fs s +
               (FeeSettings.m_Kernel fs + FeeSettings.m_Output fs +
                FeeSettings.m_ShieldedOutput fs))))) /\
  (TxKernel.get_Subtype k = Subtype.ShieldedInput ->
   (stats_in_range s ->
    TxKernel.AddStats k s =
      TxStats.add (count_shielded_input (count_kernel k s)) (nested_stats k) /\
    TxStats.m_Kernels (TxKernel.AddStats k s) =
      wrap CounterBits (TxStats.m_Kernels s + 1 + TxStats.m_Kernels (nested_stats k)) /\
    TxStats.m_Inputs (TxKernel.AddStats k s) =
      wrap CounterBits (TxStats.m_Inputs s + 1 + TxStats.m_Inputs (nested_stats k)) /\
    TxStats.m_InputsShielded (TxKernel.AddStats k s) =
      wrap CounterBits (TxStats.m_InputsShielded s + 1 +
                        TxStats.m_InputsShielded (nested_stats k)) /\
    TxStats.m_Outputs (TxKernel.AddStats k s) =
      wrap CounterBits (TxStats.m_Outputs s + TxStats.m_Outputs (nested_stats k)) /\
    TxStats.m_OutputsShielded (TxKernel.AddStats k s) =
      wrap CounterBits (TxStats.m_OutputsShielded s +
                        TxStats.m_OutputsShielded (nested_stats k)) /\
    (sums_fit s (nested_stats k) ->
     FeeSettings.Calculate fs (TxKernel.AddStats k s) =
       wrap64 (FeeSettings.Calculate fs s +
               (FeeSettings.m_Kernel fs + FeeSettings.m_ShieldedInput fs) +
               FeeSettings.Calculate fs (nested_stats k)))) /\
   (TxKernel.m_vNested k = [] ->
    TxKernel.AddStats k s = count_shielded_input (count_kernel k s) /\
    (counters_fit s ->
     TxStats.m_Kernels (TxKernel.AddStats k s) = TxStats.m_Kernels s + 1 /\
     TxStats.m_Inputs (TxKernel.AddStats k s) = TxStats.m_Inputs s + 1 /\
     TxStats.m_InputsShielded (TxKernel.AddStats k s) = TxStats.m_InputsShielded s + 1 /\
     TxStats.m_Outputs (TxKernel.AddStats k s) = TxStats.m_Outputs s /\
     TxStats.m_OutputsShielded (TxKernel.AddStats k s) = TxStats.m_OutputsShielded s /\
     FeeSettings.Calculate fs (TxKernel.AddStats k s) =
       wrap64 (FeeSettings.Calculate fs s +
               (FeeSettings.m_Kernel fs + FeeSettings.m_ShieldedInput fs))))) /\
  FeeSettings.m_Kernel FeeSettings.Default + FeeSettings.m_Output FeeSettings.Default +
    FeeSettings.m_ShieldedOutput FeeSettings.Default = 1020 /\
  FeeSettings.m_Kernel FeeSettings.Default +
    FeeSettings.m_ShieldedInput FeeSettings.Default = 1010.
Proof.
  split; [|split; [|split; reflexivity]].
  - intros Hk. split.
    + intros Hs. pose proof (shielded_output_counts k s Hk Hs) as E.
      split; [exact E|]. rewrite E. simpl.
      unfold TxStats.incr. rewrite !wrap_idemp_l.
      repeat (split; [reflexivity|]).
      intros (F1 & F2 & F3 & F4 & F5).
      destruct Hs as (_ & _ & K & I & O & IS & OS).
      destruct (nested_stats_nonneg k ltac:(lia)) as (NK & NI & NO & NIS & NOS).
      rewrite !Calculate_raw. simpl. unfold wrap64, wrap.
      rewrite !incr_fit by lia.
      rewrite !(Z.mod_small _ (2 ^ CounterBits)) by lia.
      rewrite mod_sum3. f_equal. ring.
    + intros Hn. rewrite AddStats_unfold, Hn. simpl fold_left. cbv zeta.
      unfold TxKernel.get_Subtype in Hk.
      destruct (TxKernel.body k); try discriminate. split; [reflexivity|].
      intros (K0 & K1 & I0 & I1 & O0 & O1 & IS0 & IS1 & OS0 & OS1).
      rewrite !Calculate_raw. simpl.
      rewrite !incr_fit by assumption.
      repeat split; auto.
      unfold wrap64, wrap. rewrite Z.add_mod_idemp_l by lia. f_equal. ring.
  - intros Hk. split.
    + intros Hs. pose proof (shielded_input_counts k s Hk Hs) as E.
      split; [exact E|]. rewrite E. simpl.
      unfold TxStats.incr. rewrite !wrap_idemp_l.
      repeat (split; [reflexivity|]).
      intros (F1 & F2 & F3 & F4 & F5).
      destruct Hs as (_ & _ & K & I & O & IS & OS).
      destruct (nested_stats_nonneg k ltac:(lia)) as (NK & NI & NO & NIS & NOS).
      rewrite !Calculate_raw. simpl. unfold wrap64, wrap.
      rewrite !incr_fit by lia.
      rewrite !(Z.mod_small _ (2 ^ CounterBits)) by lia.
      rewrite mod_sum3. f_equal. ring.
    + intros Hn. rewrite AddStats_unfold, Hn. simpl fold_left. cbv zeta.
      unfold TxKernel.get_Subtype in Hk.
      destruct (TxKernel.body k); try discriminate. split; [reflexivity|].
      intros (K0 & K1 & I0 & I1 & O0 & O1 & IS0 & IS1 & OS0 & OS1).
      rewrite !Calculate_raw. simpl.
      rewrite !incr_fit by assumption.
      repeat split; auto.
      unfold wrap64, wrap. rewrite Z.add_mod_idemp_l by lia. f_equal. ring.
Qed.

End shielded_stats.

(** ** Walking the kernels *)

Section walker.
Context `{ECC} {S : Type} (OnKrn : TxKernel.t -> S -> bool * S).

Lemma Process_vec_app (f : TxKernel.t -> S -> bool * S) (l1 l2 : list TxKernel.t) (st : S) :
  IWalker.Process_vec f (l1 ++ l2) st =
  let '(ok, st') := IWalker.Process_vec f l1 st in
  if ok then IWalker.Process_vec f l2 st' else (false, st').
Proof.
  revert st. induction l1 as [|x l1 IH]; intros st; simpl; [reflexivity|].
  destruct (f x st) as [[|] st1]; simpl; [apply IH|reflexivity].
Qed.

Lemma Process_unfold (k : TxKernel.t) (st : S) :
  IWalker.Process OnKrn k st =
  let '(ok, st) := IWalker.Process_vec (IWalker.Process OnKrn) (TxKernel.m_vNested k) st in
  if ok then OnKrn k st else (false, st).
Proof. destruct k; reflexivity. Qed.

Lemma Process_postorder (k : TxKernel.t) (st : S) :
  IWalker.Process OnKrn k st = IWalker.Process_vec OnKrn (postorder k) st.
Proof.
  revert st. induction k as [b n bd IH] using kernel_ind. intros st.
  rewrite Process_unfold. simpl TxKernel.m_vNested. simpl postorder.
  rewrite Process_vec_app.
  assert (Hn : forall st, IWalker.Process_vec (IWalker.Process OnKrn) n st =
                          IWalker.Process_vec OnKrn (flat_map postorder n) st).
  { clear st. induction IH as [|x n Hx _ IHn]; intros st; simpl; [reflexivity|].
    rewrite Process_vec_app, Hx.
    destruct (IWalker.Process_vec OnKrn (postorder x) st) as [[|] st1]; simpl;
      [apply IHn|reflexivity]. }
  rewrite Hn.
  destruct (IWalker.Process_vec OnKrn (flat_map postorder n) st) as [[|] st1]; simpl;
    [|reflexivity].
  destruct (OnKrn (TxKernel.Krn b n bd) st1) as [[|] st2]; reflexivity.
Qed.

End walker.

(** A walker visits the kernels of a tree in post-order, the nested kernels
    before their parent, and stops at the first that [OnKrn] rejects: walking
    a kernel is walking the flat vector of the kernels of its tree. For a
    walker that only tests the kernels, [Process] accepts exactly when every
    kernel of the tree passes. *)
Theorem Process_walks_postorder `{ECC} {S : Type} (OnKrn : TxKernel.t -> S -> bool * S)
    (accept : TxKernel.t -> bool) (k : TxKernel.t) (st : S) :
  IWalker.Process OnKrn k st = IWalker.Process_vec OnKrn (postorder k) st /\
  fst (IWalker.Process (fun v st => (accept v, st)) k st) = forallb accept (postorder k).
Proof.
  split; [apply Process_postorder|].
  rewrite Process_postorder. generalize (postorder k). intros l.
  induction l as [|x l IH]; simpl; [reflexivity|].
  destruct (accept x); simpl; [exact IH|reflexivity].
Qed.

(** ** Normalization and statistics *)

Section normalize_stats.
Context `{ECC} `{StatsLayout} `{StdSort} (r : Rules.t).

Lemma fold_left_perm_additive {A} (f : A -> TxStats.t -> TxStats.t) (l l' : list A)
    (s : TxStats.t) :
  (forall x, additive (f x)) -> l ≡ₚ l' -> TxStats.add s zero_stats = s ->
  fold_left (fun s x => f x s) l s = fold_left (fun s x => f x s) l' s.
Proof.
  intros Hf Hp. revert s. induction Hp as [|x l l' _ IH|x y l|l1 l2 l3 _ IH1 _ IH2];
    intros s Hs; simpl.
  - reflexivity.
  - apply IH, additive_normal; auto.
  - rewrite (additive_commute (f x) (f y) s) by auto. reflexivity.
  - rewrite IH1 by assumption. apply IH2, Hs.
Qed.

Lemma Inputs_fold_fields (l : list Input.t) (s : TxStats.t) :
  let s' := fold_left (fun s i => Input.AddStats i s) l s in
  TxStats.m_Fee s' = TxStats.m_Fee s /\
  TxStats.m_Kernels s' = TxStats.m_Kernels s /\
  TxStats.m_Outputs s' = TxStats.m_Outputs s /\
  TxStats.m_InputsShielded s' = TxStats.m_InputsShielded s /\
  TxStats.m_OutputsShielded s' = TxStats.m_OutputsShielded s /\
  wrap CounterBits (TxStats.m_Inputs s') =
    wrap CounterBits (TxStats.m_Inputs s + Z.of_nat (length l)).
Proof.
  revert s. induction l as [|x l IH]; intros s; simpl.
  - rewrite Z.add_0_r. auto 10.
  - destruct (IH (Input.AddStats x s)) as (F1 & F2 & F3 & F4 & F5 & F6).
    simpl in *. rewrite F1, F2, F3, F4, F5, F6.
    repeat (split; [reflexivity|]).
    unfold TxStats.incr, wrap. rewrite Zplus_mod_idemp_l. f_equal. lia.
Qed.

Lemma Outputs_fold_fields (l : list Output.t) (s : TxStats.t) :
  let s' := fold_left (fun s o => Output.AddStats o s) l s in
  TxStats.m_Fee s' = TxStats.m_Fee s /\
  TxStats.m_Kernels s' = TxStats.m_Kernels s /\
  TxStats.m_Inputs s' = TxStats.m_Inputs s /\
  TxStats.m_InputsShielded s' = TxStats.m_InputsShielded s /\
  TxStats.m_OutputsShielded s' = TxStats.m_OutputsShielded s /\
  wrap CounterBits (TxStats.m_Outputs s') =
    wrap CounterBits (TxStats.m_Outputs s + Z.of_nat (length l)).
Proof.
  revert s. induction l as [|x l IH]; intros s; simpl.
  - rewrite Z.add_0_r. auto 10.
  - destruct (IH (Output.AddStats x s)) as (F1 & F2 & F3 & F4 & F5 & F6).
    simpl in *. rewrite F1, F2, F3, F4, F5, F6.
    repeat (split; [reflexivity|]).
    unfold TxStats.incr, wrap. rewrite Zplus_mod_idemp_l. f_equal. lia.
Qed.

(** Normalization keeps the fees, the number of kernels and the shielded
    counts of a transaction; the numbers of inputs and of outputs drop by the
    count that [Normalize] returns (at the width of the counters). *)
Theorem Normalize_keeps_stats (tx tx' : TxVectors.Full) (nDel : nat) (s : TxStats.t) :
  TxVectors.Normalize r tx = Some (tx', nDel) -> stats_in_range s ->
  let a := TxVectors.Reader_AddStats tx s in
  let b := TxVectors.Reader_AddStats tx' s in
  TxStats.m_Fee b = TxStats.m_Fee a /\
  TxStats.m_Kernels b = TxStats.m_Kernels a /\
  TxStats.m_InputsShielded b = TxStats.m_InputsShielded a /\
  TxStats.m_OutputsShielded b = TxStats.m_OutputsShielded a /\
  TxStats.m_Inputs a = wrap CounterBits (TxStats.m_Inputs b + Z.of_nat nDel) /\
  TxStats.m_Outputs a = wrap CounterBits (TxStats.m_Outputs b + Z.of_nat nDel).
Proof.
  intros Hrun Hs.
  destruct (Normalize_result r tx) as (ins & outs & n & Hrun' & _ & _ & Hli & Hlo & _).
  rewrite Hrun in Hrun'. injection Hrun' as -> ->.
  pose proof (in_range_normal s Hs) as Ns.
  destruct tx as [[tI tO] [tK]]. simpl in *.
  unfold TxVectors.Reader_AddStats. simpl.
  set (I1 := fold_left (fun s i => Input.AddStats i s) tI s).
  set (I2 := fold_left (fun s i => Input.AddStats i s) ins s).
  set (O1 := fold_left (fun s o => Output.AddStats o s) tO I1).
  set (O2 := fold_left (fun s o => Output.AddStats o s) outs I2).
  assert (N1 : TxStats.add O1 zero_stats = O1).
  { apply (fold_left_normal (fun o s => Output.AddStats o s)); [apply Output_AddStats_additive|].
    apply (fold_left_normal (fun i s => Input.AddStats i s)); [apply Input_AddStats_additive|].
    exact Ns. }
  assert (N2 : TxStats.add O2 zero_stats = O2).
  { apply (fold_left_normal (fun o s => Output.AddStats o s)); [apply Output_AddStats_additive|].
    apply (fold_left_normal (fun i s => Input.AddStats i s)); [apply Input_AddStats_additive|].
    exact Ns. }
  rewrite (fold_left_perm_additive (fun k s => TxKernel.AddStats k s)
             (std_sort (TxVectors.Kernel_lt r) tK) tK O2 Kernel_AddStats_additive
             (std_sort_perm _ _ _) N2).
  pose proof (additive_fold (fun k s => TxKernel.AddStats k s) tK
                ltac:(apply Forall_forall; intros; apply Kernel_AddStats_additive)) as AK.
  cbv beta in AK.
  rewrite (additive_from_zero _ O1 AK N1), (additive_from_zero _ O2 AK N2).
  set (K0 := fold_left (fun s k => TxKernel.AddStats k s) tK zero_stats).
  destruct (Inputs_fold_fields tI s) as (A1 & A2 & A3 & A4 & A5 & A6).
  destruct (Inputs_fold_fields ins s) as (B1 & B2 & B3 & B4 & B5 & B6).
  destruct (Outputs_fold_fields tO I1) as (C1 & C2 & C3 & C4 & C5 & C6).
  destruct (Outputs_fold_fields outs I2) as (D1 & D2 & D3 & D4 & D5 & D6).
  cbv zeta in *. fold I1 in A1, A2, A3, A4, A5, A6. fold I2 in B1, B2, B3, B4, B5, B6.
  fold O1 in C1, C2, C3, C4, C5, C6. fold O2 in D1, D2, D3, D4, D5, D6.
  unfold TxStats.add. simpl.
  split; [congruence|]. split; [congruence|]. split; [congruence|]. split; [congruence|].
  unfold wrap in *. split.
  - rewrite Zplus_mod_idemp_l, C3, D3.
    rewrite <- (Zplus_mod_idemp_l (TxStats.m_Inputs I1)), A6.
    replace (TxStats.m_Inputs I2 + TxStats.m_Inputs K0 + Z.of_nat n)
      with (TxStats.m_Inputs I2 + (TxStats.m_Inputs K0 + Z.of_nat n)) by lia.
    rewrite <- (Zplus_mod_idemp_l (TxStats.m_Inputs I2)), B6.
    rewrite !Zplus_mod_idemp_l. f_equal. lia.
  - rewrite Zplus_mod_idemp_l.
    rewrite <- (Zplus_mod_idemp_l (TxStats.m_Outputs O1)), C6, A3.
    replace (TxStats.m_Outputs O2 + TxStats.m_Outputs K0 + Z.of_nat n)
      with (TxStats.m_Outputs O2 + (TxStats.m_Outputs K0 + Z.of_nat n)) by lia.
    rewrite <- (Zplus_mod_idemp_l (TxStats.m_Outputs O2)), D6, B3.
    rewrite !Zplus_mod_idemp_l. f_equal. lia.
Qed.

End normalize_stats.

(** ** Comparing two readers *)

Section compare.
Context {T : Type} (c : T -> T -> Z).

(** [a] covers [b]: the elements of [b] are matched, in their order, by
    elements of [a] that compare equal to them, each by one of its own. *)
Definition covers (a b : list T) : Prop :=
  exists a0, sublist a0 a /\ Forall2 (fun x y => c x y = 0) a0 b.

(** [a] is covered by [b]. *)
Definition covered (a b : list T) : Prop :=
  exists b0, sublist b0 b /\ Forall2 (fun x y => c x y = 0) a b0.

Lemma sublist_tail (z : T) (l k : list T) : sublist (z :: l) k -> sublist l k.
Proof. intros Hs. etrans; [|exact Hs]. apply sublist_cons, reflexivity. Qed.

Lemma covers_nil_l (b : list T) : covers [] b <-> b = [].
Proof.
  split.
  - intros (a0 & Hs & Hf). apply sublist_nil_r in Hs. subst a0.
    inversion Hf. reflexivity.
  - intros ->. exists []. split; [reflexivity|constructor].
Qed.

Lemma covers_nil_r (a : list T) : covers a [].
Proof. exists []. split; [apply sublist_nil_l|constructor]. Qed.

Lemma covers_skip (x y : T) (A B : list T) :
  c x y <> 0 -> (covers (x :: A) (y :: B) <-> covers A (y :: B)).
Proof.
  intros Hne. split; intros (a0 & Hs & Hf).
  - exists a0. split; [|exact Hf].
    apply sublist_cons_r in Hs. destruct Hs as [Hs|(l' & -> & Hs)]; [exact Hs|].
    inversion Hf; subst. contradiction.
  - exists a0. split; [apply sublist_cons, Hs|exact Hf].
Qed.

Lemma covers_match (x y : T) (A B : list T) :
  c x y = 0 -> (covers (x :: A) (y :: B) <-> covers A B).
Proof.
  intros He. split; intros (a0 & Hs & Hf).
  - inversion Hf as [|z y' a0' B' Hz Hf']; subst.
    exists a0'. split; [|exact Hf'].
    apply sublist_cons_r in Hs. destruct Hs as [Hs|(l' & E & Hs)].
    + eapply sublist_tail, Hs.
    + injection E as -> ->. exact Hs.
  - exists (x :: a0). split; [apply sublist_skip, Hs|constructor; assumption].
Qed.

Lemma covered_nil_l (b : list T) : covered [] b.
Proof. exists []. split; [apply sublist_nil_l|constructor]. Qed.

Lemma covered_nil_r (x : T) (A : list T) : ~ covered (x :: A) [].
Proof.
  intros (b0 & Hs & Hf). apply sublist_nil_r in Hs. subst b0. inversion Hf.
Qed.

Lemma covered_skip (x y : T) (A B : list T) :
  c x y <> 0 -> (covered (x :: A) (y :: B) <-> covered (x :: A) B).
Proof.
  intros Hne. split; intros (b0 & Hs & Hf).
  - exists b0. split; [|exact Hf].
    apply sublist_cons_r in Hs. destruct Hs as [Hs|(l' & -> & Hs)]; [exact Hs|].
    inversion Hf; subst. contradiction.
  - exists b0. split; [apply sublist_cons, Hs|exact Hf].
Qed.

Lemma covered_match (x y : T) (A B : list T) :
  c x y = 0 -> (covered (x :: A) (y :: B) <-> covered A B).
Proof.
  intros He. split; intros (b0 & Hs & Hf).
  - inversion Hf as [|x' z A' b0' Hz Hf']; subst.
    exists b0'. split; [|exact Hf'].
    apply sublist_cons_r in Hs. destruct Hs as [Hs|(l' & E & Hs)].
    + eapply sublist_tail, Hs.
    + injection E as -> ->. exact Hs.
  - exists (y :: b0). split; [apply sublist_skip, Hs|constructor; assumption].
Qed.

Hypothesis Hc : Lawful c.

Lemma covers_none (x y : T) (A B : list T) :
  c x y > 0 -> sorted_by c (x :: A) -> ~ covers (x :: A) (y :: B).
Proof.
  intros Hgt Hsort (a0 & Hs & Hf).
  inversion Hf as [|z y' a0' B' Hz Hf']; subst.
  apply sublist_cons_r in Hs. destruct Hs as [Hs|(l' & E & Hs)].
  - assert (Hin : z ∈ A).
    { eapply elem_of_sublist; [|exact Hs]. left. }
    inversion Hsort as [|? ? _ Hall]; subst.
    rewrite Forall_forall in Hall. specialize (Hall z Hin).
    pose proof (law_trans _ _ Hc x z y I I I Hall ltac:(lia)). lia.
  - injection E as -> ->. lia.
Qed.

Lemma covered_none (x y : T) (A B : list T) :
  c x y < 0 -> sorted_by c (y :: B) -> ~ covered (x :: A) (y :: B).
Proof.
  intros Hlt Hsort (b0 & Hs & Hf).
  inversion Hf as [|x' z A' b0' Hz Hf']; subst.
  apply sublist_cons_r in Hs. destruct Hs as [Hs|(l' & E & Hs)].
  - assert (Hin : z ∈ B).
    { eapply elem_of_sublist; [|exact Hs]. left. }
    inversion Hsort as [|? ? _ Hall]; subst.
    rewrite Forall_forall in Hall. specialize (Hall z Hin).
    pose proof (law_opp _ _ Hc x z I I) as Ho.
    pose proof (law_trans _ _ Hc y z x I I I Hall ltac:(lia)).
    pose proof (law_opp _ _ Hc x y I I). lia.
  - injection E as -> ->. lia.
Qed.

Lemma sorted_by_tail (x : T) (l : list T) : sorted_by c (x :: l) -> sorted_by c l.
Proof. intros Hs. inversion Hs; assumption. Qed.

Lemma COMPARE_TYPE_unfold (fuel : nat) (a b : list T) (i j : nat) (bI bO : bool) :
  IReader.COMPARE_TYPE c fuel a i b j bI bO =
  match a !! i with
  | None => Some (if bool_decide (is_Some (b !! j)) then false else bI, bO)
  | Some x =>
      match b !! j with
      | None => Some (bI, false)
      | Some y =>
          match fuel with
          | O => None
          | S fuel' =>
              IReader.COMPARE_TYPE c fuel' a (if c x y <=? 0 then S i else i)
                b (if c x y >=? 0 then S j else j)
                (if c x y >? 0 then false else bI) (if c x y <? 0 then false else bO)
          end
      end
  end.
Proof. destruct fuel; reflexivity. Qed.

Lemma COMPARE_TYPE_spec (a b : list T) (fuel : nat) :
  forall (i j : nat) (bI bO : bool),
    (length (drop i a) + length (drop j b) <= fuel)%nat ->
    exists cI cO : bool,
      IReader.COMPARE_TYPE c fuel a i b j bI bO = Some (bI && cI, bO && cO) /\
      ((cI = true /\ cO = true) <->
       Forall2 (fun x y => c x y = 0) (drop i a) (drop j b)) /\
      (sorted_by c (drop i a) -> (cI = true <-> covers (drop i a) (drop j b))) /\
      (sorted_by c (drop j b) -> (cO = true <-> covered (drop i a) (drop j b))).
Proof.
  induction fuel as [|fuel IH]; intros i j bI bO Hfuel.
  - (* no fuel: one of the vectors is exhausted *)
    assert (Hz : drop i a = [] \/ drop j b = []).
    { destruct (drop i a); [auto|]. destruct (drop j b); [auto|]. simpl in Hfuel. lia. }
    destruct (a !! i) as [x|] eqn:Ea.
    + rewrite (drop_S _ _ _ Ea) in *. destruct Hz as [Hz|Hz]; [discriminate|].
      assert (Eb : b !! j = None).
      { destruct (b !! j) as [y|] eqn:Eb; [|reflexivity].
        rewrite (drop_S _ _ _ Eb) in Hz. discriminate. }
      exists true, false. rewrite COMPARE_TYPE_unfold, Ea, Eb, Hz.
      rewrite andb_true_r, andb_false_r.
      split; [reflexivity|]. split; [|split].
      * split; [intros [_ ?]; discriminate|intros Hf; inversion Hf].
      * intros _. split; [intros _; apply covers_nil_r|reflexivity].
      * intros _. split; [discriminate|intros Hf; exfalso; eapply covered_nil_r, Hf].
    + assert (Ha : drop i a = []) by (apply drop_ge, lookup_ge_None, Ea).
      exists (negb (bool_decide (is_Some (b !! j)))), true.
      rewrite COMPARE_TYPE_unfold, Ea, Ha, andb_true_r.
      split; [destruct (bool_decide (is_Some (b !! j))), bI; reflexivity|].
      destruct (b !! j) as [y|] eqn:Eb.
      * rewrite (drop_S _ _ _ Eb).
        rewrite bool_decide_eq_true_2 by eauto. simpl.
        split; [|split].
        -- split; [intros [? _]; discriminate|intros Hf; inversion Hf].
        -- intros _. split; [discriminate|]. intros Hf. apply covers_nil_l in Hf.
           discriminate.
        -- intros _. split; [intros _; apply covered_nil_l|reflexivity].
      * assert (Hb : drop j b = []) by (apply drop_ge, lookup_ge_None, Eb).
        rewrite Hb. rewrite bool_decide_eq_false_2 by (intros [? ?]; discriminate). simpl.
        split; [|split].
        -- split; [constructor|auto].
        -- intros _. split; [intros _; apply covers_nil_r|reflexivity].
        -- intros _. split; [intros _; apply covered_nil_l|reflexivity].
  - rewrite COMPARE_TYPE_unfold.
    destruct (a !! i) as [x|] eqn:Ea.
    + rewrite (drop_S _ _ _ Ea) in *.
      destruct (b !! j) as [y|] eqn:Eb.
      * rewrite (drop_S _ _ _ Eb) in *. simpl in Hfuel.
        destruct (Z.ltb_spec (c x y) 0) as [Hlt|Hge].
        -- (* [var] is smaller: [rOther] does not cover, [*this] moves on *)
           destruct (Z.gtb_spec (c x y) 0); [lia|].
           destruct (Z.leb_spec (c x y) 0); [|lia].
           destruct (Z.geb_spec (c x y) 0); [lia|].
           destruct (IH (S i) j bI false) as (cI & cO & Hrun & _ & HI & _).
           { rewrite (drop_S _ _ _ Eb). simpl. lia. }
           rewrite (drop_S _ _ _ Eb) in HI.
           exists cI, false. rewrite Hrun, andb_false_r. simpl.
           split; [reflexivity|]. split; [|split].
           ++ split; [intros [_ ?]; discriminate|].
              intros Hf. inversion Hf; subst. lia.
           ++ intros Hs. rewrite (HI (sorted_by_tail _ _ Hs)).
              symmetry. apply covers_skip. lia.
           ++ intros Hs. split; [discriminate|].
              intros Hf. exfalso. eapply covered_none; eauto.
        -- destruct (Z.gtb_spec (c x y) 0) as [Hgt|Hle].
           ++ (* [var] is greater: [*this] does not cover, [rOther] moves on *)
              destruct (Z.leb_spec (c x y) 0); [lia|].
              destruct (Z.geb_spec (c x y) 0); [|lia].
              destruct (IH i (S j) false bO) as (cI & cO & Hrun & _ & _ & HO).
              { rewrite (drop_S _ _ _ Ea). simpl. lia. }
              rewrite (drop_S _ _ _ Ea) in HO.
              exists false, cO. rewrite Hrun, andb_false_r. simpl.
              split; [reflexivity|]. split; [|split].
              ** split; [intros [? _]; discriminate|].
                 intros Hf. inversion Hf; subst. lia.
              ** intros Hs. split; [discriminate|].
                 intros Hf. exfalso. apply (covers_none x y _ _ ltac:(lia) Hs Hf).
              ** intros Hs. rewrite (HO (sorted_by_tail _ _ Hs)).
                 symmetry. apply covered_skip. lia.
           ++ (* equal: both move on *)
              assert (E0 : c x y = 0) by lia.
              destruct (Z.leb_spec (c x y) 0); [|lia].
              destruct (Z.geb_spec (c x y) 0); [|lia].
              destruct (IH (S i) (S j) bI bO) as (cI & cO & Hrun & HE & HI & HO); [lia|].
              exists cI, cO. rewrite Hrun.
              split; [reflexivity|]. split; [|split].
              ** rewrite HE. split; [intros Hf; constructor; assumption|].
                 intros Hf. inversion Hf; assumption.
              ** intros Hs. rewrite (HI (sorted_by_tail _ _ Hs)).
                 symmetry. apply covers_match, E0.
              ** intros Hs. rewrite (HO (sorted_by_tail _ _ Hs)).
                 symmetry. apply covered_match, E0.
      * assert (Hb : drop j b = []) by (apply drop_ge, lookup_ge_None, Eb).
        rewrite Hb. exists true, false. rewrite andb_true_r, andb_false_r.
        split; [reflexivity|]. split; [|split].
        -- split; [intros [_ ?]; discriminate|intros Hf; inversion Hf].
        -- intros _. split; [intros _; apply covers_nil_r|reflexivity].
        -- intros _. split; [discriminate|intros Hf; exfalso; eapply covered_nil_r, Hf].
    + assert (Ha : drop i a = []) by (apply drop_ge, lookup_ge_None, Ea).
      exists (negb (bool_decide (is_Some (b !! j)))), true.
      rewrite Ha, andb_true_r.
      split; [destruct (bool_decide (is_Some (b !! j))), bI; reflexivity|].
      destruct (b !! j) as [y|] eqn:Eb.
      * rewrite (drop_S _ _ _ Eb).
        rewrite bool_decide_eq_true_2 by eauto. simpl.
        split; [|split].
        -- split; [intros [? _]; discriminate|intros Hf; inversion Hf].
        -- intros _. split; [discriminate|]. intros Hf. apply covers_nil_l in Hf.
           discriminate.
        -- intros _. split; [intros _; apply covered_nil_l|reflexivity].
      * assert (Hb : drop j b = []) by (apply drop_ge, lookup_ge_None, Eb).
        rewrite Hb. rewrite bool_decide_eq_false_2 by (intros [? ?]; discriminate). simpl.
        split; [|split].
        -- split; [constructor|auto].
        -- intros _. split; [intros _; apply covers_nil_r|reflexivity].
        -- intros _. split; [intros _; apply covered_nil_l|reflexivity].
Qed.

Lemma COMPARE_TYPE_run (a b : list T) (bI bO : bool) :
  exists cI cO : bool,
    IReader.COMPARE_TYPE c (length a + length b) a 0%nat b 0%nat bI bO
      = Some (bI && cI, bO && cO) /\
    ((cI = true /\ cO = true) <-> Forall2 (fun x y => c x y = 0) a b) /\
    (sorted_by c a -> (cI = true <-> covers a b)) /\
    (sorted_by c b -> (cO = true <-> covered a b)).
Proof.
  destruct (COMPARE_TYPE_spec a b (length a + length b) 0%nat 0%nat bI bO) as (cI & cO & H1);
    [rewrite !drop_0; lia|].
  rewrite !drop_0 in H1. exists cI, cO. exact H1.
Qed.

End compare.

Section compare_tx.
Context `{ECC} (r : Rules.t).

Lemma Compare_run (x y : TxVectors.Full) :
  exists cI1 cO1 cI2 cO2 cI3 cO3 : bool,
    IReader.Compare r x y = Some (cI1 && cI2 && cI3, cO1 && cO2 && cO3) /\
    (((cI1 = true /\ cO1 = true) <->
      Forall2 (fun a b => Input.cmp a b = 0)
        (TxVectors.m_vInputs (TxVectors.P x)) (TxVectors.m_vInputs (TxVectors.P y))) /\
     (sorted_by Input.cmp (TxVectors.m_vInputs (TxVectors.P x)) ->
      (cI1 = true <-> covers Input.cmp (TxVectors.m_vInputs (TxVectors.P x))
                                       (TxVectors.m_vInputs (TxVectors.P y)))) /\
     (sorted_by Input.cmp (TxVectors.m_vInputs (TxVectors.P y)) ->
      (cO1 = true <-> covered Input.cmp (TxVectors.m_vInputs (TxVectors.P x))
                                        (TxVectors.m_vInputs (TxVectors.P y))))) /\
    (((cI2 = true /\ cO2 = true) <->
      Forall2 (fun a b => Output.cmp a b = 0)
        (TxVectors.m_vOutputs (TxVectors.P x)) (TxVectors.m_vOutputs (TxVectors.P y))) /\
     (sorted_by Output.cmp (TxVectors.m_vOutputs (TxVectors.P x)) ->
      (cI2 = true <-> covers Output.cmp (TxVectors.m_vOutputs (TxVectors.P x))
                                        (TxVectors.m_vOutputs (TxVectors.P y)))) /\
     (sorted_by Output.cmp (TxVectors.m_vOutputs (TxVectors.P y)) ->
      (cO2 = true <-> covered Output.cmp (TxVectors.m_vOutputs (TxVectors.P x))
                                         (TxVectors.m_vOutputs (TxVectors.P y))))) /\
    (((cI3 = true /\ cO3 = true) <->
      Forall2 (fun a b => TxKernel.cmp r a b = 0)
        (TxVectors.m_vKernels (TxVectors.E x)) (TxVectors.m_vKernels (TxVectors.E y))) /\
     (sorted_by (TxKernel.cmp r) (TxVectors.m_vKernels (TxVectors.E x)) ->
      (cI3 = true <-> covers (TxKernel.cmp r) (TxVectors.m_vKernels (TxVectors.E x))
                                              (TxVectors.m_vKernels (TxVectors.E y)))) /\
     (sorted_by (TxKernel.cmp r) (TxVectors.m_vKernels (TxVectors.E y)) ->
      (cO3 = true <-> covered (TxKernel.cmp r) (TxVectors.m_vKernels (TxVectors.E x))
                                               (TxVectors.m_vKernels (TxVectors.E y))))).
Proof.
  unfold IReader.Compare. cbv zeta.
  destruct (COMPARE_TYPE_run Input.cmp Input.Input_cmp_lawful
              (TxVectors.m_vInputs (TxVectors.P x)) (TxVectors.m_vInputs (TxVectors.P y))
              true true) as (cI1 & cO1 & R1 & S1).
  rewrite R1. simpl.
  destruct (COMPARE_TYPE_run Output.cmp Output.Output_cmp_lawful
              (TxVectors.m_vOutputs (TxVectors.P x)) (TxVectors.m_vOutputs (TxVectors.P y))
              cI1 cO1) as (cI2 & cO2 & R2 & S2).
  rewrite R2. simpl.
  destruct (COMPARE_TYPE_run (TxKernel.cmp r) (TxKernel_cmp_lawful r)
              (TxVectors.m_vKernels (TxVectors.E x)) (TxVectors.m_vKernels (TxVectors.E y))
              (cI1 && cI2) (cO1 && cO2)) as (cI3 & cO3 & R3 & S3).
  rewrite R3.
  exists cI1, cO1, cI2, cO2, cI3, cO3. auto.
Qed.

(** [Compare] always returns, and it reports that each reader covers the
    other exactly when the two transactions hold, position by position,
    inputs, outputs and kernels that compare equal. *)
Theorem Compare_both_cover (x y : TxVectors.Full) :
  exists bICover bOtherCovers : bool,
    IReader.Compare r x y = Some (bICover, bOtherCovers) /\
    ((bICover = true /\ bOtherCovers = true) <->
     Forall2 (fun a b => Input.cmp a b = 0)
       (TxVectors.m_vInputs (TxVectors.P x)) (TxVectors.m_vInputs (TxVectors.P y)) /\
     Forall2 (fun a b => Output.cmp a b = 0)
       (TxVectors.m_vOutputs (TxVectors.P x)) (TxVectors.m_vOutputs (TxVectors.P y)) /\
     Forall2 (fun a b => TxKernel.cmp r a b = 0)
       (TxVectors.m_vKernels (TxVectors.E x)) (TxVectors.m_vKernels (TxVectors.E y))).
Proof.
  destruct (Compare_run x y) as
      (cI1 & cO1 & cI2 & cO2 & cI3 & cO3 & Hrun & (E1 & _) & (E2 & _) & (E3 & _)).
  eexists _, _. split; [exact Hrun|].
  rewrite <- E1, <- E2, <- E3, !andb_true_iff. tauto.
Qed.

(** On transactions whose vectors are sorted, as [Normalize] leaves them,
    [bICover] says that the inputs, the outputs and the kernels of [*this]
    cover those of the other reader - every element of the other is matched
    by an element of its own that compares equal - and [bOtherCovers] says
    the converse. *)
Theorem Compare_covers (x y : TxVectors.Full) :
  sorted_by Input.cmp (TxVectors.m_vInputs (TxVectors.P x)) ->
  sorted_by Output.cmp (TxVectors.m_vOutputs (TxVectors.P x)) ->
  sorted_by (TxKernel.cmp r) (TxVectors.m_vKernels (TxVectors.E x)) ->
  sorted_by Input.cmp (TxVectors.m_vInputs (TxVectors.P y)) ->
  sorted_by Output.cmp (TxVectors.m_vOutputs (TxVectors.P y)) ->
  sorted_by (TxKernel.cmp r) (TxVectors.m_vKernels (TxVectors.E y)) ->
  exists bICover bOtherCovers : bool,
    IReader.Compare r x y = Some (bICover, bOtherCovers) /\
    (bICover = true <->
     covers Input.cmp (TxVectors.m_vInputs (TxVectors.P x))
                      (TxVectors.m_vInputs (TxVectors.P y)) /\
     covers Output.cmp (TxVectors.m_vOutputs (TxVectors.P x))
                       (TxVectors.m_vOutputs (TxVectors.P y)) /\
     covers (TxKernel.cmp r) (TxVectors.m_vKernels (TxVectors.E x))
                             (TxVectors.m_vKernels (TxVectors.E y))) /\
    (bOtherCovers = true <->
     covered Input.cmp (TxVectors.m_vInputs (TxVectors.P x))
                       (TxVectors.m_vInputs (TxVectors.P y)) /\
     covered Output.cmp (TxVectors.m_vOutputs (TxVectors.P x))
                        (TxVectors.m_vOutputs (TxVectors.P y)) /\
     covered (TxKernel.cmp r) (TxVectors.m_vKernels (TxVectors.E x))
                              (TxVectors.m_vKernels (TxVectors.E y))).
Proof.
  intros SIx SOx SKx SIy SOy SKy.
  destruct (Compare_run x y) as
      (cI1 & cO1 & cI2 & cO2 & cI3 & cO3 & Hrun &
       (_ & I1 & O1) & (_ & I2 & O2) & (_ & I3 & O3)).
  eexists _, _. split; [exact Hrun|].
  rewrite <- (I1 SIx), <- (I2 SOx), <- (I3 SKx), <- (O1 SIy), <- (O2 SOy), <- (O3 SKy).
  rewrite !andb_true_iff. tauto.
Qed.

End compare_tx.

(** ** The history of states *)

(** The invariant of the [std::map]: the heights grow strictly along the
    entries. *)
Definition sorted_keys (m : list (Z * SystemState.Full)) : Prop :=
  StronglySorted (fun a b : Z * SystemState.Full => a.1 < b.1) m.

Lemma find_filter (Q : Z * SystemState.Full -> Prop) `{forall e, Decision (Q e)}
    (P : Z -> Prop) (m : list (Z * SystemState.Full)) (k : Z) :
  (forall e, Q e <-> P e.1) ->
  (P k -> HistoryMap.find (filter Q m) k = HistoryMap.find m k) /\
  (~ P k -> HistoryMap.find (filter Q m) k = None).
Proof.
  intros HQ. induction m as [|[k0 s0] m [IH1 IH2]].
  - split; reflexivity.
  - rewrite filter_cons.
    destruct (decide (Q (k0, s0))) as [Hp|Hn]; cbn [HistoryMap.find].
    + apply HQ in Hp. simpl in Hp.
      destruct (Z.eqb_spec k0 k) as [->|Hne]; [|auto].
      split; [reflexivity|contradiction].
    + rewrite HQ in Hn. simpl in Hn.
      destruct (Z.eqb_spec k0 k) as [->|Hne]; [|auto].
      split; [contradiction|auto].
Qed.

Lemma filter_all {A} (Q : A -> Prop) `{forall e, Decision (Q e)} (m : list A) :
  Forall Q m -> filter Q m = m.
Proof.
  induction 1 as [|e m He _ IH]; [reflexivity|].
  rewrite filter_cons, decide_True by assumption. f_equal. exact IH.
Qed.

Lemma filter_none {A} (Q : A -> Prop) `{forall e, Decision (Q e)} (m : list A) :
  Forall (fun e => ~ Q e) m -> filter Q m = [].
Proof.
  induction 1 as [|e m He _ IH]; [reflexivity|].
  rewrite filter_cons, decide_False by assumption. exact IH.
Qed.

Lemma sorted_keys_filter (Q : Z * SystemState.Full -> Prop) `{forall e, Decision (Q e)}
    (m : list (Z * SystemState.Full)) :
  sorted_keys m -> sorted_keys (filter Q m).
Proof. apply sublist_StronglySorted, sublist_filter. Qed.

(** *** [m_Map[h] = s] and [find] *)

Lemma find_assign (m : list (Z * SystemState.Full)) (h k : Z) (s : SystemState.Full) :
  HistoryMap.find (HistoryMap.assign m h s) k =
  if h =? k then Some s else HistoryMap.find m k.
Proof.
  induction m as [|[k0 s0] m IH]; simpl.
  - reflexivity.
  - destruct (Z.ltb_spec h k0); simpl.
    + reflexivity.
    + destruct (Z.eqb_spec h k0) as [->|Hne]; simpl.
      * destruct (Z.eqb_spec k0 k); reflexivity.
      * rewrite IH. destruct (Z.eqb_spec k0 k) as [->|]; [|reflexivity].
        destruct (Z.eqb_spec h k); [lia|reflexivity].
Qed.

Lemma assign_keys (m : list (Z * SystemState.Full)) (h : Z) (s : SystemState.Full) (e : Z * SystemState.Full) :
  e ∈ HistoryMap.assign m h s -> e.1 = h \/ e ∈ m.
Proof.
  induction m as [|[k0 s0] m IH]; simpl.
  - intros ->%list_elem_of_singleton. auto.
  - destruct (Z.ltb_spec h k0).
    + intros [->|He]%elem_of_cons; auto.
    + destruct (Z.eqb_spec h k0) as [->|Hne].
      * intros [->|He]%elem_of_cons; [auto|]. right. right. exact He.
      * intros [->|He]%elem_of_cons; [right; left|].
        destruct (IH He); [auto|]. right. right. assumption.
Qed.

Lemma sorted_keys_assign (m : list (Z * SystemState.Full)) (h : Z) (s : SystemState.Full) :
  sorted_keys m -> sorted_keys (HistoryMap.assign m h s).
Proof.
  unfold sorted_keys. induction m as [|[k0 s0] m IH]; simpl; intros Hs.
  - repeat constructor.
  - apply StronglySorted_cons in Hs. destruct Hs as [Hall Hs].
    destruct (Z.ltb_spec h k0).
    + constructor; [constructor; assumption|].
      constructor; [simpl; lia|].
      eapply Forall_impl; [exact Hall|]. simpl. intros; lia.
    + destruct (Z.eqb_spec h k0) as [->|Hne].
      * constructor; assumption.
      * constructor; [apply IH, Hs|].
        apply Forall_forall. intros e He.
        destruct (assign_keys _ _ _ _ He) as [E|Hin]; [simpl; lia|].
        rewrite Forall_forall in Hall. apply Hall, Hin.
Qed.

Lemma AddStates_snoc (m : list (Z * SystemState.Full)) (l : list SystemState.Full) (s : SystemState.Full) :
  HistoryMap.AddStates m (l ++ [s]) =
  HistoryMap.assign (HistoryMap.AddStates m l) (SystemState.m_Height s) s.
Proof. unfold HistoryMap.AddStates. rewrite fold_left_app. reflexivity. Qed.

(** [AddStates] keeps the heights of the map in order, and [get_At] then
    finds at a height the last of the states added with that height, or else
    what the map held. *)
Theorem AddStates_get_At (m : list (Z * SystemState.Full)) (pS : list SystemState.Full) (h : Z) :
  sorted_keys m ->
  sorted_keys (HistoryMap.AddStates m pS) /\
  HistoryMap.get_At (HistoryMap.AddStates m pS) h =
    match last (filter (fun s => SystemState.m_Height s = h) pS) with
    | Some s => Some s
    | None => HistoryMap.get_At m h
    end.
Proof.
  intros Hs. induction pS as [|s l [IH1 IH2]] using rev_ind.
  - split; [exact Hs|reflexivity].
  - rewrite AddStates_snoc. split; [apply sorted_keys_assign, IH1|].
    unfold HistoryMap.get_At in *. rewrite find_assign, filter_app.
    destruct (Z.eqb_spec (SystemState.m_Height s) h) as [E|Hne].
    + rewrite filter_cons_True by exact E. rewrite filter_nil, last_snoc. reflexivity.
    + rewrite filter_cons_False by exact Hne. rewrite filter_nil, app_nil_r. exact IH2.
Qed.

(** *** [DeleteFrom] *)

Lemma sorted_keys_snoc (m : list (Z * SystemState.Full)) (e : Z * SystemState.Full) :
  sorted_keys (m ++ [e]) ->
  sorted_keys m /\ Forall (fun x : Z * SystemState.Full => x.1 < e.1) m.
Proof.
  unfold sorted_keys. rewrite StronglySorted_app. intros (H1 & H2 & _).
  split; [exact H2|]. apply Forall_forall. intros x Hx. apply H1; [exact Hx|left].
Qed.

Lemma DeleteFrom_loop_filter (fuel : nat) (m : list (Z * SystemState.Full)) (h : Z) :
  (length m <= fuel)%nat -> sorted_keys m ->
  HistoryMap.DeleteFrom_loop fuel m h = filter (fun e : Z * SystemState.Full => e.1 < h) m.
Proof.
  revert m. induction fuel as [|fuel IH]; intros m Hlen Hs.
  - destruct m; [reflexivity|simpl in Hlen; lia].
  - simpl. destruct (last m) as [[k s]|] eqn:El.
    + apply last_Some in El. destruct El as [m' ->].
      apply sorted_keys_snoc in Hs. destruct Hs as [Hs Hall]. simpl in Hall.
      destruct (Z.ltb_spec k h).
      * symmetry. apply filter_all.
        apply Forall_app. split; [|repeat constructor; simpl; lia].
        eapply Forall_impl; [exact Hall|]. simpl. intros; lia.
      * rewrite removelast_last, filter_app.
        rewrite (filter_none _ [(k, s)]) by (repeat constructor; simpl; lia).
        rewrite app_nil_r. apply IH; [|exact Hs].
        rewrite length_app in Hlen. simpl in Hlen. lia.
    + apply last_None in El. subst m. reflexivity.
Qed.

(** [DeleteFrom(h)] erases exactly the states at height [h] and above. *)
Theorem DeleteFrom_erases_from (m : list (Z * SystemState.Full)) (h k : Z) :
  sorted_keys m ->
  sorted_keys (HistoryMap.DeleteFrom m h) /\
  HistoryMap.get_At (HistoryMap.DeleteFrom m h) k =
    if k <? h then HistoryMap.get_At m k else None.
Proof.
  intros Hs. unfold HistoryMap.DeleteFrom, HistoryMap.get_At.
  rewrite DeleteFrom_loop_filter by auto.
  split; [apply sorted_keys_filter, Hs|].
  destruct (find_filter (fun e => e.1 < h) (fun k => k < h) m k ltac:(reflexivity))
    as [F1 F2].
  destruct (Z.ltb_spec k h); [apply F1|apply F2]; lia.
Qed.

(** *** [ShrinkToWindow] *)

Lemma ShrinkToWindow_loop_filter (m : list (Z * SystemState.Full)) (h0 : Z) (top : Z * SystemState.Full) :
  sorted_keys m -> last m = Some top -> h0 < top.1 ->
  HistoryMap.ShrinkToWindow_loop m h0 =
  Some (filter (fun e : Z * SystemState.Full => h0 < e.1) m).
Proof.
  unfold sorted_keys. induction m as [|[k s] m IH]; intros Hs Hl Ht; [discriminate|].
  apply StronglySorted_cons in Hs. destruct Hs as [Hall Hs]. simpl.
  destruct (Z.gtb_spec k h0) as [Hgt|Hle].
  - f_equal. symmetry. apply filter_all.
    constructor; [simpl; lia|].
    eapply Forall_impl; [exact Hall|]. simpl. intros; lia.
  - rewrite filter_cons, decide_False by (simpl; lia).
    destruct m as [|e m]; [simpl in Hl; injection Hl as <-; simpl in Ht; lia|].
    apply IH; [exact Hs| |exact Ht].
    rewrite last_cons_cons in Hl. exact Hl.
Qed.

Lemma ShrinkToWindow_loop_fails (m : list (Z * SystemState.Full)) (h0 : Z) :
  Forall (fun e : Z * SystemState.Full => e.1 <= h0) m ->
  HistoryMap.ShrinkToWindow_loop m h0 = None.
Proof.
  induction 1 as [|[k s] m Hk _ IH]; [reflexivity|]. simpl in *.
  destruct (Z.gtb_spec k h0); [lia|exact IH].
Qed.

Lemma sorted_keys_below_last (m : list (Z * SystemState.Full)) (top : Z * SystemState.Full) :
  sorted_keys m -> last m = Some top ->
  Forall (fun e : Z * SystemState.Full => e.1 <= top.1) m.
Proof.
  intros Hs Hl. apply last_Some in Hl. destruct Hl as [m' ->].
  apply sorted_keys_snoc in Hs. destruct Hs as [_ Hall].
  apply Forall_app. split; [|repeat constructor; lia].
  eapply Forall_impl; [exact Hall|]. simpl. intros; lia.
Qed.

(** [ShrinkToWindow(dh)] on a map whose last height is [top]: nothing
    changes when the map is empty or [top <= dh]; otherwise, for a positive
    [dh], exactly the states above [top - dh] stay, the last one among them;
    and with [dh = 0] the loop erases every state and runs into its
    assertion on the empty map. *)
Theorem ShrinkToWindow_keeps_window (m : list (Z * SystemState.Full)) (dh k : Z) :
  sorted_keys m -> is_u64 dh -> Forall (fun e : Z * SystemState.Full => is_u64 e.1) m ->
  match last m with
  | None => HistoryMap.ShrinkToWindow m dh = Some m
  | Some (top, s) =>
      (top <= dh -> HistoryMap.ShrinkToWindow m dh = Some m) /\
      (0 < dh < top ->
       exists m', HistoryMap.ShrinkToWindow m dh = Some m' /\
                  sorted_keys m' /\ last m' = Some (top, s) /\
                  HistoryMap.get_At m' k =
                    if k >? top - dh then HistoryMap.get_At m k else None) /\
      (dh = 0 -> 0 < top -> HistoryMap.ShrinkToWindow m dh = None)
  end.
Proof.
  intros Hs Hdh Hkeys. unfold HistoryMap.ShrinkToWindow, is_u64 in *.
  destruct (last m) as [[top s]|] eqn:El; [|reflexivity].
  assert (Htop : 0 <= top < 2 ^ 64).
  { rewrite Forall_forall in Hkeys. apply (Hkeys (top, s)).
    apply last_Some in El. destruct El as [m' ->]. apply elem_of_app. right. left. }
  split; [|split].
  - intros Hle. destruct (Z.leb_spec top dh); [reflexivity|lia].
  - intros Hw. destruct (Z.leb_spec top dh); [lia|].
    rewrite wrap64_small by lia.
    rewrite (ShrinkToWindow_loop_filter m (top - dh) (top, s)) by (auto; simpl; lia).
    eexists. split; [reflexivity|].
    split; [apply sorted_keys_filter, Hs|]. split.
    + apply last_Some in El. destruct El as [m' ->].
      rewrite filter_app, filter_cons, decide_True by (simpl; lia). simpl.
      apply last_snoc.
    + unfold HistoryMap.get_At.
      destruct (find_filter (fun e => top - dh < e.1) (fun k => top - dh < k) m k
                  ltac:(reflexivity)) as [F1 F2].
      destruct (Z.gtb_spec k (top - dh)); [apply F1|apply F2]; lia.
  - intros -> Hpos. destruct (Z.leb_spec top 0); [lia|].
    rewrite wrap64_small by lia. apply ShrinkToWindow_loop_fails.
    replace (top - 0) with top by lia.
    apply (sorted_keys_below_last m (top, s)); assumption.
Qed.

(** *** [Enum] and [get_Tip] *)

Lemma before_lower_bound_filter (m : list (Z * SystemState.Full)) (h : Z) :
  sorted_keys m ->
  HistoryMap.before_lower_bound m h = filter (fun e : Z * SystemState.Full => e.1 < h) m.
Proof.
  unfold sorted_keys. induction m as [|[k s] m IH]; intros Hs; [reflexivity|].
  apply StronglySorted_cons in Hs. destruct Hs as [Hall Hs]. simpl.
  rewrite filter_cons. simpl.
  destruct (Z.ltb_spec k h).
  - rewrite decide_True by assumption. f_equal. apply IH, Hs.
  - rewrite decide_False by lia. symmetry. apply filter_none.
    eapply Forall_impl; [exact Hall|]. simpl. intros; lia.
Qed.

(** [Enum] hands to the walker the states below [*pBelow] (all of them for a
    null pointer), from the highest down, until the walker stops it; and
    [get_Tip] returns the state of the greatest height, or false for an
    empty map, with the state it was given zeroed: every member zero and
    every element of the index array, which keeps its size, zero. *)
Theorem Enum_descends (S : Type) (OnState : SystemState.Full -> S -> bool * S)
    (m : list (Z * SystemState.Full)) (w : S) (h : Z) (s0 : SystemState.Full) :
  sorted_keys m ->
  HistoryMap.Enum OnState m w (Some h) =
    HistoryMap.Enum_loop OnState
      (rev (filter (fun e : Z * SystemState.Full => e.1 < h) m)) w /\
  HistoryMap.Enum OnState m w None = HistoryMap.Enum_loop OnState (rev m) w /\
  HistoryMap.get_Tip m s0 =
    match last m with
    | Some (_, s) => (true, s)
    | None =>
        (false, SystemState.mkFull 0 0 0 0 0 0 0 0
                  (repeat 0 (length (SystemState.m_PoW_Indices s0))))
    end.
Proof.
  intros Hs. unfold HistoryMap.Enum.
  rewrite before_lower_bound_filter by assumption.
  split; [reflexivity|]. split; [reflexivity|].
  unfold HistoryMap.get_Tip, HistoryMap.Enum.
  destruct (last m) as [[k s]|] eqn:El.
  - apply last_Some in El. destruct El as [m' ->].
    rewrite rev_app_distr. reflexivity.
  - apply last_None in El. subst m. reflexivity.
Qed.

(** ** System states *)

Lemma cmp_list_eq (l1 l2 : list Z) : cmp_list CMP_SIMPLE l1 l2 = 0 <-> l1 = l2.
Proof.
  revert l2. induction l1 as [|x l1 IH]; intros [|y l2]; simpl; try (split; [lia|discriminate]).
  - tauto.
  - unfold cmp_seq. destruct (Z.eqb_spec (CMP_SIMPLE x y) 0) as [E|E].
    + pose proof (proj1 (CMP_SIMPLE_eq x y) E) as ->. rewrite IH. split; congruence.
    + split; [lia|]. intros [= -> _]. exfalso. apply E, CMP_SIMPLE_eq. reflexivity.
Qed.

Lemma cmp_seq_zero (n k : Z) : n ;;; k = 0 <-> n = 0 /\ k = 0.
Proof. unfold cmp_seq. destruct (Z.eqb_spec n 0); lia. Qed.

Lemma SystemState_cmp_lawful : Lawful SystemState.cmp.
Proof.
  unfold SystemState.cmp.
  repeat first
    [ apply (LawfulOn_key SystemState.m_Height (fun _ => True)), Lawful_CMP_SIMPLE
    | apply (LawfulOn_key SystemState.m_Kernels (fun _ => True)), Lawful_uintBig_cmp
    | apply (LawfulOn_key SystemState.m_Definition (fun _ => True)), Lawful_uintBig_cmp
    | apply (LawfulOn_key SystemState.m_Prev (fun _ => True)), Lawful_uintBig_cmp
    | apply (LawfulOn_key SystemState.m_ChainWork (fun _ => True)), Lawful_uintBig_cmp
    | apply (LawfulOn_key SystemState.m_TimeStamp (fun _ => True)), Lawful_CMP_SIMPLE
    | apply (LawfulOn_key SystemState.m_PoW_Difficulty_Packed (fun _ => True)),
        Lawful_CMP_SIMPLE
    | apply (LawfulOn_key SystemState.m_PoW_Nonce (fun _ => True)), Lawful_uintBig_cmp
    | apply LawfulOn_seq ].
  - eapply LawfulOn_weaken;
      [|apply (LawfulOn_key SystemState.m_PoW_Indices (Forall (fun _ => True))),
               LawfulOn_list, Lawful_CMP_SIMPLE].
    intros a _. apply Forall_True.
  - apply LawfulOn_zero.
Qed.

(** [Full::cmp] orders the states: it is three-valued, antisymmetric and
    transitive, and it returns 0 only for two states that are equal in every
    member. *)
Theorem SystemState_cmp_total_order (a b c : SystemState.Full) :
  (SystemState.cmp a b = -1 \/ SystemState.cmp a b = 0 \/ SystemState.cmp a b = 1) /\
  SystemState.cmp b a = - SystemState.cmp a b /\
  (SystemState.cmp a b <= 0 -> SystemState.cmp b c <= 0 -> SystemState.cmp a c <= 0) /\
  (SystemState.cmp a b = 0 <-> a = b).
Proof.
  pose proof SystemState_cmp_lawful as [L1 L2 L3].
  split; [apply L1; exact I|]. split; [apply L2; exact I|].
  split; [apply L3; exact I|].
  split.
  - unfold SystemState.cmp, uintBig_cmp. rewrite !cmp_seq_zero, !CMP_SIMPLE_eq, cmp_list_eq.
    destruct a, b. simpl. intros (-> & -> & -> & -> & -> & -> & -> & -> & -> & _).
    reflexivity.
  - intros ->. apply (law_refl _ _ b SystemState_cmp_lawful I).
Qed.

Section states.
Context `{HashProcessor} (r : Rules.t).

(** [NextPrefix] turns a state into the prefix of its successor: [IsNext]
    accepts it after the state it was made from, the members other than the
    height and the previous hash stay, and it is sane unless the height has
    wrapped around - also when it is made from the zero state before
    genesis. *)
Theorem NextPrefix_IsNext (s : SystemState.Full) :
  is_u64 (SystemState.m_Height s) ->
  SystemState.IsNext r s (SystemState.NextPrefix r s) = true /\
  SystemState.IsSane r (SystemState.NextPrefix r s) =
    negb (SystemState.m_Height s =? MaxHeight) /\
  SystemState.m_Prev (SystemState.NextPrefix r s) = SystemState.get_Hash r s /\
  (SystemState.m_Height s < Rules.HeightGenesis ->
   SystemState.m_Prev (SystemState.NextPrefix r s) = Rules.Prehistoric r).
Proof.
  intros Hh. unfold is_u64 in Hh. split; [|split; [|split]].
  - unfold SystemState.IsNext, SystemState.NextPrefix. simpl.
    rewrite !Z.eqb_refl. reflexivity.
  - unfold SystemState.IsSane, SystemState.NextPrefix. simpl.
    change Rules.HeightGenesis with 1. unfold MaxHeight.
    destruct (Z.eqb_spec (SystemState.m_Height s) (2 ^ 64 - 1)) as [E|E].
    + rewrite E. reflexivity.
    + rewrite wrap64_small by lia.
      destruct (Z.ltb_spec (SystemState.m_Height s + 1) 1); [lia|].
      destruct (Z.eqb_spec (SystemState.m_Height s + 1) 1) as [E1|E1]; [|reflexivity].
      unfold SystemState.get_Hash. change Rules.HeightGenesis with 1.
      destruct (Z.geb_spec (SystemState.m_Height s) 1); [lia|].
      rewrite Z.eqb_refl. reflexivity.
  - reflexivity.
  - intros Hlt. unfold SystemState.NextPrefix, SystemState.get_Hash. simpl.
    destruct (Z.geb_spec (SystemState.m_Height s) Rules.HeightGenesis); [lia|reflexivity].
Qed.

Lemma FindFork_from_set_Fork_Hash (i : nat) (hv : uintBig) (h : Z) (n : nat) :
  Forks.FindFork_from (Rules.set_Fork_Hash r i hv) h n = Forks.FindFork_from r h n.
Proof.
  induction n as [|n IH]; simpl; [reflexivity|].
  rewrite Fork_Height_set_Fork_Hash, IH. reflexivity.
Qed.

Lemma FindFork_set_Fork_Hash (i : nat) (hv : uintBig) (h : Z) :
  Forks.FindFork (Rules.set_Fork_Hash r i hv) h = Forks.FindFork r h.
Proof.
  unfold Forks.FindFork. rewrite FindFork_from_set_Fork_Hash. f_equal.
  unfold Rules.set_Fork_Hash. simpl. apply length_alter.
Qed.

Lemma FindFork_below_fork2 (h : Z) :
  Rules.IsForkHeightsConsistent r = true -> 0 <= h -> h < Rules.Fork_Height r 2 ->
  (Forks.FindFork r h < 2)%nat.
Proof.
  intros Hc Hh Hlt. destruct (forks_monotone r Hc) as [H0 Hmono].
  destruct (FindFork_from_spec r h (length (Rules.pForks r))) as (B & _ & At).
  fold (Forks.FindFork r h) in B, At. specialize (At ltac:(lia)).
  destruct (le_lt_dec 2 (Forks.FindFork r h)) as [Hge|]; [|assumption].
  specialize (Hmono 2%nat (Forks.FindFork r h) ltac:(lia)). lia.
Qed.

(** The hash of a state below fork 2 does not depend on the hashes of the
    forks: with consistent fork heights, writing a fork hash leaves it as it
    was. *)
Lemma get_Hash_below_fork2 (s : SystemState.Full) (i : nat) (hv : uintBig) :
  Rules.IsForkHeightsConsistent r = true ->
  0 <= SystemState.m_Height s -> SystemState.m_Height s < Rules.Fork_Height r 2 ->
  SystemState.get_Hash (Rules.set_Fork_Hash r i hv) s = SystemState.get_Hash r s /\
  SystemState.get_HashForPoW (Rules.set_Fork_Hash r i hv) s = SystemState.get_HashForPoW r s.
Proof.
  intros Hc Hh Hlt. pose proof (FindFork_below_fork2 _ Hc Hh Hlt) as Hf.
  unfold SystemState.get_Hash, SystemState.get_HashForPoW, SystemState.get_HashInternal.
  rewrite !FindFork_set_Fork_Hash.
  destruct (Nat.leb_spec 2 (Forks.FindFork r (SystemState.m_Height s))); [lia|].
  split; reflexivity.
Qed.

End states.

Lemma forallb_eq {A} (f g : A -> bool) (l : list A) :
  (forall x, f x = g x) -> forallb f l = forallb g l.
Proof. intros E. induction l as [|x l IH]; simpl; [reflexivity|]. rewrite E, IH. reflexivity. Qed.

Lemma IsForkHeightsConsistent_set_Fork_Hash (r : Rules.t) (i : nat) (hv : uintBig) :
  Rules.IsForkHeightsConsistent (Rules.set_Fork_Hash r i hv) =
  Rules.IsForkHeightsConsistent r.
Proof.
  unfold Rules.IsForkHeightsConsistent. rewrite Fork_Height_set_Fork_Hash.
  destruct (negb (Rules.Fork_Height r 0 =? wrap64 (Rules.HeightGenesis - 1))); [reflexivity|].
  replace (length (Rules.pForks (Rules.set_Fork_Hash r i hv))) with (length (Rules.pForks r))
    by (unfold Rules.set_Fork_Hash; simpl; symmetry; apply length_alter).
  apply forallb_eq. intros j. rewrite !Fork_Height_set_Fork_Hash. reflexivity.
Qed.

(** [UpdateChecksum] does not change the hash of any state below fork 2:
    the hashes it writes to the forks enter the hash of a state from fork 2
    on only. *)
Theorem UpdateChecksum_keeps_early_hashes `{ECC} `{HashProcessor}
    (b : Rules.Build) (r r' : Rules.t) (s : SystemState.Full) :
  Rules.UpdateChecksum b r = inr r' ->
  0 <= SystemState.m_Height s -> SystemState.m_Height s < Rules.Fork_Height r 2 ->
  SystemState.get_Hash r' s = SystemState.get_Hash r s /\
  SystemState.get_HashForPoW r' s = SystemState.get_HashForPoW r s.
Proof.
  intros Hrun Hh Hlt. unfold Rules.UpdateChecksum in Hrun.
  destruct (Rules.IsForkHeightsConsistent r) eqn:Hc; [|discriminate].
  cbn [negb] in Hrun. cbv iota in Hrun.
  destruct (Oracle_squeeze (Rules.absorb_all Oracle_new (Rules.absorbed0 b r))) as [h0 o0].
  destruct (Oracle_squeeze (Rules.absorb_all o0 (Rules.absorbed1 (Rules.set_Fork_Hash r 0 h0))))
    as [h1 o1].
  destruct (Oracle_squeeze
              (Rules.absorb_all o1
                 (Rules.absorbed2 (Rules.set_Fork_Hash (Rules.set_Fork_Hash r 0 h0) 1 h1))))
    as [h2 o2].
  assert (E : r' = Rules.set_Fork_Hash
                     (Rules.set_Fork_Hash (Rules.set_Fork_Hash r 0 h0) 1 h1) 2 h2)
    by congruence.
  subst r'. clear Hrun.
  set (r1 := Rules.set_Fork_Hash r 0 h0). set (r2 := Rules.set_Fork_Hash r1 1 h1).
  assert (C1 : Rules.IsForkHeightsConsistent r1 = true)
    by (unfold r1; rewrite IsForkHeightsConsistent_set_Fork_Hash; exact Hc).
  assert (C2 : Rules.IsForkHeightsConsistent r2 = true)
    by (unfold r2; rewrite IsForkHeightsConsistent_set_Fork_Hash; exact C1).
  assert (F1 : Rules.Fork_Height r1 2 = Rules.Fork_Height r 2)
    by apply Fork_Height_set_Fork_Hash.
  assert (F2 : Rules.Fork_Height r2 2 = Rules.Fork_Height r 2)
    by (unfold r2; rewrite Fork_Height_set_Fork_Hash; exact F1).
  destruct (get_Hash_below_fork2 r2 s 2 h2 C2 Hh ltac:(lia)) as [A1 A2].
  destruct (get_Hash_below_fork2 r1 s 1 h1 C1 Hh ltac:(lia)) as [B1 B2].
  destruct (get_Hash_below_fork2 r s 0 h0 Hc Hh Hlt) as [D1 D2].
  fold r1 in D1, D2. fold r2 in B1, B2.
  split; congruence.
Qed.

(** ** Valid kernels *)

Section valid.
Context `{RejectionSampling} (r : Rules.t) (hScheme : Z).

(** [!(a > b)] on kernels *)
Definition krn_le (a b : TxKernel.t) : Prop := TxKernel.cmp r a b <= 0.

Lemma IsValidBase_loop_inv (IV : TxKernel.t -> Native -> bool * Native)
    (l : list TxKernel.t) :
  forall (p0Krn : option TxKernel.t) (e : Native),
    fst (TxKernel.IsValidBase_loop r IV hScheme l p0Krn e) = true ->
    Forall (fun v => exists e', fst (IV v e') = true) l /\
    (hScheme < Rules.Fork_Height r 2 ->
     Sorted krn_le l /\ forall p, p0Krn = Some p -> HdRel krn_le p l).
Proof.
  induction l as [|v l IH]; intros p0Krn e Hok.
  - split; [constructor|]. intros _. split; [constructor|]. intros; constructor.
  - simpl in Hok.
    destruct ((hScheme <? Rules.Fork_Height r 2) &&
              match p0Krn with
              | Some p0 => gt_via_cmp (TxKernel.cmp r) p0 v
              | None => false
              end) eqn:Eord; [discriminate|].
    destruct (IV v e) as [ok e1] eqn:Ev.
    destruct ok; simpl in Hok; [|discriminate].
    destruct (IH (Some v) e1 Hok) as [Hall Hsort].
    split.
    + constructor; [exists e; rewrite Ev; reflexivity|exact Hall].
    + intros Hlt. destruct (Hsort Hlt) as [Hs Hhd].
      split; [constructor; [exact Hs|apply Hhd; reflexivity]|].
      intros p ->. constructor.
      destruct (Z.ltb_spec hScheme (Rules.Fork_Height r 2)); [|lia].
      simpl in Eord. unfold gt_via_cmp in Eord. unfold krn_le.
      destruct (Z.gtb_spec (TxKernel.cmp r p v) 0); [discriminate|lia].
Qed.

Lemma IsValidBase_inv (IV : TxKernel.t -> Native -> option TxKernel.t -> bool * Native)
    (self : TxKernel.t) (exc : Native) (pParent : option TxKernel.t)
    (pComm : option Native) :
  fst (fst (TxKernel.IsValidBase r IV hScheme self exc pParent pComm)) = true ->
  (hScheme < Rules.Fork_Height r 1 -> TxKernel.m_CanEmbed (TxKernel.base self) = false) /\
  (forall p, pParent = Some p ->
     TxKernel.m_CanEmbed (TxKernel.base self) = true /\
     TxKernel.Min self <= TxKernel.Min p /\ TxKernel.Max p <= TxKernel.Max self) /\
  (pParent = None -> Rules.Fork_Height r 2 <= hScheme ->
     Rules.Fork_Height r 2 <= TxKernel.Min self) /\
  Forall (fun v => exists e', fst (IV v e' (Some self)) = true) (TxKernel.m_vNested self) /\
  (hScheme < Rules.Fork_Height r 2 ->
     Sorted krn_le (TxKernel.m_vNested self) /\
     (TxKernel.m_vNested self <> [] -> is_Some pComm)).
Proof.
  unfold TxKernel.IsValidBase. intros Hok.
  destruct ((hScheme <? Rules.Fork_Height r 1) && TxKernel.m_CanEmbed (TxKernel.base self))
    eqn:E1; [discriminate|].
  assert (F1 : hScheme < Rules.Fork_Height r 1 ->
               TxKernel.m_CanEmbed (TxKernel.base self) = false).
  { intros Hlt. destruct (Z.ltb_spec hScheme (Rules.Fork_Height r 1)); [|lia].
    exact E1. }
  destruct (match pParent with
            | Some parent =>
                if negb (TxKernel.m_CanEmbed (TxKernel.base self)) then true
                else (TxKernel.Min self >? TxKernel.Min parent) ||
                     (TxKernel.Max self <? TxKernel.Max parent)
            | None => (hScheme >=? Rules.Fork_Height r 2) &&
                      (TxKernel.Min self <? Rules.Fork_Height r 2)
            end) eqn:E2; [discriminate|].
  split; [exact F1|]. split; [|split].
  - intros p ->.
    destruct (TxKernel.m_CanEmbed (TxKernel.base self)); simpl in E2; [|discriminate].
    destruct (Z.gtb_spec (TxKernel.Min self) (TxKernel.Min p)); [discriminate|].
    destruct (Z.ltb_spec (TxKernel.Max self) (TxKernel.Max p)); [discriminate|].
    split; [reflexivity|lia].
  - intros -> Hge.
    destruct (Z.geb_spec hScheme (Rules.Fork_Height r 2)); [|lia].
    destruct (Z.ltb_spec (TxKernel.Min self) (Rules.Fork_Height r 2)); [discriminate|lia].
  - destruct (TxKernel.m_vNested self) as [|v l] eqn:En.
    { split; [constructor|]. intros _. split; [constructor|congruence]. }
    destruct (TxKernel.IsValidBase_loop r (fun v e => IV v e (Some self)) hScheme
                (v :: l) None Native_Zero) as [ok e1] eqn:El.
    destruct ok; simpl in Hok; [|discriminate].
    pose proof (IsValidBase_loop_inv (fun v e => IV v e (Some self)) (v :: l) None
                  Native_Zero ltac:(rewrite El; reflexivity)) as [Hall Hsort].
    split; [exact Hall|].
    intros Hlt. split; [apply Hsort, Hlt|].
    intros _. destruct (Z.ltb_spec hScheme (Rules.Fork_Height r 2)); [|lia].
    destruct pComm; [eauto|discriminate].
Qed.

(** What [IsValid] of each subtype asks besides [IsValidBase]. *)
Definition subtype_conditions (k : TxKernel.t) : Prop :=
  match TxKernel.body k with
  | TxKernel.BodyStd c _ _ rl =>
      (hScheme < Rules.Fork_Height r 1 -> rl = None) /\
      fst (Native_ImportNnz c) = true
  | TxKernel.BodyAssetEmit _ c _ a v =>
      Rules.Fork_Height r 2 <= hScheme /\ Rules.CA_Enabled r = true /\
      v <> 0 /\ a <> 0 /\ fst (Native_ImportNnz c) = true
  | TxKernel.BodyShieldedOutput _ txo =>
      Rules.Fork_Height r 2 <= hScheme /\ Rules.Shielded_Enabled r = true /\
      fst (Native_ImportNnz (TxKernel.Txo_m_Commitment txo)) = true /\
      Serial_IsValid (TxKernel.Txo_m_Serial txo) = true
  | TxKernel.BodyShieldedInput _ _ _ =>
      Rules.Fork_Height r 2 <= hScheme /\ Rules.Shielded_Enabled r = true
  end.

Lemma IsValid_inv (k : TxKernel.t) (exc : Native) (pParent : option TxKernel.t) :
  fst (TxKernel.IsValid r hScheme k exc pParent) = true ->
  (exists exc' pComm,
     fst (fst (TxKernel.IsValidBase r (TxKernel.IsValid r hScheme) hScheme k exc'
                 pParent pComm)) = true /\
     (TxKernel.get_Subtype k = Subtype.Std <-> is_Some pComm)) /\
  subtype_conditions k.
Proof.
  destruct k as [b n bd]. unfold subtype_conditions, TxKernel.get_Subtype.
  simpl TxKernel.IsValid.
  destruct bd as [c s hl rl|m c s a v|m txo|m w sp]; simpl TxKernel.body; cbv iota beta.
  - unfold TxKernel.TxKernelStd_IsValid.
    destruct ((hScheme <? Rules.Fork_Height r 1) && bool_decide (is_Some rl)) eqn:E0;
      [discriminate|].
    destruct (Native_ImportNnz c) as [ok pt]. destruct ok; simpl negb; cbv iota;
      [|discriminate].
    destruct (TxKernel.IsValidBase r (TxKernel.IsValid r hScheme) hScheme
                (TxKernel.Krn b n (TxKernel.BodyStd c s hl rl)) (Native_add exc pt)
                pParent (Some pt)) as [[ok e] pc] eqn:E.
    destruct ok; simpl negb; cbv iota; [|discriminate].
    intros _. split.
    + exists (Native_add exc pt), (Some pt). rewrite E. split; [reflexivity|].
      split; eauto.
    + split; [|reflexivity]. intros Hlt.
      destruct (Z.ltb_spec hScheme (Rules.Fork_Height r 1)); [|lia].
      destruct rl; [|reflexivity]. simpl in E0. discriminate.
  - unfold TxKernel.TxKernelAssetEmit_IsValid.
    destruct (TxKernel.IsValidBase r (TxKernel.IsValid r hScheme) hScheme
                (TxKernel.Krn b n (TxKernel.BodyAssetEmit m c s a v)) exc
                pParent None) as [[ok e] pc] eqn:E.
    destruct ok; simpl negb; cbv iota; [|discriminate].
    destruct (Z.ltb_spec hScheme (Rules.Fork_Height r 2)); simpl orb; cbv iota;
      [discriminate|].
    destruct (Rules.CA_Enabled r); simpl negb; cbv iota; [|discriminate].
    destruct (Z.eqb_spec v 0); simpl orb; cbv iota; [discriminate|].
    destruct (Z.eqb_spec a 0); cbv iota; [discriminate|].
    destruct (Native_ImportNnz c) as [ok pt]. destruct ok; simpl negb; cbv iota;
      [|discriminate].
    intros _. split.
    + exists exc, None. rewrite E. split; [reflexivity|].
      split; [discriminate|intros [? ?]; discriminate].
    + repeat split; auto; lia.
  - unfold TxKernel.TxKernelShieldedOutput_IsValid.
    destruct (TxKernel.IsValidBase r (TxKernel.IsValid r hScheme) hScheme
                (TxKernel.Krn b n (TxKernel.BodyShieldedOutput m txo)) exc
                pParent None) as [[ok e] pc] eqn:E.
    destruct ok; simpl negb; cbv iota; [|discriminate].
    destruct (Z.ltb_spec hScheme (Rules.Fork_Height r 2)); simpl orb; cbv iota;
      [discriminate|].
    destruct (Rules.Shielded_Enabled r); simpl negb; cbv iota; [|discriminate].
    destruct (Native_ImportNnz (TxKernel.Txo_m_Commitment txo)) as [ok pt].
    destruct ok; simpl negb; cbv iota; [|discriminate].
    destruct (Serial_IsValid (TxKernel.Txo_m_Serial txo)); simpl negb; cbv iota;
      [|discriminate].
    intros _. split.
    + exists exc, None. rewrite E. split; [reflexivity|].
      split; [discriminate|intros [? ?]; discriminate].
    + repeat split; auto; lia.
  - unfold TxKernel.TxKernelShieldedInput_IsValid.
    destruct (TxKernel.IsValidBase r (TxKernel.IsValid r hScheme) hScheme
                (TxKernel.Krn b n (TxKernel.BodyShieldedInput m w sp)) exc
                pParent None) as [[ok e] pc] eqn:E.
    destruct ok; simpl negb; cbv iota; [|discriminate].
    destruct (Z.ltb_spec hScheme (Rules.Fork_Height r 2)); simpl orb; cbv iota;
      [discriminate|].
    destruct (Rules.Shielded_Enabled r); simpl negb; cbv iota; [|discriminate].
    intros _. split.
    + exists exc, None. rewrite E. split; [reflexivity|].
      split; [discriminate|intros [? ?]; discriminate].
    + repeat split; auto; lia.
Qed.

End valid.

Section valid_kernels.
Context `{RejectionSampling} (r : Rules.t) (hScheme : Z).

(** Before fork 1 a valid kernel stands alone: it cannot be embedded, it is
    not validated under a parent, it has no nested kernels and, when
    standard, no relative lock; with fork 1 not after fork 2 it is a
    standard kernel. *)
Theorem valid_before_Fork1 (k : TxKernel.t) (exc : Native) (pParent : option TxKernel.t) :
  fst (TxKernel.IsValid r hScheme k exc pParent) = true ->
  hScheme < Rules.Fork_Height r 1 ->
  TxKernel.m_CanEmbed (TxKernel.base k) = false /\
  pParent = None /\
  TxKernel.m_vNested k = [] /\
  (forall c s hl rl, TxKernel.body k = TxKernel.BodyStd c s hl rl -> rl = None) /\
  (Rules.Fork_Height r 1 <= Rules.Fork_Height r 2 ->
   TxKernel.get_Subtype k = Subtype.Std).
Proof.
  intros Hok Hlt.
  destruct (IsValid_inv r hScheme k exc pParent Hok) as [(e1 & pc & Hb & _) Hsub].
  destruct (IsValidBase_inv r hScheme _ k e1 pParent pc Hb) as (F1 & F2 & _ & Hn & _).
  specialize (F1 Hlt).
  split; [exact F1|]. split; [|split; [|split]].
  - destruct pParent as [p|]; [|reflexivity].
    destruct (F2 p eq_refl) as [E _]. congruence.
  - destruct (TxKernel.m_vNested k) as [|v l]; [reflexivity|].
    inversion Hn as [|? ? [e' Hv] _]; subst.
    destruct (IsValid_inv r hScheme v e' (Some k) Hv) as [(e2 & pc2 & Hb2 & _) _].
    destruct (IsValidBase_inv r hScheme _ v e2 (Some k) pc2 Hb2) as (G1 & G2 & _).
    specialize (G1 Hlt). destruct (G2 k eq_refl) as [E _]. congruence.
  - intros c s hl rl Eb. unfold subtype_conditions in Hsub. rewrite Eb in Hsub.
    apply Hsub, Hlt.
  - intros Hforks. unfold subtype_conditions in Hsub. unfold TxKernel.get_Subtype.
    destruct (TxKernel.body k); [reflexivity|lia|lia|lia].
Qed.

(** A valid kernel that is not standard is validated at or after fork 2 with
    its feature enabled; when it is not nested its minimum height is at or
    after fork 2 too, so that [TxKernel::cmp] orders it by its ID. An asset
    emission moreover has a non-zero value and a non-zero asset ID. *)
Theorem valid_nonstandard (k : TxKernel.t) (exc : Native) (pParent : option TxKernel.t) :
  fst (TxKernel.IsValid r hScheme k exc pParent) = true ->
  TxKernel.get_Subtype k <> Subtype.Std ->
  Rules.Fork_Height r 2 <= hScheme /\
  (pParent = None -> Rules.Fork_Height r 2 <= TxKernel.Min k) /\
  match TxKernel.body k with
  | TxKernel.BodyAssetEmit _ _ _ a v => Rules.CA_Enabled r = true /\ v <> 0 /\ a <> 0
  | _ => Rules.Shielded_Enabled r = true
  end.
Proof.
  intros Hok Hns.
  destruct (IsValid_inv r hScheme k exc pParent Hok) as [(e1 & pc & Hb & _) Hsub].
  destruct (IsValidBase_inv r hScheme _ k e1 pParent pc Hb) as (_ & _ & F3 & _).
  unfold subtype_conditions in Hsub. unfold TxKernel.get_Subtype in Hns.
  destruct (TxKernel.body k); [congruence| | |].
  - destruct Hsub as (H1 & H2 & H3 & H4 & _). auto.
  - destruct Hsub as (H1 & H2 & _). auto.
  - destruct Hsub as (H1 & H2). auto.
Qed.

(** The kernels below [k] in its tree. *)
Definition descendants (k : TxKernel.t) : list TxKernel.t :=
  flat_map postorder (TxKernel.m_vNested k).

Lemma postorder_descendants (k : TxKernel.t) : postorder k = descendants k ++ [k].
Proof. destruct k; reflexivity. Qed.

Lemma valid_descendants_ind (k : TxKernel.t) :
  forall (exc : Native) (pParent : option TxKernel.t),
    fst (TxKernel.IsValid r hScheme k exc pParent) = true ->
    forall v, v ∈ descendants k ->
      TxKernel.m_CanEmbed (TxKernel.base v) = true /\
      TxKernel.Min v <= TxKernel.Min k /\ TxKernel.Max k <= TxKernel.Max v.
Proof.
  induction k as [b n bd IH] using kernel_ind. intros exc pParent Hok v Hv.
  destruct (IsValid_inv r hScheme _ exc pParent Hok) as [(e1 & pc & Hb & _) _].
  destruct (IsValidBase_inv r hScheme _ _ e1 pParent pc Hb) as (_ & _ & _ & Hn & _).
  unfold descendants in Hv. simpl TxKernel.m_vNested in Hv, Hn.
  apply list_elem_of_In, in_flat_map in Hv. destruct Hv as (c & Hc & Hvc).
  apply list_elem_of_In in Hc, Hvc.
  rewrite Forall_forall in Hn, IH.
  destruct (Hn c Hc) as [e' Hvalid].
  destruct (IsValid_inv r hScheme c e' _ Hvalid) as [(e2 & pc2 & Hb2 & _) _].
  destruct (IsValidBase_inv r hScheme _ c e2 _ pc2 Hb2) as (_ & G2 & _).
  destruct (G2 _ eq_refl) as (Ec & Hmin & Hmax).
  rewrite postorder_descendants in Hvc. apply elem_of_app in Hvc.
  destruct Hvc as [Hd|Hself].
  - destruct (IH c Hc e' _ Hvalid v Hd) as (Ev & Hmin' & Hmax').
    split; [exact Ev|lia].
  - apply list_elem_of_singleton in Hself. subst v. auto.
Qed.

(** In a valid kernel every kernel below it in the tree, at any depth, can
    be embedded and has a height range that contains the range of the
    kernel; and the nested kernels are themselves valid under it. *)
Theorem valid_descendants (k : TxKernel.t) (exc : Native) (pParent : option TxKernel.t) :
  fst (TxKernel.IsValid r hScheme k exc pParent) = true ->
  (forall v, v ∈ descendants k ->
     TxKernel.m_CanEmbed (TxKernel.base v) = true /\
     TxKernel.Min v <= TxKernel.Min k /\ TxKernel.Max k <= TxKernel.Max v) /\
  (forall v, v ∈ TxKernel.m_vNested k ->
     exists e', fst (TxKernel.IsValid r hScheme v e' (Some k)) = true).
Proof.
  intros Hok. split; [apply (valid_descendants_ind k exc pParent Hok)|].
  destruct (IsValid_inv r hScheme _ exc pParent Hok) as [(e1 & pc & Hb & _) _].
  destruct (IsValidBase_inv r hScheme _ _ e1 pParent pc Hb) as (_ & _ & _ & Hn & _).
  rewrite Forall_forall in Hn. exact Hn.
Qed.

(** Before fork 2 the nested kernels of a valid kernel are in the order of
    [TxKernel::cmp], and only a standard kernel is valid. *)
Theorem valid_before_Fork2 (k : TxKernel.t) (exc : Native) (pParent : option TxKernel.t) :
  fst (TxKernel.IsValid r hScheme k exc pParent) = true ->
  hScheme < Rules.Fork_Height r 2 ->
  TxKernel.get_Subtype k = Subtype.Std /\
  sorted_by (TxKernel.cmp r) (TxKernel.m_vNested k).
Proof.
  intros Hok Hlt.
  destruct (IsValid_inv r hScheme k exc pParent Hok) as [(e1 & pc & Hb & _) Hsub].
  destruct (IsValidBase_inv r hScheme _ k e1 pParent pc Hb) as (_ & _ & _ & _ & Hs).
  destruct (Hs Hlt) as [Hsorted _].
  split.
  - unfold subtype_conditions in Hsub. unfold TxKernel.get_Subtype.
    destruct (TxKernel.body k); [reflexivity|lia|lia|lia].
  - unfold sorted_by. apply Sorted.Sorted_StronglySorted; [|exact Hsorted].
    intros x y z Hxy Hyz. unfold krn_le in *.
    apply (law_trans _ _ (TxKernel_cmp_lawful r) x y z I I I Hxy Hyz).
Qed.

End valid_kernels.

(** ** Kernel IDs *)

Section kernel_ids.
Context `{KernelHashing}.

(** The kernel without what [UpdateID] writes: the IDs and the messages of
    the kernel and of the kernels nested in it, all set to zero. *)
Fixpoint strip (k : TxKernel.t) : TxKernel.t :=
  match k with
  | TxKernel.Krn b n bd =>
      TxKernel.Krn (KernelID.set_ID b 0) (map strip n) (KernelID.set_Msg bd 0)
  end.

Lemma HashNested_ext (U U' : TxKernel.t -> TxKernel.t) (l l' : list TxKernel.t) :
  map U l = map U' l' ->
  forall hp, KernelID.HashNested U l hp = KernelID.HashNested U' l' hp.
Proof.
  revert l'. induction l as [|x l IH]; intros [|x' l'] E hp; simpl in E; try discriminate.
  - reflexivity.
  - injection E as Ex El. simpl. rewrite Ex. rewrite (IH l' El). reflexivity.
Qed.

Lemma HashNested_snd (U : TxKernel.t -> TxKernel.t) (l : list TxKernel.t) :
  forall hp, snd (KernelID.HashNested U l hp) = map U l.
Proof.
  induction l as [|x l IH]; intros hp; simpl; [reflexivity|].
  specialize (IH (Processor_write (Processor_write hp (DBool false))
                    (DHash (TxKernel.m_Internal_ID (TxKernel.base (U x)))))).
  destruct (KernelID.HashNested U l _) as [hp' l']. simpl in *. congruence.
Qed.

Lemma UpdateID_unfold (k : TxKernel.t) :
  KernelID.UpdateID k =
  match TxKernel.body k with
  | TxKernel.BodyStd c s hl rl => KernelID.TxKernelStd_UpdateID KernelID.UpdateID k c s hl rl
  | _ => KernelID.TxKernelNonStd_UpdateID KernelID.UpdateID k
  end.
Proof. destruct k as [b n [| | |]]; reflexivity. Qed.

Lemma UpdateID_shape (k : TxKernel.t) :
  exists id msg,
    KernelID.UpdateID k =
    TxKernel.Krn (KernelID.set_ID (TxKernel.base k) id)
                 (map KernelID.UpdateID (TxKernel.m_vNested k))
                 (KernelID.set_Msg (TxKernel.body k) msg).
Proof.
  rewrite UpdateID_unfold. destruct k as [b n bd]. simpl TxKernel.body.
  destruct bd as [c s hl rl|m c s a v|m txo|m w sp].
  - unfold KernelID.TxKernelStd_UpdateID. cbv zeta.
    match goal with
    | |- context [KernelID.HashNested ?U ?l ?hp] =>
        pose proof (HashNested_snd U l hp) as Hn;
        destruct (KernelID.HashNested U l hp) as [hp' l']
    end.
    simpl in Hn. subst l'. eexists _, 0. reflexivity.
  - unfold KernelID.TxKernelNonStd_UpdateID, KernelID.UpdateMsg. cbv zeta.
    match goal with
    | |- context [KernelID.HashNested ?U ?l ?hp] =>
        pose proof (HashNested_snd U l hp) as Hn;
        destruct (KernelID.HashNested U l hp) as [hp' l']
    end.
    simpl in Hn. subst l'. eexists _, _. reflexivity.
  - unfold KernelID.TxKernelNonStd_UpdateID, KernelID.UpdateMsg. cbv zeta.
    match goal with
    | |- context [KernelID.HashNested ?U ?l ?hp] =>
        pose proof (HashNested_snd U l hp) as Hn;
        destruct (KernelID.HashNested U l hp) as [hp' l']
    end.
    simpl in Hn. subst l'. eexists _, _. reflexivity.
  - unfold KernelID.TxKernelNonStd_UpdateID, KernelID.UpdateMsg. cbv zeta.
    match goal with
    | |- context [KernelID.HashNested ?U ?l ?hp] =>
        pose proof (HashNested_snd U l hp) as Hn;
        destruct (KernelID.HashNested U l hp) as [hp' l']
    end.
    simpl in Hn. subst l'. eexists _, _. reflexivity.
Qed.

Lemma strip_UpdateID (k : TxKernel.t) : strip (KernelID.UpdateID k) = strip k.
Proof.
  induction k as [b n bd IH] using kernel_ind.
  destruct (UpdateID_shape (TxKernel.Krn b n bd)) as (id & msg & ->).
  simpl. f_equal.
  - rewrite map_map. apply map_ext_Forall. exact IH.
  - destruct bd; reflexivity.
Qed.

Lemma UpdateID_strip (k : TxKernel.t) :
  forall k', strip k = strip k' -> KernelID.UpdateID k = KernelID.UpdateID k'.
Proof.
  induction k as [b n bd IH] using kernel_ind. intros [b' n' bd'] Hs.
  simpl in Hs.
  pose proof (f_equal TxKernel.base Hs) as Eb.
  pose proof (f_equal TxKernel.m_vNested Hs) as En.
  pose proof (f_equal TxKernel.body Hs) as Ebd.
  simpl in Eb, En, Ebd. clear Hs.
  assert (Hn : map KernelID.UpdateID n = map KernelID.UpdateID n').
  { clear -IH En. revert n' En. induction IH as [|x n Hx _ IHn]; intros [|x' n'] En;
      simpl in En; try discriminate; [reflexivity|].
    injection En as Ex En. simpl. f_equal; [apply Hx, Ex|apply IHn, En]. }
  destruct b as [id fee hr ce], b' as [id' fee' hr' ce'].
  unfold KernelID.set_ID in Eb. simpl in Eb. injection Eb as -> -> ->.
  rewrite !UpdateID_unfold. simpl TxKernel.body.
  destruct bd as [c s hl rl|m c s a v|m txo|m w sp],
           bd' as [c' s' hl' rl'|m' c' s' a' v'|m' txo'|m' w' sp'];
    simpl in Ebd; try discriminate.
  - injection Ebd as -> -> -> ->.
    unfold KernelID.TxKernelStd_UpdateID, KernelID.HashBase, TxKernel.Min, TxKernel.Max.
    simpl. rewrite (HashNested_ext _ _ n n' Hn). reflexivity.
  - injection Ebd as -> -> -> ->.
    unfold KernelID.TxKernelNonStd_UpdateID, KernelID.UpdateMsg, KernelID.HashBase,
      TxKernel.Min, TxKernel.Max, TxKernel.get_Subtype.
    simpl. rewrite (HashNested_ext _ _ n n' Hn). reflexivity.
  - injection Ebd as ->.
    unfold KernelID.TxKernelNonStd_UpdateID, KernelID.UpdateMsg, KernelID.HashBase,
      TxKernel.Min, TxKernel.Max, TxKernel.get_Subtype.
    simpl. rewrite (HashNested_ext _ _ n n' Hn). reflexivity.
  - injection Ebd as -> ->.
    unfold KernelID.TxKernelNonStd_UpdateID, KernelID.UpdateMsg, KernelID.HashBase,
      TxKernel.Min, TxKernel.Max, TxKernel.get_Subtype.
    simpl. rewrite (HashNested_ext _ _ n n' Hn). reflexivity.
Qed.

(** [UpdateID] writes nothing but the IDs and the messages of the kernel and
    of the kernels nested in it, and what it writes does not depend on the
    IDs and messages that were there: two kernels that differ in them only
    are the same after [UpdateID]. So [UpdateID] on an updated kernel changes
    nothing. *)
Theorem UpdateID_content_only (k k' : TxKernel.t) :
  strip (KernelID.UpdateID k) = strip k /\
  (strip k = strip k' -> KernelID.UpdateID k = KernelID.UpdateID k') /\
  KernelID.UpdateID (KernelID.UpdateID k) = KernelID.UpdateID k.
Proof.
  split; [apply strip_UpdateID|]. split; [apply UpdateID_strip|].
  apply UpdateID_strip, strip_UpdateID.
Qed.

(** The ID of a standard kernel commits to the image of its hash lock: the
    kernel that holds the preimage and the kernel that holds the image of
    that preimage get the same ID. *)
Theorem UpdateID_hash_lock_image (b : TxKernel.Base) (n : list TxKernel.t)
    (c : Point.t) (s : Signature) (rl : option RelativeLock.t) (preimage : uintBig) :
  let image := KernelID.get_Image (HashLock.mk preimage false) in
  TxKernel.m_Internal_ID (TxKernel.base (KernelID.UpdateID
    (TxKernel.Krn b n (TxKernel.BodyStd c s (Some (HashLock.mk preimage false)) rl)))) =
  TxKernel.m_Internal_ID (TxKernel.base (KernelID.UpdateID
    (TxKernel.Krn b n (TxKernel.BodyStd c s (Some (HashLock.mk image true)) rl)))).
Proof.
  intros image. rewrite !UpdateID_unfold. simpl TxKernel.body.
  unfold KernelID.TxKernelStd_UpdateID, KernelID.HashBase, TxKernel.Min, TxKernel.Max.
  simpl TxKernel.base. simpl TxKernel.m_vNested.
  change (KernelID.get_Image {| HashLock.m_Value := image; HashLock.m_IsImage := true |})
    with image.
  fold image. cbv zeta.
  match goal with
  | |- context [KernelID.HashNested ?U ?l ?hp] =>
      destruct (KernelID.HashNested U l hp) as [hp' l']
  end.
  reflexivity.
Qed.

End kernel_ids.

(** ** The order of the kernels *)

(** [TxKernel::cmp] is a three-way comparison that orders the kernels, nested
    kernels included: its result is -1, 0 or 1, swapping the operands negates
    it, a kernel compares equal to itself, and both "less than" and
    "equivalent" are transitive - what [std::sort] asks of [operator<]. *)
Theorem TxKernel_cmp_orders `{ECC} (r : Rules.t) (a b c : TxKernel.t) :
  (TxKernel.cmp r a b = -1 \/ TxKernel.cmp r a b = 0 \/ TxKernel.cmp r a b = 1) /\
  TxKernel.cmp r b a = - TxKernel.cmp r a b /\
  TxKernel.cmp r a a = 0 /\
  (TxKernel.cmp r a b <= 0 -> TxKernel.cmp r b c <= 0 -> TxKernel.cmp r a c <= 0) /\
  (TxKernel.cmp r a b < 0 -> TxKernel.cmp r b c < 0 -> TxKernel.cmp r a c < 0) /\
  (TxKernel.cmp r a b = 0 -> TxKernel.cmp r b c = 0 -> TxKernel.cmp r a c = 0).
Proof.
  pose proof (TxKernel_cmp_lawful r) as L. destruct L as [L1 L2 L3].
  pose proof (L2 a b I I). pose proof (L2 b c I I). pose proof (L2 a c I I).
  pose proof (L2 a a I I).
  pose proof (L3 a b c I I I). pose proof (L3 c a b I I I). pose proof (L3 b c a I I I).
  pose proof (L3 c b a I I I).
  pose proof (L2 c a I I). pose proof (L2 c b I I). pose proof (L2 b a I I).
  split; [apply L1; exact I|]. repeat split; lia.
Qed.

(** * The results at concrete inputs

    Kernels, outputs and transactions over the small instance [Toy], on rules
    whose forks 1 and 2 are at heights 100 and 200. *)

Import Toy.

Definition std_kernel (id fee hmin hmax : Z) (bEmbed : bool) (nested : list TxKernel.t)
    : TxKernel.t :=
  TxKernel.Krn (TxKernel.mkBase id fee (HeightRange.mk hmin hmax) bEmbed) nested
               (TxKernel.BodyStd (Point.mk 9 false) 0 None None).

Definition asset_kernel (id fee hmin hmax : Z) : TxKernel.t :=
  TxKernel.Krn (TxKernel.mkBase id fee (HeightRange.mk hmin hmax) false) []
               (TxKernel.BodyAssetEmit 0 (Point.mk 9 false) 0 4 1).

Definition shielded_output_kernel (fee : Z) (nested : list TxKernel.t) : TxKernel.t :=
  TxKernel.Krn (TxKernel.mkBase 0 fee (HeightRange.mk 300 400) false) nested
               (TxKernel.BodyShieldedOutput 0 (TxKernel.mkTxo (Point.mk 9 false) 0 0)).

Definition shielded_input_kernel (fee : Z) (nested : list TxKernel.t) : TxKernel.t :=
  TxKernel.Krn (TxKernel.mkBase 0 fee (HeightRange.mk 300 400) false) nested
               (TxKernel.BodyShieldedInput 0 0 (Point.mk 9 false)).

(** *** Nested kernels (C1) *)

(** C1 as stated fails: a child with the range [0, 20] under a parent with
    the range [5, 10] is not contained in the parent, yet [IsValidBase] and
    [IsValid] accept it. *)
Lemma C1_child_wider_counterexample :
  let child := std_kernel 1 0 0 20 true [] in
  let parent := std_kernel 2 0 5 10 false [child] in
  fst (fst (TxKernel.IsValidBase rules (TxKernel.IsValid rules 150) 150 child 0
                                 (Some parent) None)) = true /\
  fst (TxKernel.IsValid rules 150 child 0 (Some parent)) = true /\
  ~ (TxKernel.Min parent <= TxKernel.Min child /\ TxKernel.Max child <= TxKernel.Max parent).
Proof.
  cbv zeta. split; [reflexivity|]. split; [reflexivity|].
  unfold TxKernel.Min, TxKernel.Max. simpl. lia.
Qed.

(** A child inside the range of its parent is rejected. *)
Example IsValid_child_narrower :
  let child := std_kernel 1 0 5 10 true [] in
  let parent := std_kernel 2 0 0 20 false [child] in
  fst (TxKernel.IsValid rules 150 child 0 (Some parent)) = false.
Proof. reflexivity. Qed.

(** *** Kernel ordering (C2) *)

(** C2 as stated fails: two kernels past Fork2 with the same internal ID, a
    standard one and an asset emission, do not compare equal. *)
Lemma C2_equal_ID_counterexample :
  let k := std_kernel 7 0 300 400 false [] in
  let v := asset_kernel 7 0 300 400 in
  TxKernel.m_Internal_ID (TxKernel.base k) = TxKernel.m_Internal_ID (TxKernel.base v) /\
  TxKernel.Min k >= Rules.Fork_Height rules 2 /\
  TxKernel.Min v >= Rules.Fork_Height rules 2 /\
  TxKernel.cmp rules k v = -1 /\
  TxKernel.cmp rules k v <> 0.
Proof.
  cbv zeta. split; [reflexivity|].
  split; [vm_compute; discriminate|]. split; [vm_compute; discriminate|].
  split; [reflexivity|]. vm_compute. discriminate.
Qed.

Example cmp_across_Fork2 :
  TxKernel.cmp rules (std_kernel 9 0 150 400 false []) (std_kernel 1 0 300 400 false []) = -1 /\
  TxKernel.cmp rules (std_kernel 1 0 300 400 false []) (std_kernel 9 0 150 400 false []) = 1 /\
  TxKernel.cmp rules (std_kernel 9 0 300 400 false []) (asset_kernel 1 0 300 400) = 1.
Proof. repeat split; reflexivity. Qed.

(** *** Statistics of shielded kernels (C10) *)

Lemma C10_shielded_AddStats_witness :
  TxKernel.AddStats (shielded_output_kernel 5 []) (TxStats.mk 0 0 0 0 0 0 0)
    = TxStats.mk 5 0 1 0 1 0 1 /\
  FeeSettings.Calculate FeeSettings.Default
    (TxKernel.AddStats (shielded_output_kernel 5 []) (TxStats.mk 0 0 0 0 0 0 0)) = 1020 /\
  TxKernel.AddStats (shielded_output_kernel 5 [std_kernel 1 3 300 400 true []])
                    (TxStats.mk 0 0 0 0 0 0 0)
    = TxStats.mk 8 0 2 0 1 0 1 /\
  FeeSettings.Calculate FeeSettings.Default
    (TxKernel.AddStats (shielded_output_kernel 5 [std_kernel 1 3 300 400 true []])
                       (TxStats.mk 0 0 0 0 0 0 0)) = 1030.
Proof.
  destruct (C10_shielded_AddStats FeeSettings.Default (shielded_output_kernel 5 [])
              (TxStats.mk 0 0 0 0 0 0 0)) as [Hout _].
  destruct (Hout eq_refl) as [_ Hplain].
  destruct (Hplain eq_refl) as [Hs Hfit].
  split; [exact Hs|].
  destruct Hfit as (_ & _ & _ & _ & _ & Hfee).
  { unfold counters_fit. simpl. unfold CounterBits, layout. lia. }
  split; [rewrite Hfee; reflexivity|].
  destruct (C10_shielded_AddStats FeeSettings.Default
              (shielded_output_kernel 5 [std_kernel 1 3 300 400 true []])
              (TxStats.mk 0 0 0 0 0 0 0)) as [Hout' _].
  destruct (Hout' eq_refl) as [Hnested _].
  destruct Hnested as (Hs' & _ & _ & _ & _ & _ & Hfee').
  { unfold stats_in_range. simpl. unfold CounterBits, layout. lia. }
  split; [rewrite Hs'; reflexivity|].
  rewrite Hfee'; [reflexivity|].
  vm_compute. repeat split.
Defined.

(** C10 as stated fails on a shielded kernel that has a nested kernel: it
    adds 2 to [m_Kernels], and the fee of the default settings grows by 1030. *)
Lemma C10_nested_counterexample :
  let k := shielded_output_kernel 5 [std_kernel 1 0 300 400 true []] in
  let s := TxKernel.AddStats k (TxStats.mk 0 0 0 0 0 0 0) in
  TxKernel.get_Subtype k = Subtype.ShieldedOutput /\
  TxStats.m_Kernels s = 2 /\ TxStats.m_Kernels s <> 0 + 1 /\
  FeeSettings.Calculate FeeSettings.Default s = 1030 /\
  FeeSettings.Calculate FeeSettings.Default s <> 1020.
Proof. cbv zeta. repeat split; try reflexivity; vm_compute; discriminate. Qed.

Example shielded_input_fee :
  FeeSettings.Calculate FeeSettings.Default
    (TxKernel.AddStats (shielded_input_kernel 5 []) (TxStats.mk 0 0 0 0 0 0 0)) = 1010.
Proof. reflexivity. Qed.

(** *** Normalization (C3, C4) *)

Definition input (c : Z) (id : Z) : Input.t :=
  Input.mk (TxElement.mk (Point.mk c false)) (Input.mkInternal 0 id).

Definition output (c : Z) : Output.t :=
  Output.mk (TxElement.mk (Point.mk c false)) false false 0 0 (Some 1) None.

(** Two of the three inputs are spent outputs of the same bundle. *)
Definition tx0 : TxVectors.Full :=
  {| TxVectors.P :=
       {| TxVectors.m_vInputs := [input 5 1; input 3 2; input 5 3];
          TxVectors.m_vOutputs := [output 8; output 3; output 5] |};
     TxVectors.E :=
       {| TxVectors.m_vKernels :=
            [std_kernel 2 0 300 400 false []; std_kernel 1 0 300 400 false []] |} |}.

Definition tx0_normal : TxVectors.Full :=
  {| TxVectors.P :=
       {| TxVectors.m_vInputs := [input 5 3];
          TxVectors.m_vOutputs := [output 8] |};
     TxVectors.E :=
       {| TxVectors.m_vKernels :=
            [std_kernel 1 0 300 400 false []; std_kernel 2 0 300 400 false []] |} |}.

Example Normalize_tx0 : TxVectors.Normalize rules tx0 = Some (tx0_normal, 2%nat).
Proof. vm_compute. reflexivity. Qed.

Example Normalize_tx0_twice : TxVectors.Normalize rules tx0_normal = Some (tx0_normal, 0%nat).
Proof. vm_compute. reflexivity. Qed.


(** With insertion sort, which leaves a sorted range as it is, the same
    transaction is returned as it is. *)
Example Normalize_equal_inputs_insertion :
  let tx :=
    {| TxVectors.P := {| TxVectors.m_vInputs := [input 5 1; input 5 2];
                         TxVectors.m_vOutputs := [] |};
       TxVectors.E := {| TxVectors.m_vKernels := [] |} |} in
  TxVectors.Normalize rules tx = Some (tx, 0%nat).
Proof. vm_compute. reflexivity. Qed.

(** *** The checksum (C6) *)

Lemma C6_UpdateChecksum_witness :
  exists r' : Rules.t,
    Rules.UpdateChecksum build rules = inr r' /\
    HeightHash.m_Hash (Rules.pForks_at r' 0) = 28 /\
    HeightHash.m_Hash (Rules.pForks_at r' 1) = 33 /\
    HeightHash.m_Hash (Rules.pForks_at r' 2) = 44 /\
    Rules.UpdateChecksum build
      (rules_with [HeightHash.mk 0 0; HeightHash.mk 300 0; HeightHash.mk 200 0])
    = inl "Inconsistent Forks"%string.
Proof.
  destruct (C6_UpdateChecksum build rules) as [_ Hok]; [simpl; lia|].
  destruct Hok as (r' & Hrun & H0 & H1 & H2 & _).
  { rewrite <- IsForkHeightsConsistent_false. vm_compute. discriminate. }
  destruct (C6_UpdateChecksum build
              (rules_with [HeightHash.mk 0 0; HeightHash.mk 300 0; HeightHash.mk 200 0]))
    as [Hbad _]; [simpl; lia|].
  exists r'. split; [exact Hrun|].
  split; [rewrite H0; reflexivity|]. split; [rewrite H1; reflexivity|].
  split; [rewrite H2; reflexivity|].
  apply Hbad. right. exists 2%nat. split; [simpl; lia|]. vm_compute. reflexivity.
Defined.

Example UpdateChecksum_consistent :
  exists r', Rules.UpdateChecksum build rules = inr r' /\
             HeightHash.m_Hash <$> Rules.pForks r' = [28; 33; 44] /\
             HeightHash.m_Height <$> Rules.pForks r' = [0; 100; 200].
Proof. eexists. split; [reflexivity|]. split; vm_compute; reflexivity. Qed.

(** Fork 2 below fork 1, and a first fork that is not at height 0. *)
Example UpdateChecksum_inconsistent :
  Rules.UpdateChecksum build
    (rules_with [HeightHash.mk 0 0; HeightHash.mk 300 0; HeightHash.mk 200 0])
    = inl "Inconsistent Forks"%string /\
  Rules.UpdateChecksum build
    (rules_with [HeightHash.mk 1 0; HeightHash.mk 100 0; HeightHash.mk 200 0])
    = inl "Inconsistent Forks"%string.
Proof. split; reflexivity. Qed.

(** *** Outputs (C8) *)

Example IsValid_shapes :
  let out (bCoinbase : bool) (conf pub : option Z) :=
    Output.mk (TxElement.mk (Point.mk 8 false)) bCoinbase false 0 0 conf pub in
  fst (Output.IsValid rules 150 (out true (Some 1) None)) = false /\
  fst (Output.IsValid rules 150 (out false (Some 1) (Some 2))) = false /\
  fst (Output.IsValid rules 150 (out false None None)) = false /\
  fst (Output.IsValid rules 150 (out false None (Some 2))) = false /\
  fst (Output.IsValid rules 150 (out false (Some 1) None)) = true /\
  fst (Output.IsValid rules 150 (out true None (Some 2))) = true.
Proof. cbv zeta. repeat split; reflexivity. Qed.

(** *** Child keys (C9) *)

Example get_Child_master_and_child :
  let store : MasterKey.Store := {[ 0%nat := [] ]} in
  let kidv (nSubIdx : Z) := Key.mkIDV 1 0 nSubIdx 100 in
  (* subkey 0, scheme V1 *)
  MasterKey.get_Child store (Some 0%nat) (kidv (Z.shiftl 1 24)) = Some (Some 0%nat, store) /\
  (* subkey 3, scheme BB21 *)
  MasterKey.get_Child store (Some 0%nat) (kidv (Z.shiftl 2 24 + 3)) = Some (Some 0%nat, store) /\
  (* subkey 3, scheme V0 *)
  (fst <$> MasterKey.get_Child store (Some 0%nat) (kidv 3)) = Some (Some 1%nat) /\
  (MasterKey.get_Child store (Some 0%nat) (kidv 3) ≫= fun '(_, st) => st !! 1%nat)
    = Some [3].
Proof. cbv zeta. repeat split; vm_compute; reflexivity. Qed.

(** * The further results at concrete inputs *)

(** A hash processor that keeps what was written and answers with its
    length. *)
Module ToyHash.

#[export] Instance processor : HashProcessor := {|
  Processor := list (Datum + list Z);
  Processor_new := [];
  Processor_write := fun hp d => inl d :: hp;
  Processor_write_Blob := fun hp b => inr b :: hp;
  Processor_out := fun hp => Z.of_nat (length hp)
|}.

End ToyHash.

Import ToyHash.

Ltac by_computation := vm_compute; first [reflexivity | discriminate].

Ltac u64 :=
  unfold HeightRange.wf, is_u64, MaxHeight, Rules.HeightGenesis; simpl;
  unfold Rules.Coin; lia.

(** *** Heights *)

Lemma Intersect_IsInRange_witness :
  HeightRange.IsInRange (HeightRange.mk 1 10) 7 && HeightRange.IsInRange (HeightRange.mk 5 20) 7
  = negb (HeightRange.IsEmpty
            (HeightRange.Intersect (HeightRange.mk 1 10) (HeightRange.mk 5 20))) &&
    HeightRange.IsInRange
      (HeightRange.Intersect (HeightRange.mk 1 10) (HeightRange.mk 5 20)) 7.
Proof.
  apply (Intersect_IsInRange (HeightRange.mk 1 10) (HeightRange.mk 5 20) 7);
    first [reflexivity | u64].
Defined.

Lemma HeightAdd_saturates_witness :
  HeightAdd (2 ^ 64 - 2) 5 = Z.min (2 ^ 64 - 2 + 5) MaxHeight /\
  2 ^ 64 - 2 <= HeightAdd (2 ^ 64 - 2) 5 /\ 5 <= HeightAdd (2 ^ 64 - 2) 5 /\
  is_u64 (HeightAdd (2 ^ 64 - 2) 5).
Proof. apply (HeightAdd_saturates (2 ^ 64 - 2) 5); u64. Defined.

Definition coinbase_output (c incubation : Z) : Output.t :=
  Output.mk (TxElement.mk (Point.mk c false)) true false incubation 0 None (Some 80).

Lemma get_MinMaturity_saturates_witness :
  get_MinMaturity rules (coinbase_output 8 7) 1000 = 1247.
Proof.
  destruct (get_MinMaturity_saturates rules (coinbase_output 8 7) 1000) as [E _]; try u64.
  rewrite E. reflexivity.
Defined.

(** *** Forks *)

Lemma FindFork_last_reached_witness :
  (Forks.FindFork rules 150 < length (Rules.pForks rules))%nat /\
  ((1 <= Forks.FindFork rules 150)%nat <-> Rules.Fork_Height rules 1 <= 150).
Proof.
  apply (FindFork_last_reached rules 150 1); [reflexivity|lia|simpl; lia].
Defined.

(** *** Emission *)

Lemma get_Emission_range_sum_witness :
  Emission.get_Emission_range 65 rules (HeightRange.mk 1 3) (Rules.Emission_Value0 rules)
  = Some (Emission.sumZ (Emission.emission_at rules (Rules.Emission_Value0 rules)) 1 3).
Proof.
  apply (get_Emission_range_sum rules (Rules.Emission_Value0 rules) (HeightRange.mk 1 3) 65);
    first [u64 | simpl; lia | lia].
Defined.

Lemma emission_decreases_and_ends_witness :
  Emission.emission_at rules (Rules.Emission_Value0 rules) 2
  <= Emission.emission_at rules (Rules.Emission_Value0 rules) 1.
Proof.
  apply (emission_decreases_and_ends rules (Rules.Emission_Value0 rules) 1 2);
    first [u64 | simpl; lia | lia].
Defined.


(** *** Statistics *)

Lemma Reader_AddStats_from_zero_witness :
  TxVectors.Reader_AddStats tx0 zero_stats
  = TxStats.add zero_stats (TxVectors.Reader_AddStats tx0 zero_stats).
Proof.
  apply (Reader_AddStats_from_zero tx0 zero_stats).
  unfold stats_in_range, CounterBits, layout. simpl. lia.
Defined.

Lemma Normalize_keeps_stats_witness :
  TxStats.m_Fee (TxVectors.Reader_AddStats tx0_normal zero_stats)
  = TxStats.m_Fee (TxVectors.Reader_AddStats tx0 zero_stats) /\
  TxStats.m_Inputs (TxVectors.Reader_AddStats tx0 zero_stats)
  = wrap CounterBits (TxStats.m_Inputs (TxVectors.Reader_AddStats tx0_normal zero_stats) + 2).
Proof.
  destruct (Normalize_keeps_stats rules tx0 tx0_normal 2 zero_stats) as (E1 & _ & _ & _ & E2 & _).
  - vm_compute. reflexivity.
  - unfold stats_in_range, CounterBits, layout. simpl. lia.
  - split; [exact E1|exact E2].
Defined.

(** *** Readers *)

Lemma Compare_covers_witness :
  let x := {| TxVectors.P := {| TxVectors.m_vInputs := [input 5 1];
                                TxVectors.m_vOutputs := [output 8] |};
              TxVectors.E := {| TxVectors.m_vKernels := [std_kernel 1 0 300 400 false []] |} |} in
  let y := {| TxVectors.P := {| TxVectors.m_vInputs := [];
                                TxVectors.m_vOutputs := [output 8] |};
              TxVectors.E := {| TxVectors.m_vKernels := [] |} |} in
  exists bICover bOtherCovers : bool,
    IReader.Compare rules x y = Some (bICover, bOtherCovers) /\
    (bICover = true <->
     covers Input.cmp (TxVectors.m_vInputs (TxVectors.P x))
                      (TxVectors.m_vInputs (TxVectors.P y)) /\
     covers Output.cmp (TxVectors.m_vOutputs (TxVectors.P x))
                       (TxVectors.m_vOutputs (TxVectors.P y)) /\
     covers (TxKernel.cmp rules) (TxVectors.m_vKernels (TxVectors.E x))
                                 (TxVectors.m_vKernels (TxVectors.E y))) /\
    (bOtherCovers = true <->
     covered Input.cmp (TxVectors.m_vInputs (TxVectors.P x))
                       (TxVectors.m_vInputs (TxVectors.P y)) /\
     covered Output.cmp (TxVectors.m_vOutputs (TxVectors.P x))
                        (TxVectors.m_vOutputs (TxVectors.P y)) /\
     covered (TxKernel.cmp rules) (TxVectors.m_vKernels (TxVectors.E x))
                                  (TxVectors.m_vKernels (TxVectors.E y))).
Proof.
  cbv zeta. apply Compare_covers; simpl; repeat constructor.
Defined.

(** *** The history of states *)

Definition state (h : Z) (stamp : Z) : SystemState.Full :=
  SystemState.mkFull h 0 0 0 0 stamp 0 0 [].

Definition history : HistoryMap.t := [ (3, state 3 0); (5, state 5 0); (9, state 9 0) ].

Lemma history_sorted : sorted_keys history.
Proof. repeat constructor; simpl; lia. Defined.

Lemma AddStates_get_At_witness :
  HistoryMap.get_At (HistoryMap.AddStates history [state 5 1; state 7 1; state 5 2]) 5
  = Some (state 5 2) /\
  HistoryMap.get_At (HistoryMap.AddStates history [state 5 1; state 7 1; state 5 2]) 3
  = Some (state 3 0).
Proof.
  split.
  - apply (AddStates_get_At history [state 5 1; state 7 1; state 5 2] 5 history_sorted).
  - apply (AddStates_get_At history [state 5 1; state 7 1; state 5 2] 3 history_sorted).
Defined.

Lemma DeleteFrom_erases_from_witness :
  HistoryMap.get_At (HistoryMap.DeleteFrom history 5) 5 = None /\
  HistoryMap.get_At (HistoryMap.DeleteFrom history 5) 3 = Some (state 3 0).
Proof.
  split.
  - apply (DeleteFrom_erases_from history 5 5 history_sorted).
  - apply (DeleteFrom_erases_from history 5 3 history_sorted).
Defined.

Lemma ShrinkToWindow_keeps_window_witness :
  HistoryMap.ShrinkToWindow history 0 = None /\
  HistoryMap.ShrinkToWindow history 9 = Some history.
Proof.
  pose proof (ShrinkToWindow_keeps_window history 0 0 history_sorted
                ltac:(u64) ltac:(repeat constructor; u64)) as W0.
  pose proof (ShrinkToWindow_keeps_window history 9 0 history_sorted
                ltac:(u64) ltac:(repeat constructor; u64)) as W9.
  change (last history) with (Some (9, state 9 0)) in W0, W9. cbv iota beta in W0, W9.
  destruct W0 as (_ & _ & W0). destruct W9 as (W9 & _).
  split; [apply W0; [reflexivity|lia]|apply W9; lia].
Defined.

Lemma Enum_descends_witness :
  HistoryMap.get_Tip history (state 0 0) = (true, state 9 0) /\
  HistoryMap.Enum (fun s w => (true, SystemState.m_Height s :: w)) history [] (Some 9)
  = (true, [3; 5]) /\
  HistoryMap.get_Tip [] (SystemState.mkFull 7 1 2 3 4 5 6 7 [8; 9; 10])
  = (false, SystemState.mkFull 0 0 0 0 0 0 0 0 [0; 0; 0]).
Proof.
  destruct (Enum_descends (list Z) (fun s w => (true, SystemState.m_Height s :: w))
              history [] 9 (state 0 0) history_sorted) as (E1 & _ & E3).
  split; [exact E3|]. split; [rewrite E1; reflexivity|].
  destruct (Enum_descends (list Z) (fun s w => (true, SystemState.m_Height s :: w))
              [] [] 9 (SystemState.mkFull 7 1 2 3 4 5 6 7 [8; 9; 10]))
    as (_ & _ & E0); [constructor|].
  exact E0.
Defined.

(** *** System states *)

Lemma NextPrefix_IsNext_witness :
  SystemState.IsNext rules (state 0 0) (SystemState.NextPrefix rules (state 0 0)) = true /\
  SystemState.IsSane rules (SystemState.NextPrefix rules (state 0 0)) = true /\
  SystemState.IsSane rules (SystemState.NextPrefix rules (state MaxHeight 0)) = false.
Proof.
  destruct (NextPrefix_IsNext rules (state 0 0)) as (E1 & E2 & _); [u64|].
  destruct (NextPrefix_IsNext rules (state MaxHeight 0)) as (_ & E3 & _); [u64|].
  split; [exact E1|]. split; [rewrite E2|rewrite E3]; reflexivity.
Defined.

Lemma UpdateChecksum_keeps_early_hashes_witness :
  let r' := rules_with [ HeightHash.mk 0 28; HeightHash.mk 100 33; HeightHash.mk 200 44 ] in
  SystemState.get_Hash r' (state 150 0) = SystemState.get_Hash rules (state 150 0) /\
  SystemState.get_HashForPoW r' (state 150 0) = SystemState.get_HashForPoW rules (state 150 0).
Proof.
  cbv zeta.
  apply (UpdateChecksum_keeps_early_hashes build rules
           (rules_with [ HeightHash.mk 0 28; HeightHash.mk 100 33; HeightHash.mk 200 44 ])
           (state 150 0)); [reflexivity|simpl; lia|reflexivity].
Defined.

(** *** Valid kernels *)

Lemma valid_before_Fork1_witness :
  TxKernel.m_CanEmbed (TxKernel.base (std_kernel 1 0 0 20 false [])) = false /\
  TxKernel.m_vNested (std_kernel 1 0 0 20 false []) = [] /\
  TxKernel.get_Subtype (std_kernel 1 0 0 20 false []) = Subtype.Std.
Proof.
  destruct (valid_before_Fork1 rules 50 (std_kernel 1 0 0 20 false []) 0 None)
    as (E1 & _ & E3 & _ & E5); [reflexivity|reflexivity|].
  split; [exact E1|]. split; [exact E3|]. apply E5. by_computation.
Defined.

Lemma valid_nonstandard_witness :
  Rules.Fork_Height rules 2 <= 350 /\
  Rules.Fork_Height rules 2 <= TxKernel.Min (shielded_input_kernel 5 []) /\
  Rules.Shielded_Enabled rules = true.
Proof.
  destruct (valid_nonstandard rules 350 (shielded_input_kernel 5 []) 0 None)
    as (E1 & E2 & E3); [reflexivity|discriminate|].
  split; [exact E1|]. split; [apply E2; reflexivity|exact E3].
Defined.

Lemma valid_descendants_witness :
  let grandchild := std_kernel 1 0 100 900 true [] in
  let child := std_kernel 2 0 200 800 true [grandchild] in
  let k := std_kernel 3 0 300 400 false [child] in
  TxKernel.m_CanEmbed (TxKernel.base grandchild) = true /\
  TxKernel.Min grandchild <= TxKernel.Min k /\ TxKernel.Max k <= TxKernel.Max grandchild.
Proof.
  cbv zeta.
  destruct (valid_descendants rules 350
              (std_kernel 3 0 300 400 false
                 [std_kernel 2 0 200 800 true [std_kernel 1 0 100 900 true []]]) 0 None)
    as [E _]; [reflexivity|].
  apply E. unfold descendants. simpl. left.
Defined.

Lemma valid_before_Fork2_witness :
  let k := std_kernel 3 0 100 400 false
             [std_kernel 1 0 100 900 true []; std_kernel 2 0 100 900 true []] in
  TxKernel.get_Subtype k = Subtype.Std /\
  sorted_by (TxKernel.cmp rules) (TxKernel.m_vNested k).
Proof.
  cbv zeta.
  apply (valid_before_Fork2 rules 150
           (std_kernel 3 0 100 400 false
              [std_kernel 1 0 100 900 true []; std_kernel 2 0 100 900 true []]) 0 None);
    [reflexivity|reflexivity].
Defined.
